(** * hydrogen-restock: the waitlist client core

    A shallow embedding of the client-side logic of
    [@tempered/hydrogen-restock]:

    - [utils/validation.ts]   ([isValidEmail], [extractNumericId], [sanitizeInput]),
    - [utils/constants.ts]    (the message tables and endpoints),
    - [hooks/useVariantAvailability.ts] (the availability classifier),
    - [hooks/useWaitlistCount.ts] ([fetchCount], [refetch], the count cache),
    - [hooks/useWaitlist.ts]  ([join], [leave], [reset]),
    - [types.ts]              (the records the hooks exchange),
    - [components/WaitlistCount.tsx] and [components/NotifyMeButton.tsx].

    Conventions of the embedding.

    - A JavaScript string is a sequence of code units; the model covers the
      code units below 256 and writes them as [string] (one [ascii] per code
      unit).  Numbers ([status], [count], timestamps, quantities) are [Z].
    - A callback of the host application is a function that returns or
      throws; it does not call back into the hook.
    - An optional field ([T | undefined], [T | null]) is an [option].
    - React state is the record of the latest values given to the setters; a
      hook function is a computation over that record and a log of the
      effects it performs ([fetch] calls and callback invocations).
    - An [async] function is cut at its single [await fetch(...)]: the part
      before it ([*_begin]) and the part after it ([*_resume]), which receives
      the outcome of the request. *)

From Stdlib Require Import ZArith Ascii String Bool Lia DecimalString.
From stdpp Require Import base option list strings gmap.

Local Open Scope string_scope.
Local Open Scope Z_scope.

(* ===================================================================== *)
(** * Regular expressions *)
(* ===================================================================== *)

(** The regular expressions of [validation.ts] that the hooks depend on
    use character classes, concatenation and [+] only; they are matched
    with Brzozowski derivatives.  [matches r s] is [/^r$/.test(s)]. *)
Module Regex.

Inductive re : Type :=
| Empty : re
| Eps : re
| Cls : (ascii -> bool) -> re
| Seq : re -> re -> re
| Alt : re -> re -> re
| Star : re -> re.

Definition Plus (r : re) : re := Seq r (Star r).

Fixpoint nullable (r : re) : bool :=
  match r with
  | Empty => false
  | Eps => true
  | Cls _ => false
  | Seq r1 r2 => nullable r1 && nullable r2
  | Alt r1 r2 => nullable r1 || nullable r2
  | Star _ => true
  end.

Fixpoint deriv (c : ascii) (r : re) : re :=
  match r with
  | Empty => Empty
  | Eps => Empty
  | Cls p => if p c then Eps else Empty
  | Seq r1 r2 =>
      if nullable r1
      then Alt (Seq (deriv c r1) r2) (deriv c r2)
      else Seq (deriv c r1) r2
  | Alt r1 r2 => Alt (deriv c r1) (deriv c r2)
  | Star r1 => Seq (deriv c r1) (Star r1)
  end.

Fixpoint matches (r : re) (s : string) : bool :=
  match s with
  | EmptyString => nullable r
  | String c s' => matches (deriv c r) s'
  end.

(** Syntactic emptiness: no string at all is matched. *)
Fixpoint void (r : re) : bool :=
  match r with
  | Empty => true
  | Eps => false
  | Cls _ => false
  | Seq r1 r2 => void r1 || void r2
  | Alt r1 r2 => void r1 && void r2
  | Star _ => false
  end.

(** The language of a regular expression. *)
Inductive lang : re -> string -> Prop :=
| lang_eps : lang Eps ""
| lang_cls p c : p c = true -> lang (Cls p) (String c "")
| lang_seq r1 r2 s1 s2 :
    lang r1 s1 -> lang r2 s2 -> lang (Seq r1 r2) (s1 +:+ s2)
| lang_alt_l r1 r2 s : lang r1 s -> lang (Alt r1 r2) s
| lang_alt_r r1 r2 s : lang r2 s -> lang (Alt r1 r2) s
| lang_star_nil r : lang (Star r) ""
| lang_star_cons r s1 s2 :
    lang r s1 -> lang (Star r) s2 -> lang (Star r) (s1 +:+ s2).

(** [search_to_end r s] is the leftmost suffix of [s] that [r] matches up to
    the end of the input: the match of the unanchored search [/r$/]. *)
Fixpoint search_to_end (r : re) (s : string) : option string :=
  if matches r s then Some s
  else match s with
       | EmptyString => None
       | String _ s' => search_to_end r s'
       end.

(** The derivative by a whole string, and the test that [r] matches no
    string that starts with a non-empty suffix of [p]. *)
Fixpoint derivs (p : string) (r : re) : re :=
  match p with
  | EmptyString => r
  | String c p' => derivs p' (deriv c r)
  end.

Fixpoint dead_on (r : re) (p : string) : bool :=
  match p with
  | EmptyString => true
  | String _ p' => void (derivs p r) && dead_on r p'
  end.

End Regex.

(* ===================================================================== *)
(** * JavaScript strings *)
(* ===================================================================== *)

Module JsString.

Definition code (c : ascii) : Z := Z.of_N (N_of_ascii c).

(** White space and line terminators among the code units below 256: the
    characters of [\s], which are also the ones [trim] removes. *)
Definition isWhiteSpace (c : ascii) : bool :=
  let n := code c in
  ((9 <=? n) && (n <=? 13)) || (n =? 32) || (n =? 160).

(** [\d] *)
Definition isDigit (c : ascii) : bool :=
  let n := code c in (48 <=? n) && (n <=? 57).

Fixpoint all_chars (p : ascii -> bool) (s : string) : bool :=
  match s with
  | EmptyString => true
  | String c s' => p c && all_chars p s'
  end.

(** A run of decimal digits. *)
Definition allDigits (s : string) : bool := all_chars isDigit s.

Definition isChar (a c : ascii) : bool := bool_decide (a = c).

Fixpoint trimStart (s : string) : string :=
  match s with
  | EmptyString => EmptyString
  | String c s' => if isWhiteSpace c then trimStart s' else s
  end.

Fixpoint trimEnd (s : string) : string :=
  match s with
  | EmptyString => EmptyString
  | String c s' =>
      match trimEnd s' with
      | EmptyString => if isWhiteSpace c then EmptyString else String c EmptyString
      | t => String c t
      end
  end.

(** [s.trim()] *)
Definition trim (s : string) : string := trimEnd (trimStart s).

Fixpoint map_chars (f : ascii -> ascii) (s : string) : string :=
  match s with
  | EmptyString => EmptyString
  | String c s' => String (f c) (map_chars f s')
  end.

Fixpoint filter_chars (keep : ascii -> bool) (s : string) : string :=
  match s with
  | EmptyString => EmptyString
  | String c s' =>
      if keep c then String c (filter_chars keep s') else filter_chars keep s'
  end.

(** Lower-casing of one code unit below 256: [A]-[Z] and the upper-case
    letters of the Latin-1 block (U+00C0-U+00DE without U+00D7) move up by
    32; every other code unit is its own lower case. *)
Definition lowerChar (c : ascii) : ascii :=
  let n := code c in
  if ((65 <=? n) && (n <=? 90))
     || ((192 <=? n) && (n <=? 222) && negb (n =? 215))
  then ascii_of_N (Z.to_N (n + 32))
  else c.

(** [s.toLowerCase()] on a string whose code units are all below 256,
    where it maps code unit by code unit.  On other strings the method can
    change the length (U+0130 becomes U+0069 U+0307), so nothing that rests
    on the length of a lower-cased string is carried over to them. *)
Definition toLowerCase (s : string) : string := map_chars lowerChar s.

(** [s.slice(0, n)] *)
Definition slice0 (n : nat) (s : string) : string := String.substring 0 n s.

Definition hexDigit (n : Z) : ascii :=
  if n <? 10 then ascii_of_N (Z.to_N (48 + n)) else ascii_of_N (Z.to_N (55 + n)).

Definition percent (byte : Z) : string :=
  String "%" (String (hexDigit (byte / 16)) (String (hexDigit (byte mod 16)) "")).

(** The characters [encodeURIComponent] leaves alone:
    [A-Z a-z 0-9 - _ . ! ~ * ' ( )]. *)
Definition isUriUnreserved (c : ascii) : bool :=
  let n := code c in
  ((65 <=? n) && (n <=? 90)) || ((97 <=? n) && (n <=? 122)) || isDigit c
  || (n =? 45) || (n =? 95) || (n =? 46) || (n =? 33) || (n =? 126)
  || (n =? 42) || (n =? 39) || (n =? 40) || (n =? 41).

(** [encodeURIComponent(s)]: every other code unit is written as the
    percent-escaped bytes of its UTF-8 encoding (one byte below 128, two
    bytes from 128 to 255). *)
Fixpoint encodeURIComponent (s : string) : string :=
  match s with
  | EmptyString => EmptyString
  | String c s' =>
      let n := code c in
      (if isUriUnreserved c then String c ""
       else if n <? 128 then percent n
       else percent (192 + n / 64) +:+ percent (128 + n mod 64))
      +:+ encodeURIComponent s'
  end.

End JsString.

(* ===================================================================== *)
(** * utils/validation.ts *)
(* ===================================================================== *)

Module Validation.
Import Regex JsString.

(** [[^\s@]] *)
Definition notSpaceNorAt (c : ascii) : bool :=
  negb (isWhiteSpace c) && negb (isChar "@" c).

(** [/^[^\s@]+@[^\s@]+\.[^\s@]+$/] *)
Definition emailRegex : re :=
  Seq (Plus (Cls notSpaceNorAt))
      (Seq (Cls (isChar "@"))
           (Seq (Plus (Cls notSpaceNorAt))
                (Seq (Cls (isChar "."))
                     (Plus (Cls notSpaceNorAt))))).

(** [isValidEmail]: the falsy test [!email] is the test for the empty
    string (the argument is a string). *)
Definition isValidEmail (email : string) : bool :=
  if bool_decide (email = "") then false
  else matches emailRegex (trim email).

(** [/\/(\d+)$/]: the part before the group is one character, so the
    group is the match without its first character. *)
Definition numericTail : re := Seq (Cls (isChar "/")) (Plus (Cls isDigit)).

Definition group1 (m : string) : string :=
  match m with
  | EmptyString => EmptyString
  | String _ d => d
  end.

(** [extractNumericId] *)
Definition extractNumericId (gid : string) : string :=
  if bool_decide (gid = "") then ""
  else match search_to_end numericTail gid with
       | Some m => group1 m
       | None => gid
       end.

(** [sanitizeInput] *)
Definition sanitizeInput (input : string) : string :=
  if bool_decide (input = "") then ""
  else
    slice0 500
      (filter_chars (fun c => negb (isChar "<" c || isChar ">" c))
         (trim input)).

End Validation.

(* ===================================================================== *)
(** * utils/constants.ts *)
(* ===================================================================== *)

Module Constants.

Module DEFAULT_ERROR_MESSAGES.
Definition invalidEmail : string := "Please enter a valid email address.".
Definition alreadyJoined : string :=
  "You are already on the waitlist for this product.".
Definition notOnWaitlist : string :=
  "You are not on the waitlist for this product.".
Definition network : string := "Network error. Please try again.".
Definition rateLimited : string := "Too many requests. Please try again later.".
Definition unknown : string := "An unexpected error occurred.".
End DEFAULT_ERROR_MESSAGES.

Module DEFAULT_SUCCESS_MESSAGES.
Definition joined : string :=
  "You've been added to the waitlist. We'll email you when it's back in stock.".
Definition left : string := "You've been removed from the waitlist.".
End DEFAULT_SUCCESS_MESSAGES.

Module API_ENDPOINTS.
Definition join : string := "/api/v1/join".
Definition leave : string := "/api/v1/leave".
Definition count : string := "/api/v1/count".
End API_ENDPOINTS.

End Constants.

(* ===================================================================== *)
(** * types.ts *)
(* ===================================================================== *)

Module RestockBridgeConfig.
(** [interface RestockBridgeConfig]: [{apiUrl, apiKey?, shopDomain}]. *)
Record t : Type := mk {
  apiUrl : string;
  shopDomain : string;
  apiKey : option string;
}.
End RestockBridgeConfig.

Module VariantInfo.
(** [interface VariantInfo]: [{id, productId, productTitle, variantTitle,
    sku?, availableForSale, quantityAvailable?, price?, image?}], where
    [variantTitle] is a string or [null], [price] is [{amount,
    currencyCode}] and [image] is [{url, altText?}].  The optional [sku],
    which no function of the package reads, is left out. *)
Record t : Type := mk {
  id : string;
  productId : string;
  productTitle : string;
  variantTitle : option string;
  availableForSale : bool;
  quantityAvailable : option Z;
  price : option (string * string);
  image : option (string * option string);
}.
End VariantInfo.

(** [type AvailabilityStatus = 'available' | 'out_of_stock' | 'preorder'] *)
Inductive AvailabilityStatus : Type :=
| available
| out_of_stock
| preorder.

Module WaitlistState.
(** [interface WaitlistState]: [{email, isJoining, isLeaving, isJoined,
    error?, successMessage?}], the six [useState] cells of [useWaitlist]. *)
Record t : Type := mk {
  email : string;
  isJoining : bool;
  isLeaving : bool;
  isJoined : bool;
  error : option string;
  successMessage : option string;
}.

(** What each state setter does to the record. *)
Definition set_email (v : string) (s : t) : t :=
  mk v (isJoining s) (isLeaving s) (isJoined s) (error s) (successMessage s).
Definition set_isJoining (v : bool) (s : t) : t :=
  mk (email s) v (isLeaving s) (isJoined s) (error s) (successMessage s).
Definition set_isLeaving (v : bool) (s : t) : t :=
  mk (email s) (isJoining s) v (isJoined s) (error s) (successMessage s).
Definition set_isJoined (v : bool) (s : t) : t :=
  mk (email s) (isJoining s) (isLeaving s) v (error s) (successMessage s).
Definition set_error (v : option string) (s : t) : t :=
  mk (email s) (isJoining s) (isLeaving s) (isJoined s) v (successMessage s).
Definition set_successMessage (v : option string) (s : t) : t :=
  mk (email s) (isJoining s) (isLeaving s) (isJoined s) (error s) v.
End WaitlistState.

Module JoinWaitlistResponse.
(** [interface JoinWaitlistResponse]: [{success, entryId?, message?,
    error?}]. *)
Record t : Type := mk {
  success : bool;
  entryId : option string;
  message : option string;
  error : option string;
}.
(** The object literal [{ success: false, error: errorMsg }]. *)
Definition failure (errorMsg : string) : t :=
  mk false None None (Some errorMsg).
(** A result that carries [success: false] and an [error] string, whatever
    else it carries. *)
Definition isFailure (r : t) : bool :=
  match error r with
  | Some _ => negb (success r)
  | None => false
  end.
End JoinWaitlistResponse.

Module LeaveWaitlistResponse.
(** [interface LeaveWaitlistResponse]: [{success, message?, error?}]. *)
Record t : Type := mk {
  success : bool;
  message : option string;
  error : option string;
}.
Definition failure (errorMsg : string) : t := mk false None (Some errorMsg).
Definition isFailure (r : t) : bool :=
  match error r with
  | Some _ => negb (success r)
  | None => false
  end.
End LeaveWaitlistResponse.

Module WaitlistCountResponse.
(** [interface WaitlistCountResponse]: [{variantId, count}]. *)
Record t : Type := mk {
  variantId : string;
  count : Z;
}.
End WaitlistCountResponse.

(* ===================================================================== *)
(** * Requests, responses and thrown values *)
(* ===================================================================== *)

(** What a [catch] clause receives: an [Error] object with its message, or
    some other value. *)
Inductive thrown : Type :=
| JsError (message : string)
| JsOther.

(** The JSON text handed to [fetch] as [body], kept structured: a field
    that is [undefined] is dropped by [JSON.stringify] and is [None] here. *)
Inductive RequestBody : Type :=
| JoinBody (email variantId productId : string)
    (productTitle variantTitle : option string) (shop : string)
| LeaveBody (email variantId shop : string).

Record HttpRequest : Type := mkRequest {
  method : string;
  url : string;
  contentType : option string;
  authorization : option string;
  body : option RequestBody;
}.

(** How [await fetch(...)] followed by [await res.json()] can go: the
    promise of [fetch] rejects (no response was received), or a response
    arrives with a status and a body that [res.json()] either parses to a
    value of the declared type or rejects. *)
Inductive FetchOutcome (A : Type) : Type :=
| Rejected (e : thrown)
| Response (status : Z) (json : thrown + A).
Arguments Rejected {A} e.
Arguments Response {A} status json.

(** [res.ok] *)
Definition ok (status : Z) : bool := (200 <=? status) && (status <=? 299).

(** [...(config.apiKey && { Authorization: `Bearer ${config.apiKey}` })]:
    a missing key and the empty string are both falsy and add no header. *)
Definition authorizationHeader (apiKey : option string) : option string :=
  match apiKey with
  | None => None
  | Some k => if bool_decide (k = "") then None else Some ("Bearer " +:+ k)
  end.

(* ===================================================================== *)
(** * Computations with state and exceptions *)
(* ===================================================================== *)

Module Js.

Inductive completion (A : Type) : Type :=
| Normal (a : A)
| Throw (e : thrown).
Arguments Normal {A} a.
Arguments Throw {A} e.

Definition M (S A : Type) : Type := S -> completion A * S.

Definition ret {S A} (a : A) : M S A := fun s => (Normal a, s).

Definition bind {S A B} (m : M S A) (k : A -> M S B) : M S B :=
  fun s =>
    match m s with
    | (Normal a, s') => k a s'
    | (Throw e, s') => (Throw e, s')
    end.

Definition throw {S A} (e : thrown) : M S A := fun s => (Throw e, s).

Definition modify {S} (f : S -> S) : M S unit := fun s => (Normal tt, f s).

Definition gets {S A} (f : S -> A) : M S A := fun s => (Normal (f s), s).

(** [try { body } catch (err) { handler }] *)
Definition try_catch {S A} (body : M S A) (handler : thrown -> M S A) : M S A :=
  fun s =>
    match body s with
    | (Normal a, s') => (Normal a, s')
    | (Throw e, s') => handler e s'
    end.

(** [try { body } finally { fin }]: [fin] runs on every exit and the
    completion of [body] is kept unless [fin] itself throws. *)
Definition finally {S A} (body : M S A) (fin : M S unit) : M S A :=
  fun s =>
    match body s with
    | (r, s') =>
        match fin s' with
        | (Normal _, s'') => (r, s'')
        | (Throw e, s'') => (Throw e, s'')
        end
    end.

(** [await p] for a promise that is already settled. *)
Definition await {S A} (p : thrown + A) : M S A :=
  match p with
  | inl e => throw e
  | inr a => ret a
  end.

Declare Scope js_scope.
Delimit Scope js_scope with js.
Notation "x <- c1 ;; c2" := (bind c1 (fun x => c2))
  (at level 100, c1 at next level, right associativity) : js_scope.
Notation "c1 ;; c2" := (bind c1 (fun _ => c2))
  (at level 100, right associativity) : js_scope.

End Js.

(* ===================================================================== *)
(** * hooks/useVariantAvailability.ts *)
(* ===================================================================== *)

Module VariantAvailability.

Record UseVariantAvailabilityOptions : Type := mkOptions {
  variant : option VariantInfo.t;
  lowStockThreshold : option Z;
}.

Record UseVariantAvailabilityReturn : Type := mkReturn {
  status : AvailabilityStatus;
  isAvailable : bool;
  isOutOfStock : bool;
  isLowStock : bool;
  showNotifyMe : bool;
  quantityAvailable : option Z;
}.

Definition useVariantAvailability (options : UseVariantAvailabilityOptions)
  : UseVariantAvailabilityReturn :=
  let variant := variant options in
  let lowStockThreshold := default 5 (lowStockThreshold options) in
  match variant with
  | None =>
      {| status := out_of_stock;
         isAvailable := false;
         isOutOfStock := true;
         isLowStock := false;
         showNotifyMe := false;
         quantityAvailable := None |}
  | Some variant =>
      let availableForSale := VariantInfo.availableForSale variant in
      let quantityAvailable := VariantInfo.quantityAvailable variant in
      let status :=
        if negb availableForSale then out_of_stock
        else match quantityAvailable with
             | Some q => if q =? 0 then preorder else available
             | None => available
             end in
      let isAvailable := availableForSale in
      let isOutOfStock := negb availableForSale in
      let isLowStock :=
        availableForSale &&
        match quantityAvailable with
        | Some q => (0 <? q) && (q <=? lowStockThreshold)
        | None => false
        end in
      let showNotifyMe := isOutOfStock in
      {| status := status;
         isAvailable := isAvailable;
         isOutOfStock := isOutOfStock;
         isLowStock := isLowStock;
         showNotifyMe := showNotifyMe;
         quantityAvailable := quantityAvailable |}
  end.

End VariantAvailability.

(* ===================================================================== *)
(** * hooks/useWaitlist.ts *)
(* ===================================================================== *)

Module Waitlist.
Import Js JsString Validation Constants.
Local Open Scope js_scope.

(** What the hook does to the world outside its state cells: it sends a
    request or it invokes a callback of the host application. *)
Inductive Effect : Type :=
| Fetch (request : HttpRequest)
| OnJoinSuccess (response : JoinWaitlistResponse.t)
| OnJoinError (error : string)
| OnLeaveSuccess (response : LeaveWaitlistResponse.t)
| OnLeaveError (error : string).

(** A callback is a function of the host application.  What the hook can
    observe of a call [callback(argument)] is whether it returns ([None])
    or throws ([Some e]); that may depend on the argument and on what the
    hook has done so far, the log of its earlier requests and invocations.
    Every invocation lengthens the log, so a callback with a state of its
    own, which answers two calls with the same argument differently, is
    such a function as well. *)
Definition Callback (A : Type) : Type := list Effect -> A -> option thrown.

(** The options of the hook; a callback that is not supplied is [None]. *)
Record UseWaitlistOptions : Type := mkOptions {
  variant : VariantInfo.t;
  onJoinSuccess : option (Callback JoinWaitlistResponse.t);
  onJoinError : option (Callback string);
  onLeaveSuccess : option (Callback LeaveWaitlistResponse.t);
  onLeaveError : option (Callback string);
}.

(** A callback that returns whenever it is called. *)
Definition returns {A : Type} : Callback A := fun _ _ => None.

(** A callback that throws [e] whenever it is called. *)
Definition throws {A : Type} (e : thrown) : Callback A := fun _ _ => Some e.

(** The state cells of one hook instance and what it has done so far,
    oldest effect first. *)
Record World : Type := mkWorld {
  state : WaitlistState.t;
  effects : list Effect;
}.

Definition initialState : WaitlistState.t :=
  WaitlistState.mk "" false false false None None.

Definition initialWorld : World := mkWorld initialState [].

Definition setState (f : WaitlistState.t -> WaitlistState.t) : M World unit :=
  modify (fun w => mkWorld (f (state w)) (effects w)).

Definition setEmail (v : string) : M World unit :=
  setState (WaitlistState.set_email v).

Definition setIsJoining (v : bool) : M World unit :=
  setState (WaitlistState.set_isJoining v).

Definition setIsLeaving (v : bool) : M World unit :=
  setState (WaitlistState.set_isLeaving v).

Definition setIsJoined (v : bool) : M World unit :=
  setState (WaitlistState.set_isJoined v).

Definition setError (v : option string) : M World unit :=
  setState (WaitlistState.set_error v).

Definition setSuccessMessage (v : option string) : M World unit :=
  setState (WaitlistState.set_successMessage v).

Definition perform (e : Effect) : M World unit :=
  modify (fun w => mkWorld (state w) (effects w ++ [e])).

(** What [callback?.(argument)] does after the log [log]: nothing when no
    callback was supplied, and otherwise what the callback does. *)
Definition thrownBy {A : Type} (callback : option (Callback A))
    (log : list Effect) (argument : A) : option thrown :=
  match callback with
  | Some f => f log argument
  | None => None
  end.

(** [callback?.(argument)]: the invocation is recorded as [invocation
    argument], and an exception of the callback leaves the call. *)
Definition optional_call {A : Type} (callback : option (Callback A))
    (invocation : A -> Effect) (argument : A) : M World unit :=
  match callback with
  | None => ret tt
  | Some f =>
      log <- gets effects ;;
      perform (invocation argument) ;;
      match f log argument with
      | None => ret tt
      | Some e => throw e
      end
  end.

(** [callback?.(argument)] as the list of invocations it adds to the log. *)
Definition invoked {A : Type} (callback : option (Callback A)) (e : Effect)
  : list Effect :=
  match callback with
  | Some _ => [e]
  | None => []
  end.

(** How [callback?.(argument); return r] completes after the log [log]. *)
Definition returnAfter {A B : Type} (callback : option (Callback A))
    (log : list Effect) (argument : A) (r : B) : completion B :=
  match thrownBy callback log argument with
  | None => Normal r
  | Some e => Throw e
  end.

(** [sanitizeInput(emailInput).toLowerCase()], the first line of [join] and
    of [leave]. *)
Definition cleaned (emailInput : string) : string :=
  toLowerCase (sanitizeInput emailInput).

(** The call [fetch(url, init)]; its promise is awaited at the cut. *)
Definition fetch (request : HttpRequest) : M World unit :=
  perform (Fetch request).

Section Hook.

Variable config : RestockBridgeConfig.t.
Variable options : UseWaitlistOptions.

(** The request of [join]: the [request] object with [shop] added as the
    body, posted to the join endpoint. *)
Definition joinRequest (cleanEmail : string) : HttpRequest :=
  let v := variant options in
  let request :=
    JoinBody cleanEmail (VariantInfo.id v) (VariantInfo.productId v)
      (Some (VariantInfo.productTitle v)) (VariantInfo.variantTitle v) in
  let url := RestockBridgeConfig.apiUrl config +:+ API_ENDPOINTS.join in
  mkRequest "POST" url (Some "application/json")
    (authorizationHeader (RestockBridgeConfig.apiKey config))
    (Some (request (RestockBridgeConfig.shopDomain config))).

(** [join], up to [await fetch(...)]: either the call has already returned
    (left) or a request is in flight (right).  [join] is an [async]
    function: where the computation completes with [Throw e], the promise
    that [join] returned is rejected with [e]. *)
Definition join_begin (emailInput : string)
  : M World (JoinWaitlistResponse.t + HttpRequest) :=
  let cleanEmail := cleaned emailInput in
  if negb (isValidEmail cleanEmail) then
    let errorMsg := DEFAULT_ERROR_MESSAGES.invalidEmail in
    setError (Some errorMsg) ;;
    optional_call (onJoinError options) OnJoinError errorMsg ;;
    ret (inl (JoinWaitlistResponse.failure errorMsg))
  else
    setIsJoining true ;;
    setError None ;;
    setSuccessMessage None ;;
    let req := joinRequest cleanEmail in
    fetch req ;;
    ret (inr req).

(** The rest of the [try] block of [join], from the settled [fetch] on. *)
Definition join_try (o : FetchOutcome JoinWaitlistResponse.t)
  : M World JoinWaitlistResponse.t :=
  match o with
  | Rejected e => throw e
  | Response status json =>
      if status =? 429 then
        let errorMsg := DEFAULT_ERROR_MESSAGES.rateLimited in
        setError (Some errorMsg) ;;
        optional_call (onJoinError options) OnJoinError errorMsg ;;
        ret (JoinWaitlistResponse.failure errorMsg)
      else
        result <- await json ;;
        if negb (ok status) || negb (JoinWaitlistResponse.success result) then
          let errorMsg :=
            default DEFAULT_ERROR_MESSAGES.unknown
              (JoinWaitlistResponse.error result) in
          setError (Some errorMsg) ;;
          optional_call (onJoinError options) OnJoinError errorMsg ;;
          ret result
        else
          setIsJoined true ;;
          setSuccessMessage
            (Some (default DEFAULT_SUCCESS_MESSAGES.joined
                     (JoinWaitlistResponse.message result))) ;;
          optional_call (onJoinSuccess options) OnJoinSuccess result ;;
          ret result
  end.

(** [join], from the settled [fetch] to its return: the [try] block with
    its [catch] and [finally]. *)
Definition join_resume (o : FetchOutcome JoinWaitlistResponse.t)
  : M World JoinWaitlistResponse.t :=
  finally
    (try_catch (join_try o)
       (fun _ =>
          let errorMsg := DEFAULT_ERROR_MESSAGES.network in
          setError (Some errorMsg) ;;
          optional_call (onJoinError options) OnJoinError errorMsg ;;
          ret (JoinWaitlistResponse.failure errorMsg)))
    (setIsJoining false).

(** [join] run to its return against a transport [net] that settles the
    request at once. *)
Definition join (net : HttpRequest -> FetchOutcome JoinWaitlistResponse.t)
    (emailInput : string) : M World JoinWaitlistResponse.t :=
  r <- join_begin emailInput ;;
  match r with
  | inl result => ret result
  | inr req => join_resume (net req)
  end.

Definition leaveRequest (cleanEmail : string) : HttpRequest :=
  let url := RestockBridgeConfig.apiUrl config +:+ API_ENDPOINTS.leave in
  mkRequest "POST" url (Some "application/json")
    (authorizationHeader (RestockBridgeConfig.apiKey config))
    (Some (LeaveBody cleanEmail (VariantInfo.id (variant options))
             (RestockBridgeConfig.shopDomain config))).

Definition leave_begin (emailInput : string)
  : M World (LeaveWaitlistResponse.t + HttpRequest) :=
  let cleanEmail := cleaned emailInput in
  if negb (isValidEmail cleanEmail) then
    let errorMsg := DEFAULT_ERROR_MESSAGES.invalidEmail in
    setError (Some errorMsg) ;;
    optional_call (onLeaveError options) OnLeaveError errorMsg ;;
    ret (inl (LeaveWaitlistResponse.failure errorMsg))
  else
    setIsLeaving true ;;
    setError None ;;
    setSuccessMessage None ;;
    let req := leaveRequest cleanEmail in
    fetch req ;;
    ret (inr req).

Definition leave_try (o : FetchOutcome LeaveWaitlistResponse.t)
  : M World LeaveWaitlistResponse.t :=
  match o with
  | Rejected e => throw e
  | Response status json =>
      if status =? 429 then
        let errorMsg := DEFAULT_ERROR_MESSAGES.rateLimited in
        setError (Some errorMsg) ;;
        optional_call (onLeaveError options) OnLeaveError errorMsg ;;
        ret (LeaveWaitlistResponse.failure errorMsg)
      else
        result <- await json ;;
        if negb (ok status) || negb (LeaveWaitlistResponse.success result) then
          let errorMsg :=
            default DEFAULT_ERROR_MESSAGES.unknown
              (LeaveWaitlistResponse.error result) in
          setError (Some errorMsg) ;;
          optional_call (onLeaveError options) OnLeaveError errorMsg ;;
          ret result
        else
          setIsJoined false ;;
          setSuccessMessage
            (Some (default DEFAULT_SUCCESS_MESSAGES.left
                     (LeaveWaitlistResponse.message result))) ;;
          optional_call (onLeaveSuccess options) OnLeaveSuccess result ;;
          ret result
  end.

Definition leave_resume (o : FetchOutcome LeaveWaitlistResponse.t)
  : M World LeaveWaitlistResponse.t :=
  finally
    (try_catch (leave_try o)
       (fun _ =>
          let errorMsg := DEFAULT_ERROR_MESSAGES.network in
          setError (Some errorMsg) ;;
          optional_call (onLeaveError options) OnLeaveError errorMsg ;;
          ret (LeaveWaitlistResponse.failure errorMsg)))
    (setIsLeaving false).

Definition leave (net : HttpRequest -> FetchOutcome LeaveWaitlistResponse.t)
    (emailInput : string) : M World LeaveWaitlistResponse.t :=
  r <- leave_begin emailInput ;;
  match r with
  | inl result => ret result
  | inr req => leave_resume (net req)
  end.

Definition reset : M World unit :=
  setEmail "" ;;
  setIsJoining false ;;
  setIsLeaving false ;;
  setIsJoined false ;;
  setError None ;;
  setSuccessMessage None.

(** ** One hook instance over time

    What can happen to an instance, one synchronous stretch of code at a
    time: a call of one of the returned functions, or the request of an
    earlier [join] or [leave] settling.  Nothing in the hook keeps a second
    call from starting while a request is in flight, so the instance counts
    the requests it is waiting for. *)
Inductive Event : Type :=
| CallJoin (emailInput : string)
| SettleJoin (o : FetchOutcome JoinWaitlistResponse.t)
| CallLeave (emailInput : string)
| SettleLeave (o : FetchOutcome LeaveWaitlistResponse.t)
| CallReset
| CallSetEmail (v : string).

Record Instance : Type := mkInstance {
  world : World;
  joinsInFlight : nat;
  leavesInFlight : nat;
}.

Definition initialInstance : Instance := mkInstance initialWorld 0 0.

(** [step i e] is [None] when [e] cannot happen in [i]: no request of that
    kind is waiting to settle. *)
Definition step (i : Instance) (e : Event) : option Instance :=
  match e with
  | CallJoin emailInput =>
      match join_begin emailInput (world i) with
      | (Normal (inr _), w) =>
          Some (mkInstance w (S (joinsInFlight i)) (leavesInFlight i))
      | (_, w) => Some (mkInstance w (joinsInFlight i) (leavesInFlight i))
      end
  | SettleJoin o =>
      match joinsInFlight i with
      | O => None
      | S n =>
          Some (mkInstance (join_resume o (world i)).2 n (leavesInFlight i))
      end
  | CallLeave emailInput =>
      match leave_begin emailInput (world i) with
      | (Normal (inr _), w) =>
          Some (mkInstance w (joinsInFlight i) (S (leavesInFlight i)))
      | (_, w) => Some (mkInstance w (joinsInFlight i) (leavesInFlight i))
      end
  | SettleLeave o =>
      match leavesInFlight i with
      | O => None
      | S n =>
          Some (mkInstance (leave_resume o (world i)).2 (joinsInFlight i) n)
      end
  | CallReset =>
      Some (mkInstance (reset (world i)).2 (joinsInFlight i) (leavesInFlight i))
  | CallSetEmail v =>
      Some (mkInstance (setEmail v (world i)).2
              (joinsInFlight i) (leavesInFlight i))
  end.

Fixpoint run (i : Instance) (es : list Event) : option Instance :=
  match es with
  | [] => Some i
  | e :: es' =>
      match step i e with
      | Some i' => run i' es'
      | None => None
      end
  end.

End Hook.

(** A [join] response that the hook treats as a success. *)
Definition joinSucceeded (o : FetchOutcome JoinWaitlistResponse.t) : bool :=
  match o with
  | Response status (inr result) =>
      negb (status =? 429) && ok status && JoinWaitlistResponse.success result
  | _ => false
  end.

Definition leaveSucceeded (o : FetchOutcome LeaveWaitlistResponse.t) : bool :=
  match o with
  | Response status (inr result) =>
      negb (status =? 429) && ok status && LeaveWaitlistResponse.success result
  | _ => false
  end.

(** A transport-level failure: no response, or a response (other than a
    429, which is answered before the body is read) whose body
    [res.json()] rejects. *)
Definition joinTransportFailure (o : FetchOutcome JoinWaitlistResponse.t) : bool :=
  match o with
  | Rejected _ => true
  | Response status (inl _) => negb (status =? 429)
  | Response _ (inr _) => false
  end.

Definition leaveTransportFailure (o : FetchOutcome LeaveWaitlistResponse.t) : bool :=
  match o with
  | Rejected _ => true
  | Response status (inl _) => negb (status =? 429)
  | Response _ (inr _) => false
  end.

(** The message that a response which is not a success calls for: the
    rate-limited one for a 429, the [network] one when there is no response
    or no body that parses, and else the [error] of the body or, when it
    has none, the [unknown] one. *)
Definition joinFailureMessage (o : FetchOutcome JoinWaitlistResponse.t) : string :=
  match o with
  | Rejected _ => DEFAULT_ERROR_MESSAGES.network
  | Response status json =>
      if status =? 429 then DEFAULT_ERROR_MESSAGES.rateLimited
      else match json with
           | inl _ => DEFAULT_ERROR_MESSAGES.network
           | inr result =>
               default DEFAULT_ERROR_MESSAGES.unknown
                 (JoinWaitlistResponse.error result)
           end
  end.

(** The value that goes with it: the parsed body of a response that is not
    a 429, and else [{success: false, error}] with the message. *)
Definition joinFailureResult (o : FetchOutcome JoinWaitlistResponse.t)
  : JoinWaitlistResponse.t :=
  match o with
  | Response status (inr result) =>
      if status =? 429
      then JoinWaitlistResponse.failure DEFAULT_ERROR_MESSAGES.rateLimited
      else result
  | _ => JoinWaitlistResponse.failure (joinFailureMessage o)
  end.

Definition leaveFailureMessage (o : FetchOutcome LeaveWaitlistResponse.t) : string :=
  match o with
  | Rejected _ => DEFAULT_ERROR_MESSAGES.network
  | Response status json =>
      if status =? 429 then DEFAULT_ERROR_MESSAGES.rateLimited
      else match json with
           | inl _ => DEFAULT_ERROR_MESSAGES.network
           | inr result =>
               default DEFAULT_ERROR_MESSAGES.unknown
                 (LeaveWaitlistResponse.error result)
           end
  end.

Definition leaveFailureResult (o : FetchOutcome LeaveWaitlistResponse.t)
  : LeaveWaitlistResponse.t :=
  match o with
  | Response status (inr result) =>
      if status =? 429
      then LeaveWaitlistResponse.failure DEFAULT_ERROR_MESSAGES.rateLimited
      else result
  | _ => LeaveWaitlistResponse.failure (leaveFailureMessage o)
  end.

(** The number of requests in an effect log. *)
Definition isFetch (e : Effect) : bool :=
  match e with
  | Fetch _ => true
  | _ => false
  end.

Definition requestCount (l : list Effect) : nat :=
  length (List.filter isFetch l).

End Waitlist.

(* ===================================================================== *)
(** * hooks/useWaitlistCount.ts *)
(* ===================================================================== *)

Module WaitlistCount.
Import Js JsString Validation Constants.
Local Open Scope js_scope.

Record UseWaitlistCountOptions : Type := mkOptions {
  variantId : string;
  autoFetch : option bool;
  cacheDuration : option Z;
}.

(** A value of [countCache]. *)
Record CacheEntry : Type := mkEntry {
  count : Z;
  timestamp : Z;
}.

(** The three [useState] cells of one hook instance. *)
Record HookState : Type := mkHook {
  hookCount : Z;
  isLoading : bool;
  error : option string;
}.

(** The cells of the instance, the module-level [countCache] that every
    instance shares, and the requests sent so far, oldest first. *)
Record World : Type := mkWorld {
  hook : HookState;
  countCache : gmap string CacheEntry;
  requests : list HttpRequest;
}.

Definition initialHook : HookState := mkHook 0 false None.

Definition setHook (f : HookState -> HookState) : M World unit :=
  modify (fun w => mkWorld (f (hook w)) (countCache w) (requests w)).

Definition setCount (v : Z) : M World unit :=
  setHook (fun h => mkHook v (isLoading h) (error h)).

Definition setIsLoading (v : bool) : M World unit :=
  setHook (fun h => mkHook (hookCount h) v (error h)).

Definition setError (v : option string) : M World unit :=
  setHook (fun h => mkHook (hookCount h) (isLoading h) v).

(** [countCache.get(key)] *)
Definition cacheGet (key : string) : M World (option CacheEntry) :=
  gets (fun w => countCache w !! key).

(** [countCache.set(key, entry)] *)
Definition cacheSet (key : string) (entry : CacheEntry) : M World unit :=
  modify (fun w => mkWorld (hook w) (<[key := entry]> (countCache w)) (requests w)).

(** [countCache.delete(key)] *)
Definition cacheDelete (key : string) : M World unit :=
  modify (fun w => mkWorld (hook w) (delete key (countCache w)) (requests w)).

Definition fetch (request : HttpRequest) : M World unit :=
  modify (fun w => mkWorld (hook w) (countCache w) (requests w ++ [request])).

Section Hook.

Variable config : RestockBridgeConfig.t.
Variable options : UseWaitlistCountOptions.

Definition cacheDurationOrDefault : Z := default 60000 (cacheDuration options).

(** [`${config.shopDomain}:${numericId}`] *)
Definition cacheKey : string :=
  RestockBridgeConfig.shopDomain config +:+ ":"
  +:+ extractNumericId (variantId options).

Definition countUrl : string :=
  RestockBridgeConfig.apiUrl config +:+ API_ENDPOINTS.count +:+ "/"
  +:+ extractNumericId (variantId options) +:+ "?shop="
  +:+ encodeURIComponent (RestockBridgeConfig.shopDomain config).

(** The request of [fetchCount]. *)
Definition countRequest : HttpRequest :=
  mkRequest "GET" countUrl None
    (authorizationHeader (RestockBridgeConfig.apiKey config)) None.

(** The cache test of [fetchCount],
    [cached && Date.now() - cached.timestamp < cacheDuration], as a lookup:
    the cached count when the test succeeds. *)
Definition cacheHit (now : Z) (cache : gmap string CacheEntry) : option Z :=
  match cache !! cacheKey with
  | Some entry =>
      if now - timestamp entry <? cacheDurationOrDefault
      then Some (count entry) else None
  | None => None
  end.

(** [fetchCount], up to [await fetch(...)], with [now] the value of
    [Date.now()] in the cache check: either the call has returned (left)
    or a request is in flight (right). *)
Definition fetchCount_begin (now : Z) : M World (unit + HttpRequest) :=
  let send : M World (unit + HttpRequest) :=
    setIsLoading true ;;
    setError None ;;
    fetch countRequest ;;
    ret (inr countRequest) in
  cached <- cacheGet cacheKey ;;
  match cached with
  | Some entry =>
      if now - timestamp entry <? cacheDurationOrDefault then
        setCount (count entry) ;;
        ret (inl tt)
      else send
  | None => send
  end.

(** The rest of the [try] block, with [now] the value of [Date.now()] when
    the cache is written. *)
Definition fetchCount_try (now : Z) (o : FetchOutcome WaitlistCountResponse.t)
  : M World unit :=
  match o with
  | Rejected e => throw e
  | Response status json =>
      if negb (ok status) then
        if status =? 404 then
          setCount 0 ;;
          cacheSet cacheKey (mkEntry 0 now) ;;
          ret tt
        else throw (JsError "Failed to fetch waitlist count")
      else
        result <- await json ;;
        setCount (WaitlistCountResponse.count result) ;;
        cacheSet cacheKey (mkEntry (WaitlistCountResponse.count result) now)
  end.

Definition fetchCount_resume (now : Z) (o : FetchOutcome WaitlistCountResponse.t)
  : M World unit :=
  finally
    (try_catch (fetchCount_try now o)
       (fun err =>
          let errorMsg :=
            match err with
            | JsError message => message
            | JsOther => "Failed to fetch count"
            end in
          setError (Some errorMsg) ;;
          setCount 0))
    (setIsLoading false).

(** [fetchCount] run to its return: called at [now], against a transport
    that settles the request at once, the cache being written at [now']. *)
Definition fetchCount
    (net : HttpRequest -> FetchOutcome WaitlistCountResponse.t)
    (now now' : Z) : M World unit :=
  r <- fetchCount_begin now ;;
  match r with
  | inl _ => ret tt
  | inr req => fetchCount_resume now' (net req)
  end.

(** [refetch], up to the [await fetch(...)] inside [fetchCount]. *)
Definition refetch_begin (now : Z) : M World (unit + HttpRequest) :=
  cacheDelete cacheKey ;;
  fetchCount_begin now.

Definition refetch
    (net : HttpRequest -> FetchOutcome WaitlistCountResponse.t)
    (now now' : Z) : M World unit :=
  r <- refetch_begin now ;;
  match r with
  | inl _ => ret tt
  | inr req => fetchCount_resume now' (net req)
  end.

(** The effect that runs when the hook mounts:
    [if (autoFetch && variantId) void fetchCount()]. *)
Definition onMount_begin (now : Z) : M World (unit + HttpRequest) :=
  if default true (autoFetch options)
     && negb (bool_decide (variantId options = ""))
  then fetchCount_begin now
  else ret (inl tt).

End Hook.

End WaitlistCount.

(* ===================================================================== *)
(** * A storefront used in the examples *)
(* ===================================================================== *)

Module Storefront.

Definition config : RestockBridgeConfig.t :=
  RestockBridgeConfig.mk "https://restockbridge.temperedtools.xyz"
    "my-store.myshopify.com" None.

Definition variant : VariantInfo.t :=
  VariantInfo.mk "gid://shopify/ProductVariant/123" "gid://shopify/Product/7"
    "Boots" (Some "Size 9") false (Some 0) None None.

(** Callbacks that return. *)
Definition options : Waitlist.UseWaitlistOptions :=
  Waitlist.mkOptions variant
    (Some Waitlist.returns) (Some Waitlist.returns)
    (Some Waitlist.returns) (Some Waitlist.returns).

(** An error callback that throws, as one that reports the message through
    a component that is gone would. *)
Definition boom : thrown := JsError "boom".

Definition throwingOptions : Waitlist.UseWaitlistOptions :=
  Waitlist.mkOptions variant
    (Some (Waitlist.throws boom)) (Some (Waitlist.throws boom))
    (Some (Waitlist.throws boom)) (Some (Waitlist.throws boom)).

(** A backend that answers every join with [{success: true, message: "ok"}]. *)
Definition joinOk (_ : HttpRequest) : FetchOutcome JoinWaitlistResponse.t :=
  Response 200 (inr (JoinWaitlistResponse.mk true None (Some "ok") None)).

(** A backend that answers every join with [{success: false}]. *)
Definition joinRefused (_ : HttpRequest) : FetchOutcome JoinWaitlistResponse.t :=
  Response 200 (inr (JoinWaitlistResponse.mk false None None None)).

Definition countOptions : WaitlistCount.UseWaitlistCountOptions :=
  WaitlistCount.mkOptions "gid://shopify/ProductVariant/123" None None.

Definition countWorld : WaitlistCount.World :=
  WaitlistCount.mkWorld WaitlistCount.initialHook ∅ [].

End Storefront.

(* ===================================================================== *)
(** * The rest of the package *)
(* ===================================================================== *)

(** ** validation.ts: identifiers *)

Module ValidationIds.
Import Regex JsString.

(** The regular expression that matches one literal string. *)
Fixpoint lit (s : string) : re :=
  match s with
  | EmptyString => Eps
  | String c s' => Seq (Cls (isChar c)) (lit s')
  end.

(** [/^\d+$/] *)
Definition numericRegex : re := Plus (Cls isDigit).

(** [/^gid:\/\/shopify\/ProductVariant\/\d+$/] *)
Definition variantGidRegex : re :=
  Seq (lit "gid://shopify/ProductVariant/") (Plus (Cls isDigit)).

(** [/^gid:\/\/shopify\/Product\/\d+$/] *)
Definition productGidRegex : re :=
  Seq (lit "gid://shopify/Product/") (Plus (Cls isDigit)).

(** [isValidVariantId] *)
Definition isValidVariantId (variantId : string) : bool :=
  if bool_decide (variantId = "") then false
  else matches variantGidRegex variantId || matches numericRegex variantId.

(** [isValidProductId] *)
Definition isValidProductId (productId : string) : bool :=
  if bool_decide (productId = "") then false
  else matches productGidRegex productId || matches numericRegex productId.

(** [A]-[Z] *)
Definition isAsciiUpper (c : ascii) : bool :=
  let n := code c in (65 <=? n) && (n <=? 90).

(** Every character class of [r] gives [f c] the verdict it gives [c]. *)
Fixpoint classes_respect (f : ascii -> ascii) (r : re) : Prop :=
  match r with
  | Empty | Eps => True
  | Cls p => forall c, p (f c) = p c
  | Seq r1 r2 | Alt r1 r2 => classes_respect f r1 /\ classes_respect f r2
  | Star r1 => classes_respect f r1
  end.

End ValidationIds.

(** ** useWaitlist: what a call did *)

Module WaitlistLog.
Import Waitlist.

(** The callback invocations of an effect log, in order. *)
Definition callbacks (l : list Effect) : list Effect :=
  List.filter (fun e => negb (isFetch e)) l.

End WaitlistLog.

(** ** useWaitlistCount: what a settled request writes *)

Module WaitlistCountLog.

(** The count that [fetchCount] stores in the cache when its request
    settles as [o]: 0 for a 404, the count of the body for a 2xx response
    whose body parses, nothing otherwise. *)
Definition cacheWrite (o : FetchOutcome WaitlistCountResponse.t) : option Z :=
  match o with
  | Rejected _ => None
  | Response status json =>
      if negb (ok status) then (if status =? 404 then Some 0 else None)
      else match json with
           | inr result => Some (WaitlistCountResponse.count result)
           | inl _ => None
           end
  end.

(** The message that the [catch] clause of [fetchCount] stores when the
    request settles as [o] without writing the cache. *)
Definition failureMessage (o : FetchOutcome WaitlistCountResponse.t) : string :=
  let ofThrown e :=
    match e with
    | JsError message => message
    | JsOther => "Failed to fetch count"
    end in
  match o with
  | Rejected e => ofThrown e
  | Response status json =>
      if negb (ok status) then "Failed to fetch waitlist count"
      else match json with
           | inl e => ofThrown e
           | inr _ => ""
           end
  end.

End WaitlistCountLog.

(** ** components/WaitlistCount.tsx *)

Module WaitlistCountComponent.
Import JsString.

(** [`${n}`] for a safe integer (magnitude at most 2^53 - 1), which
    JavaScript writes with all its decimal digits.  Beyond that a number
    is written with the digits that identify the double, padded with
    zeros, and from 10^21 on in exponent notation; both are outside the
    model. *)
Definition toString (n : Z) : string :=
  DecimalString.NilZero.string_of_int (Z.to_int n).

Section Component.

(** What a render function of the host returns. *)
Variable Node : Type.

Record WaitlistCountProps : Type := mkProps {
  variantId : string;
  minCount : option Z;
  formatText : option (Z -> string);
  className : option string;
  children : option (Z -> bool -> Node);
}.

(** What the component returns: the fragment around the host's own
    content, [null], or the [span] with its class, label and text. *)
Inductive Rendered : Type :=
| Fragment (content : Node)
| Null
| Span (className : option string) (ariaLabel : string) (text : string).

(** The options the component gives to [useWaitlistCount]. *)
Definition hookOptions (props : WaitlistCountProps)
  : WaitlistCount.UseWaitlistCountOptions :=
  WaitlistCount.mkOptions (variantId props) (Some true) None.

Definition defaultFormat (n : Z) : string :=
  toString n +:+ " " +:+ (if n =? 1 then "person" else "people") +:+ " waiting".

(** The component, given the cells of its [useWaitlistCount]. *)
Definition WaitlistCount (props : WaitlistCountProps)
    (hook : WaitlistCount.HookState) : Rendered :=
  let count := WaitlistCount.hookCount hook in
  let isLoading := WaitlistCount.isLoading hook in
  match children props with
  | Some render => Fragment (render count isLoading)
  | None =>
      if isLoading || (count <? default 1 (minCount props)) then Null
      else
        let text :=
          match formatText props with
          | Some format => format count
          | None => defaultFormat count
          end in
        Span (className props) text text
  end.

End Component.

Arguments mkProps {Node} _ _ _ _ _.
Arguments variantId {Node} _.
Arguments minCount {Node} _.
Arguments formatText {Node} _.
Arguments className {Node} _.
Arguments children {Node} _.
Arguments Fragment {Node} _.
Arguments Null {Node}.
Arguments Span {Node} _ _ _.
Arguments hookOptions {Node} _.
Arguments WaitlistCount {Node} _ _.

End WaitlistCountComponent.

(** ** components/NotifyMeButton.tsx *)

Module NotifyMeButton.
Import Js.

(** The props that decide what the component does; the class names only
    decorate the elements.  A render prop is a function of the host: the
    model records whether one was supplied.  [onSuccess] and [onError] are
    handed to the hook as they are. *)
Record NotifyMeButtonProps : Type := mkProps {
  variant : VariantInfo.t;
  buttonText : option string;
  submitText : option string;
  loadingText : option string;
  placeholder : option string;
  successMessage : option string;
  inline : option bool;
  onSuccess : option (Waitlist.Callback JoinWaitlistResponse.t);
  onError : option (Waitlist.Callback string);
  renderButton : bool;
  renderSuccess : bool;
}.

(** The [useState] cell of the component and the world of its
    [useWaitlist]. *)
Record State : Type := mkState {
  isExpanded : bool;
  waitlist : Waitlist.World;
}.

(** The options the component gives to [useWaitlist]: no leave callbacks. *)
Definition hookOptions (props : NotifyMeButtonProps) : Waitlist.UseWaitlistOptions :=
  Waitlist.mkOptions (variant props) (onSuccess props) (onError props) None None.

Definition initialState (props : NotifyMeButtonProps) : State :=
  mkState (default false (inline props)) Waitlist.initialWorld.

(** What is on screen: the success state (the host's own when
    [renderSuccess] is supplied), the collapsed button (the host's own when
    [renderButton] is supplied), or the form with its input, its submit
    button and, under them, the alert. *)
Inductive View : Type :=
| SuccessView (custom : bool) (message : string)
| ButtonView (custom : bool) (text : string)
| FormView (value : string) (placeholder : string) (disabled : bool)
    (submitLabel : string) (alert : option string).

(** [error && <p role="alert">...</p>]: the empty string is falsy. *)
Definition alertOf (error : option string) : option string :=
  match error with
  | Some e => if bool_decide (e = "") then None else Some e
  | None => None
  end.

Definition render (props : NotifyMeButtonProps) (st : State) : View :=
  let s := Waitlist.state (waitlist st) in
  if WaitlistState.isJoined s then
    let message :=
      default
        (default "We'll email you when it's back in stock."
           (WaitlistState.successMessage s))
        (successMessage props) in
    SuccessView (renderSuccess props) message
  else if negb (isExpanded st) then
    ButtonView (renderButton props) (default "Notify Me" (buttonText props))
  else
    FormView (WaitlistState.email s)
      (default "Enter your email" (placeholder props))
      (WaitlistState.isJoining s)
      (if WaitlistState.isJoining s
       then default "Adding..." (loadingText props)
       else default "Notify Me" (submitText props))
      (alertOf (WaitlistState.error s)).

Section Component.

Variable config : RestockBridgeConfig.t.
Variable props : NotifyMeButtonProps.

(** [handleClick] *)
Definition handleClick (st : State) : State :=
  if negb (isExpanded st) then mkState true (waitlist st) else st.

(** The [onChange] of the input: [setEmail(e.target.value)]. *)
Definition handleChange (v : string) (st : State) : State :=
  mkState (isExpanded st) (Waitlist.setEmail v (waitlist st)).2.

(** [handleSubmit], run to its return: [await join(email)] with the email
    cell of the render that created the handler. *)
Definition handleSubmit
    (net : HttpRequest -> FetchOutcome JoinWaitlistResponse.t)
    (st : State) : State :=
  mkState (isExpanded st)
    (Waitlist.join config (hookOptions props) net
       (WaitlistState.email (Waitlist.state (waitlist st))) (waitlist st)).2.

(** [handleReset] *)
Definition handleReset (st : State) : State :=
  let w := (Waitlist.reset (waitlist st)).2 in
  if negb (default false (inline props)) then mkState false w
  else mkState (isExpanded st) w.

End Component.

End NotifyMeButton.

(* ===================================================================== *)
(** * Properties of the matcher *)
(* ===================================================================== *)

Module RegexFacts.
Import Regex.

Lemma append_nil_l (s : string) : "" +:+ s = s.
Proof. reflexivity. Qed.

Lemma append_cons (c : ascii) (s1 s2 : string) :
  String c s1 +:+ s2 = String c (s1 +:+ s2).
Proof. reflexivity. Qed.

Lemma append_empty_r (s : string) : s +:+ "" = s.
Proof.
  induction s as [|c s IH]; [reflexivity | now rewrite append_cons, IH].
Qed.

Lemma append_eq_empty (s1 s2 : string) :
  s1 +:+ s2 = "" -> s1 = "" /\ s2 = "".
Proof.
  destruct s1; [rewrite append_nil_l; auto | rewrite append_cons; discriminate].
Qed.

Lemma nullable_lang (r : re) : nullable r = true <-> lang r "".
Proof.
  induction r as [| |p|r1 IH1 r2 IH2|r1 IH1 r2 IH2|r1 IH1]; simpl.
  - split; [discriminate | inversion 1].
  - split; [constructor | reflexivity].
  - split; [discriminate | inversion 1].
  - rewrite andb_true_iff, IH1, IH2. split.
    + intros [H1 H2]. exact (lang_seq _ _ "" "" H1 H2).
    + inversion 1 as [| |? ? s1 s2 H1 H2 E1 E2| | | |]; subst.
      apply append_eq_empty in E2 as [-> ->]. auto.
  - rewrite orb_true_iff, IH1, IH2. split.
    + intros [H|H]; [now apply lang_alt_l | now apply lang_alt_r].
    + inversion 1; subst; auto.
  - split; [constructor | reflexivity].
Qed.

Lemma deriv_sound (c : ascii) (r : re) :
  forall s, lang (deriv c r) s -> lang r (String c s).
Proof.
  induction r as [| |p|r1 IH1 r2 IH2|r1 IH1 r2 IH2|r1 IH1]; simpl; intros s H.
  - inversion H.
  - inversion H.
  - destruct (p c) eqn:Hp; inversion H; subst. now constructor.
  - destruct (nullable r1) eqn:Hn.
    + inversion H as [| | |? ? ? H1|? ? ? H1| |]; subst.
      * inversion H1 as [| |? ? s1 s2 Ha Hb| | | |]; subst.
        exact (lang_seq _ _ (String c s1) s2 (IH1 _ Ha) Hb).
      * apply nullable_lang in Hn.
        exact (lang_seq _ _ "" (String c s) Hn (IH2 _ H1)).
    + inversion H as [| |? ? s1 s2 Ha Hb| | | |]; subst.
      exact (lang_seq _ _ (String c s1) s2 (IH1 _ Ha) Hb).
  - inversion H; subst; [apply lang_alt_l | apply lang_alt_r]; auto.
  - inversion H as [| |? ? s1 s2 Ha Hb| | | |]; subst.
    exact (lang_star_cons _ (String c s1) s2 (IH1 _ Ha) Hb).
Qed.

Lemma deriv_complete (c : ascii) (r : re) (s0 : string) :
  lang r s0 -> forall s, s0 = String c s -> lang (deriv c r) s.
Proof.
  induction 1 as [|p a Hp|r1 r2 s1 s2 H1 IH1 H2 IH2|r1 r2 s0 H IH
                 |r1 r2 s0 H IH|r1|r1 s1 s2 H1 IH1 H2 IH2];
    intros s E; simpl.
  - discriminate.
  - injection E as -> <-. rewrite Hp. constructor.
  - destruct s1 as [|a s1']; [rewrite append_nil_l in E | rewrite append_cons in E].
    + subst s2. apply nullable_lang in H1. rewrite H1.
      apply lang_alt_r. now apply IH2.
    + injection E as -> <-.
      specialize (IH1 _ eq_refl).
      destruct (nullable r1).
      * apply lang_alt_l. now constructor.
      * now constructor.
  - apply lang_alt_l. now apply IH.
  - apply lang_alt_r. now apply IH.
  - discriminate.
  - destruct s1 as [|a s1']; [rewrite append_nil_l in E | rewrite append_cons in E].
    + subst s2. now apply IH2.
    + injection E as -> <-. constructor; [now apply IH1 | assumption].
Qed.

Theorem matches_lang (s : string) :
  forall r, matches r s = true <-> lang r s.
Proof.
  induction s as [|c s IH]; intros r; simpl.
  - apply nullable_lang.
  - rewrite IH. split.
    + apply deriv_sound.
    + intros H. now apply (deriv_complete c r (String c s)).
Qed.

Lemma void_deriv (c : ascii) (r : re) : void r = true -> void (deriv c r) = true.
Proof.
  induction r as [| |p|r1 IH1 r2 IH2|r1 IH1 r2 IH2|r1 IH1]; simpl;
    try discriminate; auto.
  - rewrite orb_true_iff. intros [H|H].
    + destruct (nullable r1) eqn:Hn; simpl; rewrite (IH1 H); simpl.
      * assert (Hf : nullable r1 = false).
        { clear -H. induction r1; simpl in *; try discriminate; auto.
          - apply orb_true_iff in H as [H|H];
              [rewrite (IHr1_1 H) | rewrite (IHr1_2 H)];
              [reflexivity | apply andb_false_r].
          - apply andb_true_iff in H as [Ha Hb].
            now rewrite (IHr1_1 Ha), (IHr1_2 Hb). }
        congruence.
      * reflexivity.
    + destruct (nullable r1); simpl; rewrite ?(IH2 H), ?H;
        rewrite ?orb_true_r; reflexivity.
  - rewrite andb_true_iff. intros [Ha Hb]. now rewrite (IH1 Ha), (IH2 Hb).
Qed.

Lemma void_not_nullable (r : re) : void r = true -> nullable r = false.
Proof.
  induction r as [| |p|r1 IH1 r2 IH2|r1 IH1 r2 IH2|r1 IH1]; simpl;
    try discriminate; auto.
  - rewrite orb_true_iff. intros [H|H];
      [rewrite (IH1 H) | rewrite (IH2 H)];
      [reflexivity | apply andb_false_r].
  - rewrite andb_true_iff. intros [Ha Hb]. now rewrite (IH1 Ha), (IH2 Hb).
Qed.

Lemma void_matches (s : string) :
  forall r, void r = true -> matches r s = false.
Proof.
  induction s as [|c s IH]; intros r H; simpl.
  - now apply void_not_nullable.
  - apply IH. now apply void_deriv.
Qed.

Lemma matches_dead_prefix (p : string) :
  forall r s, void (derivs p r) = true -> matches r (p +:+ s) = false.
Proof.
  induction p as [|c p IH]; intros r s H.
  - rewrite append_nil_l. now apply void_matches.
  - rewrite append_cons. simpl. now apply IH.
Qed.

Lemma search_dead_prefix (r : re) (p : string) :
  forall s, dead_on r p = true ->
    search_to_end r (p +:+ s) = search_to_end r s.
Proof.
  induction p as [|c p IH]; intros s H.
  - now rewrite append_nil_l.
  - simpl in H. apply andb_true_iff in H as [Hv Hd].
    pose proof (matches_dead_prefix (String c p) r s Hv) as Hm.
    rewrite append_cons in *.
    change (search_to_end r (String c (p +:+ s)))
      with (if matches r (String c (p +:+ s))
            then Some (String c (p +:+ s))
            else search_to_end r (p +:+ s)).
    rewrite Hm. now apply IH.
Qed.

End RegexFacts.

(* ===================================================================== *)
(** * validation.ts: the numeric identifier of a variant *)
(* ===================================================================== *)

Module ValidationFacts.
Import Regex RegexFacts JsString Validation.

Lemma digits_star (s : string) :
  allDigits s = true -> lang (Star (Cls isDigit)) s.
Proof.
  induction s as [|c s IH]; simpl; intros H.
  - constructor.
  - apply andb_true_iff in H as [Hc Hs].
    exact (lang_star_cons _ (String c "") s (lang_cls _ _ Hc) (IH Hs)).
Qed.

Lemma digits_plus (s : string) :
  s <> "" -> allDigits s = true -> lang (Plus (Cls isDigit)) s.
Proof.
  destruct s as [|c s]; [congruence|]. simpl. intros _ H.
  apply andb_true_iff in H as [Hc Hs].
  exact (lang_seq _ _ (String c "") s (lang_cls _ _ Hc) (digits_star _ Hs)).
Qed.

Lemma digit_not_slash (c : ascii) : isDigit c = true -> isChar "/" c = false.
Proof.
  intros H. unfold isChar. case_bool_decide as E; [|reflexivity].
  subst c. vm_compute in H. discriminate.
Qed.

Lemma numericTail_needs_slash (c : ascii) (s : string) :
  isChar "/" c = false -> matches numericTail (String c s) = false.
Proof.
  intros H. simpl. rewrite H. apply void_matches. reflexivity.
Qed.

Lemma search_digits_none (s : string) :
  allDigits s = true -> search_to_end numericTail s = None.
Proof.
  induction s as [|c s IH]; intros H.
  - reflexivity.
  - simpl in H. apply andb_true_iff in H as [Hc Hs].
    change (search_to_end numericTail (String c s))
      with (if matches numericTail (String c s)
            then Some (String c s)
            else search_to_end numericTail s).
    rewrite (numericTail_needs_slash c s (digit_not_slash c Hc)).
    now apply IH.
Qed.

Lemma search_slash_digits (N : string) :
  N <> "" -> allDigits N = true ->
  search_to_end numericTail (String "/" N) = Some (String "/" N).
Proof.
  intros Hne Hd.
  assert (Hm : matches numericTail (String "/" N) = true).
  { apply matches_lang.
    exact (lang_seq _ _ (String "/" "") N
             (lang_cls (isChar "/") "/" eq_refl) (digits_plus N Hne Hd)). }
  destruct N as [|c N]; [congruence|].
  unfold search_to_end; fold search_to_end. now rewrite Hm.
Qed.

(** Both forms of a variant identifier have the same numeric identifier. *)
Lemma extractNumericId_gid (N : string) :
  N <> "" -> allDigits N = true ->
  extractNumericId ("gid://shopify/ProductVariant/" +:+ N) = N.
Proof.
  intros Hne Hd. unfold extractNumericId.
  rewrite bool_decide_eq_false_2 by (rewrite append_cons; discriminate).
  change ("gid://shopify/ProductVariant/" +:+ N)
    with ("gid://shopify/ProductVariant" +:+ String "/" N).
  rewrite search_dead_prefix by (vm_compute; reflexivity).
  now rewrite search_slash_digits.
Qed.

Lemma extractNumericId_bare (N : string) :
  allDigits N = true -> extractNumericId N = N.
Proof.
  intros Hd. unfold extractNumericId.
  case_bool_decide as E; [now subst|].
  now rewrite search_digits_none.
Qed.

(** ** The shape of a valid email *)

Lemma lang_star_cls (p : ascii -> bool) (s : string) :
  lang (Star (Cls p)) s <-> all_chars p s = true.
Proof.
  split.
  - intros H. remember (Star (Cls p)) as r eqn:Er.
    induction H as [| | | | | |r0 s1 s2 H1 _ H2 IH2]; try discriminate.
    + reflexivity.
    + injection Er as ->. inversion H1; subst.
      rewrite append_cons, append_nil_l. simpl.
      apply andb_true_iff. split; [assumption | now apply IH2].
  - induction s as [|c s IH]; simpl; intros H.
    + constructor.
    + apply andb_true_iff in H as [Hc Hs].
      exact (lang_star_cons _ (String c "") s (lang_cls _ _ Hc) (IH Hs)).
Qed.

Lemma lang_plus_cls (p : ascii -> bool) (s : string) :
  lang (Plus (Cls p)) s <-> s <> "" /\ all_chars p s = true.
Proof.
  split.
  - inversion 1 as [| |? ? s1 s2 H1 H2| | | |]; subst.
    inversion H1; subst. rewrite append_cons, append_nil_l.
    apply lang_star_cls in H2. simpl. split; [discriminate|].
    apply andb_true_iff. now split.
  - intros [Hne H]. destruct s as [|c s]; [congruence|].
    simpl in H. apply andb_true_iff in H as [Hc Hs].
    exact (lang_seq _ _ (String c "") s (lang_cls _ _ Hc)
             (proj2 (lang_star_cls p s) Hs)).
Qed.

Lemma lang_char (a : ascii) (s : string) :
  lang (Cls (isChar a)) s <-> s = String a "".
Proof.
  split.
  - inversion 1 as [|? c Hc| | | | |]; subst.
    unfold isChar in Hc. apply bool_decide_eq_true in Hc. now subst.
  - intros ->. constructor. unfold isChar. now apply bool_decide_eq_true.
Qed.

Lemma emailRegex_shape (s : string) :
  matches emailRegex s = true <->
  exists localPart domain tld,
    s = localPart +:+ "@" +:+ domain +:+ "." +:+ tld
    /\ localPart <> "" /\ domain <> "" /\ tld <> ""
    /\ all_chars notSpaceNorAt localPart = true
    /\ all_chars notSpaceNorAt domain = true
    /\ all_chars notSpaceNorAt tld = true.
Proof.
  rewrite matches_lang. unfold emailRegex. split.
  - inversion 1 as [| |? ? l s1 Hl H1| | | |]; subst.
    inversion H1 as [| |? ? a s2 Ha H2| | | |]; subst.
    inversion H2 as [| |? ? d s3 Hd H3| | | |]; subst.
    inversion H3 as [| |? ? b t Hb Ht| | | |]; subst.
    apply lang_char in Ha, Hb. subst a b.
    apply lang_plus_cls in Hl as [? ?], Hd as [? ?], Ht as [? ?].
    exists l, d, t. repeat apply conj; auto.
  - intros (l & d & t & -> & Hl & Hd & Ht & Al & Ad & At).
    apply lang_seq; [now apply lang_plus_cls|].
    apply (lang_seq _ _ "@"); [now apply lang_char|].
    apply lang_seq; [now apply lang_plus_cls|].
    apply (lang_seq _ _ "."); [now apply lang_char|].
    now apply lang_plus_cls.
Qed.

(** X1.  [isValidEmail] accepts exactly the non-empty strings that, once
    trimmed, read [local@domain.tld]: three non-empty parts without white
    space and without ["@"], joined by one ["@"] and one ["."]. *)
Theorem isValidEmail_shape (email : string) :
  isValidEmail email = true <->
  email <> ""
  /\ exists localPart domain tld,
       trim email = localPart +:+ "@" +:+ domain +:+ "." +:+ tld
       /\ localPart <> "" /\ domain <> "" /\ tld <> ""
       /\ all_chars notSpaceNorAt localPart = true
       /\ all_chars notSpaceNorAt domain = true
       /\ all_chars notSpaceNorAt tld = true.
Proof.
  unfold isValidEmail. case_bool_decide as E.
  - split; [discriminate | intros [? _]; contradiction].
  - rewrite emailRegex_shape. split; [intros H; now split | now intros [_ H]].
Qed.

Lemma length_slice0 (n : nat) :
  forall s, (String.length (slice0 n s) <= n)%nat.
Proof.
  unfold slice0. induction n as [|n IH]; intros [|c s]; simpl; try lia.
  specialize (IH s). lia.
Qed.

Lemma all_chars_slice0 (p : ascii -> bool) (n : nat) :
  forall s, all_chars p s = true -> all_chars p (slice0 n s) = true.
Proof.
  unfold slice0. induction n as [|n IH]; intros [|c s]; simpl; auto.
  intros H. apply andb_true_iff in H as [Hc Hs].
  apply andb_true_iff. split; [assumption | now apply IH].
Qed.

Lemma all_chars_filter (keep : ascii -> bool) (s : string) :
  all_chars keep (filter_chars keep s) = true.
Proof.
  induction s as [|c s IH]; simpl; [reflexivity|].
  destruct (keep c) eqn:H; simpl; [now rewrite H | assumption].
Qed.

(** X2.  [sanitizeInput] returns at most 500 characters, none of which is
    an angle bracket. *)
Theorem sanitizeInput_bounds (input : string) :
  (String.length (sanitizeInput input) <= 500)%nat
  /\ all_chars (fun c => negb (isChar "<" c || isChar ">" c))
       (sanitizeInput input) = true.
Proof.
  unfold sanitizeInput. case_bool_decide as E.
  - split; [simpl; lia | reflexivity].
  - split; [apply length_slice0 |].
    apply all_chars_slice0, all_chars_filter.
Qed.

End ValidationFacts.

(* ===================================================================== *)
(** * The availability classifier *)
(* ===================================================================== *)

Module VariantAvailabilityFacts.
Import VariantAvailability.

(** C8.  Without a variant the classifier answers [out_of_stock] and does
    not show notify-me.  For every variant and every threshold (given or
    defaulted): the status is [out_of_stock] when the variant is not
    available for sale, [preorder] when it is available for sale with a
    tracked quantity of exactly 0, and [available] otherwise; [isLowStock]
    holds exactly when the variant is available for sale and its quantity is
    defined, greater than 0 and at most the threshold; and [showNotifyMe]
    equals [isOutOfStock], so that a [preorder] status never shows
    notify-me. *)
Theorem classifier_correct :
  (forall threshold,
     let r := useVariantAvailability (mkOptions None threshold) in
     status r = out_of_stock /\ showNotifyMe r = false
     /\ isAvailable r = false /\ isOutOfStock r = true /\ isLowStock r = false)
  /\
  (forall (v : VariantInfo.t) (threshold : option Z),
     let r := useVariantAvailability (mkOptions (Some v) threshold) in
     let sale := VariantInfo.availableForSale v in
     let qty := VariantInfo.quantityAvailable v in
     (sale = false -> status r = out_of_stock)
     /\ (sale = true -> qty = Some 0 -> status r = preorder)
     /\ (sale = true -> qty <> Some 0 -> status r = available)
     /\ (isLowStock r = true <->
         sale = true /\ exists q, qty = Some q /\ 0 < q /\ q <= default 5 threshold)
     /\ showNotifyMe r = isOutOfStock r
     /\ isOutOfStock r = negb sale
     /\ isAvailable r = sale
     /\ (status r = preorder -> showNotifyMe r = false)).
Proof.
  split.
  - intros threshold. simpl. repeat apply conj; reflexivity.
  - intros v threshold.
    destruct v as [i p t vt sale qty pr im]. simpl.
    repeat apply conj; try reflexivity.
    + intros ->. reflexivity.
    + intros -> ->. reflexivity.
    + intros -> Hq. simpl. destruct qty as [q|]; [|reflexivity].
      destruct (Z.eqb_spec q 0) as [->|]; [congruence | reflexivity].
    + intros H. apply andb_true_iff in H as [Hs Hq].
      destruct qty as [q|]; [|discriminate].
      apply andb_true_iff in Hq as [H1 H2].
      split; [assumption|]. exists q. split; [reflexivity|]. lia.
    + intros [-> [q [-> [H1 H2]]]]. simpl.
      apply andb_true_iff. split; lia.
    + destruct sale; simpl; intros H; [reflexivity | discriminate].
Qed.

(** The examples of the specification. *)
Example classify_preorder :
  let r := useVariantAvailability
             (mkOptions (Some (VariantInfo.mk "1" "2" "T" None true (Some 0) None None)) None) in
  status r = preorder /\ showNotifyMe r = false.
Proof. split; reflexivity. Qed.

Example classify_low_stock :
  isLowStock (useVariantAvailability
    (mkOptions (Some (VariantInfo.mk "1" "2" "T" None true (Some 3) None None)) (Some 5)))
  = true.
Proof. reflexivity. Qed.

Lemma classifier_correct_witness :
  let v := VariantInfo.mk "1" "2" "T" None true (Some 0) None None in
  let r := useVariantAvailability (mkOptions (Some v) None) in
  status r = preorder /\ showNotifyMe r = false /\ isLowStock r = false.
Proof.
  intros v r.
  destruct (proj2 classifier_correct v None)
    as (_ & Hpre & _ & _ & Hnotify & _ & _ & Hshow).
  split; [exact (Hpre eq_refl eq_refl) | split].
  - exact (Hshow (Hpre eq_refl eq_refl)).
  - reflexivity.
Defined.

End VariantAvailabilityFacts.

(* ===================================================================== *)
(** * useWaitlist: join, leave and reset *)
(* ===================================================================== *)

Module WaitlistFacts.
Import Js JsString Validation Constants Waitlist.

(** Runs a computation of the hook on a world that is given, as far as the
    callbacks allow. *)
Ltac js_run :=
  cbv beta iota zeta delta
    [bind gets modify ret throw try_catch finally await optional_call perform
     fetch setState setEmail setIsJoining setIsLeaving setIsJoined setError
     setSuccessMessage effects state fst snd negb orb andb
     JoinWaitlistResponse.success JoinWaitlistResponse.message
     JoinWaitlistResponse.error LeaveWaitlistResponse.success
     LeaveWaitlistResponse.message LeaveWaitlistResponse.error] in *.

(** Case analysis on the callbacks: whether each was supplied and, at each
    invocation, whether it returns. *)
Ltac settle :=
  unfold returnAfter, thrownBy, invoked in *;
  js_run;
  repeat match goal with
         | H : ?f ?log ?a = _ |- context [?f ?log ?a] =>
             match type of f with
             | Callback _ => rewrite H; js_run
             end
         | |- context [match ?f ?log ?a with _ => _ end] =>
             match type of f with
             | Callback _ => destruct (f log a) eqn:?; js_run
             end
         end;
  rewrite ?app_nil_r, <- ?app_assoc;
  try reflexivity; try discriminate.

Section Hook.

Variable config : RestockBridgeConfig.t.
Variable options : UseWaitlistOptions.

Lemma join_begin_invalid (emailInput : string) (w : World) :
  isValidEmail (cleaned emailInput) = false ->
  join_begin config options emailInput w =
    (returnAfter (onJoinError options) (effects w)
       DEFAULT_ERROR_MESSAGES.invalidEmail
       (inl (JoinWaitlistResponse.failure DEFAULT_ERROR_MESSAGES.invalidEmail)),
     mkWorld
       (WaitlistState.set_error (Some DEFAULT_ERROR_MESSAGES.invalidEmail) (state w))
       (effects w ++
          invoked (onJoinError options)
            (OnJoinError DEFAULT_ERROR_MESSAGES.invalidEmail))).
Proof.
  intros H. unfold join_begin. rewrite H. destruct w as [s l].
  destruct (onJoinError options) as [f|]; settle.
Qed.

Lemma join_begin_valid (emailInput : string) (w : World) :
  isValidEmail (cleaned emailInput) = true ->
  join_begin config options emailInput w =
    (Normal (inr (joinRequest config options (cleaned emailInput))),
     mkWorld
       (WaitlistState.set_successMessage None
          (WaitlistState.set_error None
             (WaitlistState.set_isJoining true (state w))))
       (effects w ++ [Fetch (joinRequest config options (cleaned emailInput))])).
Proof.
  intros H. unfold join_begin. rewrite H. destruct w as [s l]. reflexivity.
Qed.

Lemma leave_begin_invalid (emailInput : string) (w : World) :
  isValidEmail (cleaned emailInput) = false ->
  leave_begin config options emailInput w =
    (returnAfter (onLeaveError options) (effects w)
       DEFAULT_ERROR_MESSAGES.invalidEmail
       (inl (LeaveWaitlistResponse.failure DEFAULT_ERROR_MESSAGES.invalidEmail)),
     mkWorld
       (WaitlistState.set_error (Some DEFAULT_ERROR_MESSAGES.invalidEmail) (state w))
       (effects w ++
          invoked (onLeaveError options)
            (OnLeaveError DEFAULT_ERROR_MESSAGES.invalidEmail))).
Proof.
  intros H. unfold leave_begin. rewrite H. destruct w as [s l].
  destruct (onLeaveError options) as [f|]; settle.
Qed.

Lemma leave_begin_valid (emailInput : string) (w : World) :
  isValidEmail (cleaned emailInput) = true ->
  leave_begin config options emailInput w =
    (Normal (inr (leaveRequest config options (cleaned emailInput))),
     mkWorld
       (WaitlistState.set_successMessage None
          (WaitlistState.set_error None
             (WaitlistState.set_isLeaving true (state w))))
       (effects w ++ [Fetch (leaveRequest config options (cleaned emailInput))])).
Proof.
  intros H. unfold leave_begin. rewrite H. destruct w as [s l]. reflexivity.
Qed.

(** ** The ways a request of [join] settles *)

(** No response, or a body that does not parse: the [catch] clause. *)
Lemma join_resume_transport (o : FetchOutcome JoinWaitlistResponse.t) (w : World) :
  joinTransportFailure o = true ->
  join_resume options o w =
    (returnAfter (onJoinError options) (effects w) DEFAULT_ERROR_MESSAGES.network
       (JoinWaitlistResponse.failure DEFAULT_ERROR_MESSAGES.network),
     mkWorld
       (WaitlistState.set_isJoining false
          (WaitlistState.set_error (Some DEFAULT_ERROR_MESSAGES.network) (state w)))
       (effects w ++
          invoked (onJoinError options)
            (OnJoinError DEFAULT_ERROR_MESSAGES.network))).
Proof.
  destruct w as [s l]. unfold join_resume, join_try.
  destruct o as [e|status [e|result]]; simpl; intros H; try discriminate.
  - destruct (onJoinError options) as [f|]; settle.
  - apply negb_true_iff in H. rewrite H.
    destruct (onJoinError options) as [f|]; settle.
Qed.

(** A response that [join] answers inside the [try] block with an error
    message, when the error callback returns. *)
Lemma join_resume_refused (o : FetchOutcome JoinWaitlistResponse.t) (w : World) :
  joinSucceeded o = false ->
  joinTransportFailure o = false ->
  thrownBy (onJoinError options) (effects w) (joinFailureMessage o) = None ->
  join_resume options o w =
    (Normal (joinFailureResult o),
     mkWorld
       (WaitlistState.set_isJoining false
          (WaitlistState.set_error (Some (joinFailureMessage o)) (state w)))
       (effects w ++
          invoked (onJoinError options) (OnJoinError (joinFailureMessage o)))).
Proof.
  destruct w as [s l]. unfold join_resume, join_try.
  destruct o as [e|status [e|result]]; simpl; intros Hs Ht; try discriminate.
  - apply negb_false_iff in Ht. rewrite Ht.
    destruct (onJoinError options) as [f|]; intros Hcb; settle.
  - destruct (status =? 429) eqn:E.
    + destruct (onJoinError options) as [f|]; intros Hcb; settle.
    + simpl in Hs. destruct result as [success entryId message error].
      simpl in *.
      destruct (ok status), success; try discriminate Hs; simpl;
        (destruct (onJoinError options) as [f|]; intros Hcb; settle).
Qed.

(** The same response when the error callback throws: the exception is
    caught, [error] becomes the [network] message and the callback is
    invoked a second time, with that message. *)
Lemma join_resume_refused_thrown (o : FetchOutcome JoinWaitlistResponse.t)
    (w : World) (e : thrown) :
  joinSucceeded o = false ->
  joinTransportFailure o = false ->
  thrownBy (onJoinError options) (effects w) (joinFailureMessage o) = Some e ->
  join_resume options o w =
    (returnAfter (onJoinError options)
       (effects w ++ [OnJoinError (joinFailureMessage o)])
       DEFAULT_ERROR_MESSAGES.network
       (JoinWaitlistResponse.failure DEFAULT_ERROR_MESSAGES.network),
     mkWorld
       (WaitlistState.set_isJoining false
          (WaitlistState.set_error (Some DEFAULT_ERROR_MESSAGES.network) (state w)))
       (effects w ++
          [OnJoinError (joinFailureMessage o);
           OnJoinError DEFAULT_ERROR_MESSAGES.network])).
Proof.
  destruct w as [s l]. unfold join_resume, join_try.
  destruct o as [e0|status [e0|result]]; simpl; intros Hs Ht; try discriminate.
  - apply negb_false_iff in Ht. rewrite Ht.
    destruct (onJoinError options) as [f|]; intros Hcb; settle.
  - destruct (status =? 429) eqn:E.
    + destruct (onJoinError options) as [f|]; intros Hcb; settle.
    + simpl in Hs. destruct result as [success entryId message error].
      simpl in *.
      destruct (ok status), success; try discriminate Hs; simpl;
        (destruct (onJoinError options) as [f|]; intros Hcb; settle).
Qed.

(** A successful response when the success callback returns. *)
Lemma join_resume_success (status : Z) (result : JoinWaitlistResponse.t)
    (w : World) :
  ok status = true ->
  JoinWaitlistResponse.success result = true ->
  thrownBy (onJoinSuccess options) (effects w) result = None ->
  join_resume options (Response status (inr result)) w =
    (Normal result,
     mkWorld
       (WaitlistState.set_isJoining false
          (WaitlistState.set_successMessage
             (Some (default DEFAULT_SUCCESS_MESSAGES.joined
                      (JoinWaitlistResponse.message result)))
             (WaitlistState.set_isJoined true (state w))))
       (effects w ++ invoked (onJoinSuccess options) (OnJoinSuccess result))).
Proof.
  intros Hok Hs. destruct w as [s l]. unfold join_resume, join_try.
  assert (H429 : (status =? 429) = false).
  { unfold ok in Hok. apply andb_true_iff in Hok as [_ ?]. lia. }
  rewrite H429, Hok.
  destruct result as [success entryId message error]. simpl in Hs. subst success.
  destruct (onJoinSuccess options) as [f|]; intros Hcb; settle.
Qed.

(** A successful response when the success callback throws: [isJoined] and
    the success message are already set; the [catch] clause then sets the
    [network] message and invokes the error callback. *)
Lemma join_resume_success_thrown (status : Z) (result : JoinWaitlistResponse.t)
    (w : World) (e : thrown) :
  ok status = true ->
  JoinWaitlistResponse.success result = true ->
  thrownBy (onJoinSuccess options) (effects w) result = Some e ->
  join_resume options (Response status (inr result)) w =
    (returnAfter (onJoinError options) (effects w ++ [OnJoinSuccess result])
       DEFAULT_ERROR_MESSAGES.network
       (JoinWaitlistResponse.failure DEFAULT_ERROR_MESSAGES.network),
     mkWorld
       (WaitlistState.set_isJoining false
          (WaitlistState.set_error (Some DEFAULT_ERROR_MESSAGES.network)
             (WaitlistState.set_successMessage
                (Some (default DEFAULT_SUCCESS_MESSAGES.joined
                         (JoinWaitlistResponse.message result)))
                (WaitlistState.set_isJoined true (state w)))))
       (effects w ++
          OnJoinSuccess result ::
          invoked (onJoinError options)
            (OnJoinError DEFAULT_ERROR_MESSAGES.network))).
Proof.
  intros Hok Hs. destruct w as [s l]. unfold join_resume, join_try.
  assert (H429 : (status =? 429) = false).
  { unfold ok in Hok. apply andb_true_iff in Hok as [_ ?]. lia. }
  rewrite H429, Hok.
  destruct result as [success entryId message error]. simpl in Hs. subst success.
  destruct (onJoinSuccess options) as [f|]; intros Hcb;
    destruct (onJoinError options) as [g|]; settle.
Qed.

Lemma leave_resume_transport (o : FetchOutcome LeaveWaitlistResponse.t) (w : World) :
  leaveTransportFailure o = true ->
  leave_resume options o w =
    (returnAfter (onLeaveError options) (effects w) DEFAULT_ERROR_MESSAGES.network
       (LeaveWaitlistResponse.failure DEFAULT_ERROR_MESSAGES.network),
     mkWorld
       (WaitlistState.set_isLeaving false
          (WaitlistState.set_error (Some DEFAULT_ERROR_MESSAGES.network) (state w)))
       (effects w ++
          invoked (onLeaveError options)
            (OnLeaveError DEFAULT_ERROR_MESSAGES.network))).
Proof.
  destruct w as [s l]. unfold leave_resume, leave_try.
  destruct o as [e|status [e|result]]; simpl; intros H; try discriminate.
  - destruct (onLeaveError options) as [f|]; settle.
  - apply negb_true_iff in H. rewrite H.
    destruct (onLeaveError options) as [f|]; settle.
Qed.

Lemma leave_resume_refused (o : FetchOutcome LeaveWaitlistResponse.t) (w : World) :
  leaveSucceeded o = false ->
  leaveTransportFailure o = false ->
  thrownBy (onLeaveError options) (effects w) (leaveFailureMessage o) = None ->
  leave_resume options o w =
    (Normal (leaveFailureResult o),
     mkWorld
       (WaitlistState.set_isLeaving false
          (WaitlistState.set_error (Some (leaveFailureMessage o)) (state w)))
       (effects w ++
          invoked (onLeaveError options) (OnLeaveError (leaveFailureMessage o)))).
Proof.
  destruct w as [s l]. unfold leave_resume, leave_try.
  destruct o as [e|status [e|result]]; simpl; intros Hs Ht; try discriminate.
  - apply negb_false_iff in Ht. rewrite Ht.
    destruct (onLeaveError options) as [f|]; intros Hcb; settle.
  - destruct (status =? 429) eqn:E.
    + destruct (onLeaveError options) as [f|]; intros Hcb; settle.
    + simpl in Hs. destruct result as [success message error].
      simpl in *.
      destruct (ok status), success; try discriminate Hs; simpl;
        (destruct (onLeaveError options) as [f|]; intros Hcb; settle).
Qed.

Lemma leave_resume_refused_thrown (o : FetchOutcome LeaveWaitlistResponse.t)
    (w : World) (e : thrown) :
  leaveSucceeded o = false ->
  leaveTransportFailure o = false ->
  thrownBy (onLeaveError options) (effects w) (leaveFailureMessage o) = Some e ->
  leave_resume options o w =
    (returnAfter (onLeaveError options)
       (effects w ++ [OnLeaveError (leaveFailureMessage o)])
       DEFAULT_ERROR_MESSAGES.network
       (LeaveWaitlistResponse.failure DEFAULT_ERROR_MESSAGES.network),
     mkWorld
       (WaitlistState.set_isLeaving false
          (WaitlistState.set_error (Some DEFAULT_ERROR_MESSAGES.network) (state w)))
       (effects w ++
          [OnLeaveError (leaveFailureMessage o);
           OnLeaveError DEFAULT_ERROR_MESSAGES.network])).
Proof.
  destruct w as [s l]. unfold leave_resume, leave_try.
  destruct o as [e0|status [e0|result]]; simpl; intros Hs Ht; try discriminate.
  - apply negb_false_iff in Ht. rewrite Ht.
    destruct (onLeaveError options) as [f|]; intros Hcb; settle.
  - destruct (status =? 429) eqn:E.
    + destruct (onLeaveError options) as [f|]; intros Hcb; settle.
    + simpl in Hs. destruct result as [success message error].
      simpl in *.
      destruct (ok status), success; try discriminate Hs; simpl;
        (destruct (onLeaveError options) as [f|]; intros Hcb; settle).
Qed.

Lemma leave_resume_success (status : Z) (result : LeaveWaitlistResponse.t)
    (w : World) :
  ok status = true ->
  LeaveWaitlistResponse.success result = true ->
  thrownBy (onLeaveSuccess options) (effects w) result = None ->
  leave_resume options (Response status (inr result)) w =
    (Normal result,
     mkWorld
       (WaitlistState.set_isLeaving false
          (WaitlistState.set_successMessage
             (Some (default DEFAULT_SUCCESS_MESSAGES.left
                      (LeaveWaitlistResponse.message result)))
             (WaitlistState.set_isJoined false (state w))))
       (effects w ++ invoked (onLeaveSuccess options) (OnLeaveSuccess result))).
Proof.
  intros Hok Hs. destruct w as [s l]. unfold leave_resume, leave_try.
  assert (H429 : (status =? 429) = false).
  { unfold ok in Hok. apply andb_true_iff in Hok as [_ ?]. lia. }
  rewrite H429, Hok.
  destruct result as [success message error]. simpl in Hs. subst success.
  destruct (onLeaveSuccess options) as [f|]; intros Hcb; settle.
Qed.

Lemma leave_resume_success_thrown (status : Z) (result : LeaveWaitlistResponse.t)
    (w : World) (e : thrown) :
  ok status = true ->
  LeaveWaitlistResponse.success result = true ->
  thrownBy (onLeaveSuccess options) (effects w) result = Some e ->
  leave_resume options (Response status (inr result)) w =
    (returnAfter (onLeaveError options) (effects w ++ [OnLeaveSuccess result])
       DEFAULT_ERROR_MESSAGES.network
       (LeaveWaitlistResponse.failure DEFAULT_ERROR_MESSAGES.network),
     mkWorld
       (WaitlistState.set_isLeaving false
          (WaitlistState.set_error (Some DEFAULT_ERROR_MESSAGES.network)
             (WaitlistState.set_successMessage
                (Some (default DEFAULT_SUCCESS_MESSAGES.left
                         (LeaveWaitlistResponse.message result)))
                (WaitlistState.set_isJoined false (state w)))))
       (effects w ++
          OnLeaveSuccess result ::
          invoked (onLeaveError options)
            (OnLeaveError DEFAULT_ERROR_MESSAGES.network))).
Proof.
  intros Hok Hs. destruct w as [s l]. unfold leave_resume, leave_try.
  assert (H429 : (status =? 429) = false).
  { unfold ok in Hok. apply andb_true_iff in Hok as [_ ?]. lia. }
  rewrite H429, Hok.
  destruct result as [success message error]. simpl in Hs. subst success.
  destruct (onLeaveSuccess options) as [f|]; intros Hcb;
    destruct (onLeaveError options) as [g|]; settle.
Qed.

(** ** The five ways a request settles *)

Lemma joinSucceeded_inv (o : FetchOutcome JoinWaitlistResponse.t) :
  joinSucceeded o = true ->
  exists status result,
    o = Response status (inr result) /\ status <> 429 /\ ok status = true
    /\ JoinWaitlistResponse.success result = true.
Proof.
  destruct o as [e|status [e|result]]; simpl; try discriminate.
  intros H. apply andb_true_iff in H as [H Hs].
  apply andb_true_iff in H as [H Hok]. apply negb_true_iff, Z.eqb_neq in H.
  eauto 10.
Qed.

Lemma leaveSucceeded_inv (o : FetchOutcome LeaveWaitlistResponse.t) :
  leaveSucceeded o = true ->
  exists status result,
    o = Response status (inr result) /\ status <> 429 /\ ok status = true
    /\ LeaveWaitlistResponse.success result = true.
Proof.
  destruct o as [e|status [e|result]]; simpl; try discriminate.
  intros H. apply andb_true_iff in H as [H Hs].
  apply andb_true_iff in H as [H Hok]. apply negb_true_iff, Z.eqb_neq in H.
  eauto 10.
Qed.

Lemma joinTransportFailure_not_succeeded (o : FetchOutcome JoinWaitlistResponse.t) :
  joinTransportFailure o = true -> joinSucceeded o = false.
Proof. destruct o as [e|status [e|result]]; simpl; congruence. Qed.

Lemma leaveTransportFailure_not_succeeded (o : FetchOutcome LeaveWaitlistResponse.t) :
  leaveTransportFailure o = true -> leaveSucceeded o = false.
Proof. destruct o as [e|status [e|result]]; simpl; congruence. Qed.

Lemma join_resume_cases (o : FetchOutcome JoinWaitlistResponse.t) (w : World) :
  let network := DEFAULT_ERROR_MESSAGES.network in
  let first := joinFailureMessage o in
  let failed := JoinWaitlistResponse.failure network in
  (joinSucceeded o = false /\ joinTransportFailure o = true
   /\ join_resume options o w =
        (returnAfter (onJoinError options) (effects w) network failed,
         mkWorld
           (WaitlistState.set_isJoining false
              (WaitlistState.set_error (Some network) (state w)))
           (effects w ++ invoked (onJoinError options) (OnJoinError network))))
  \/ (joinSucceeded o = false /\ joinTransportFailure o = false
      /\ thrownBy (onJoinError options) (effects w) first = None
      /\ join_resume options o w =
           (Normal (joinFailureResult o),
            mkWorld
              (WaitlistState.set_isJoining false
                 (WaitlistState.set_error (Some first) (state w)))
              (effects w ++ invoked (onJoinError options) (OnJoinError first))))
  \/ (joinSucceeded o = false /\ joinTransportFailure o = false
      /\ (exists e, thrownBy (onJoinError options) (effects w) first = Some e)
      /\ join_resume options o w =
           (returnAfter (onJoinError options) (effects w ++ [OnJoinError first])
              network failed,
            mkWorld
              (WaitlistState.set_isJoining false
                 (WaitlistState.set_error (Some network) (state w)))
              (effects w ++ [OnJoinError first; OnJoinError network])))
  \/ (joinSucceeded o = true
      /\ exists status result,
           o = Response status (inr result)
           /\ thrownBy (onJoinSuccess options) (effects w) result = None
           /\ join_resume options o w =
                (Normal result,
                 mkWorld
                   (WaitlistState.set_isJoining false
                      (WaitlistState.set_successMessage
                         (Some (default DEFAULT_SUCCESS_MESSAGES.joined
                                  (JoinWaitlistResponse.message result)))
                         (WaitlistState.set_isJoined true (state w))))
                   (effects w ++
                      invoked (onJoinSuccess options) (OnJoinSuccess result))))
  \/ (joinSucceeded o = true
      /\ exists status result,
           o = Response status (inr result)
           /\ (exists e, thrownBy (onJoinSuccess options) (effects w) result = Some e)
           /\ join_resume options o w =
                (returnAfter (onJoinError options)
                   (effects w ++ [OnJoinSuccess result]) network failed,
                 mkWorld
                   (WaitlistState.set_isJoining false
                      (WaitlistState.set_error (Some network)
                         (WaitlistState.set_successMessage
                            (Some (default DEFAULT_SUCCESS_MESSAGES.joined
                                     (JoinWaitlistResponse.message result)))
                            (WaitlistState.set_isJoined true (state w)))))
                   (effects w ++
                      OnJoinSuccess result ::
                      invoked (onJoinError options) (OnJoinError network)))).
Proof.
  intros network first failed. subst network first failed.
  destruct (joinSucceeded o) eqn:Hs.
  - destruct (joinSucceeded_inv o Hs) as (status & result & -> & _ & Hok & Hsu).
    destruct (thrownBy (onJoinSuccess options) (effects w) result) as [e|] eqn:Hcb.
    + do 4 right. split; [reflexivity|]. exists status, result.
      split; [reflexivity|]. split; [eauto|].
      exact (join_resume_success_thrown _ _ _ _ Hok Hsu Hcb).
    + do 3 right. left. split; [reflexivity|]. exists status, result.
      split; [reflexivity|]. split; [exact Hcb|].
      exact (join_resume_success _ _ _ Hok Hsu Hcb).
  - destruct (joinTransportFailure o) eqn:Ht.
    + left. split; [reflexivity|]. split; [reflexivity|].
      exact (join_resume_transport _ _ Ht).
    + destruct (thrownBy (onJoinError options) (effects w) (joinFailureMessage o))
        as [e|] eqn:Hcb.
      * do 2 right. left. split; [reflexivity|]. split; [reflexivity|].
        split; [eauto|]. exact (join_resume_refused_thrown _ _ _ Hs Ht Hcb).
      * right. left. split; [reflexivity|]. split; [reflexivity|].
        split; [reflexivity|]. exact (join_resume_refused _ _ Hs Ht Hcb).
Qed.

Lemma leave_resume_cases (o : FetchOutcome LeaveWaitlistResponse.t) (w : World) :
  let network := DEFAULT_ERROR_MESSAGES.network in
  let first := leaveFailureMessage o in
  let failed := LeaveWaitlistResponse.failure network in
  (leaveSucceeded o = false /\ leaveTransportFailure o = true
   /\ leave_resume options o w =
        (returnAfter (onLeaveError options) (effects w) network failed,
         mkWorld
           (WaitlistState.set_isLeaving false
              (WaitlistState.set_error (Some network) (state w)))
           (effects w ++ invoked (onLeaveError options) (OnLeaveError network))))
  \/ (leaveSucceeded o = false /\ leaveTransportFailure o = false
      /\ thrownBy (onLeaveError options) (effects w) first = None
      /\ leave_resume options o w =
           (Normal (leaveFailureResult o),
            mkWorld
              (WaitlistState.set_isLeaving false
                 (WaitlistState.set_error (Some first) (state w)))
              (effects w ++ invoked (onLeaveError options) (OnLeaveError first))))
  \/ (leaveSucceeded o = false /\ leaveTransportFailure o = false
      /\ (exists e, thrownBy (onLeaveError options) (effects w) first = Some e)
      /\ leave_resume options o w =
           (returnAfter (onLeaveError options) (effects w ++ [OnLeaveError first])
              network failed,
            mkWorld
              (WaitlistState.set_isLeaving false
                 (WaitlistState.set_error (Some network) (state w)))
              (effects w ++ [OnLeaveError first; OnLeaveError network])))
  \/ (leaveSucceeded o = true
      /\ exists status result,
           o = Response status (inr result)
           /\ thrownBy (onLeaveSuccess options) (effects w) result = None
           /\ leave_resume options o w =
                (Normal result,
                 mkWorld
                   (WaitlistState.set_isLeaving false
                      (WaitlistState.set_successMessage
                         (Some (default DEFAULT_SUCCESS_MESSAGES.left
                                  (LeaveWaitlistResponse.message result)))
                         (WaitlistState.set_isJoined false (state w))))
                   (effects w ++
                      invoked (onLeaveSuccess options) (OnLeaveSuccess result))))
  \/ (leaveSucceeded o = true
      /\ exists status result,
           o = Response status (inr result)
           /\ (exists e, thrownBy (onLeaveSuccess options) (effects w) result = Some e)
           /\ leave_resume options o w =
                (returnAfter (onLeaveError options)
                   (effects w ++ [OnLeaveSuccess result]) network failed,
                 mkWorld
                   (WaitlistState.set_isLeaving false
                      (WaitlistState.set_error (Some network)
                         (WaitlistState.set_successMessage
                            (Some (default DEFAULT_SUCCESS_MESSAGES.left
                                     (LeaveWaitlistResponse.message result)))
                            (WaitlistState.set_isJoined false (state w)))))
                   (effects w ++
                      OnLeaveSuccess result ::
                      invoked (onLeaveError options) (OnLeaveError network)))).
Proof.
  intros network first failed. subst network first failed.
  destruct (leaveSucceeded o) eqn:Hs.
  - destruct (leaveSucceeded_inv o Hs) as (status & result & -> & _ & Hok & Hsu).
    destruct (thrownBy (onLeaveSuccess options) (effects w) result) as [e|] eqn:Hcb.
    + do 4 right. split; [reflexivity|]. exists status, result.
      split; [reflexivity|]. split; [eauto|].
      exact (leave_resume_success_thrown _ _ _ _ Hok Hsu Hcb).
    + do 3 right. left. split; [reflexivity|]. exists status, result.
      split; [reflexivity|]. split; [exact Hcb|].
      exact (leave_resume_success _ _ _ Hok Hsu Hcb).
  - destruct (leaveTransportFailure o) eqn:Ht.
    + left. split; [reflexivity|]. split; [reflexivity|].
      exact (leave_resume_transport _ _ Ht).
    + destruct (thrownBy (onLeaveError options) (effects w) (leaveFailureMessage o))
        as [e|] eqn:Hcb.
      * do 2 right. left. split; [reflexivity|]. split; [reflexivity|].
        split; [eauto|]. exact (leave_resume_refused_thrown _ _ _ Hs Ht Hcb).
      * right. left. split; [reflexivity|]. split; [reflexivity|].
        split; [reflexivity|]. exact (leave_resume_refused _ _ Hs Ht Hcb).
Qed.

(** ** What each stretch of code does to the three flags *)

Lemma join_begin_flags (emailInput : string) (w : World) :
  let s := state w in
  let s' := state (join_begin config options emailInput w).2 in
  WaitlistState.isLeaving s' = WaitlistState.isLeaving s
  /\ WaitlistState.isJoined s' = WaitlistState.isJoined s
  /\ WaitlistState.isJoining s' =
       (isValidEmail (cleaned emailInput) || WaitlistState.isJoining s).
Proof.
  destruct (isValidEmail (cleaned emailInput)) eqn:H.
  - rewrite (join_begin_valid _ _ H). repeat apply conj; reflexivity.
  - rewrite (join_begin_invalid _ _ H). repeat apply conj; reflexivity.
Qed.

Lemma leave_begin_flags (emailInput : string) (w : World) :
  let s := state w in
  let s' := state (leave_begin config options emailInput w).2 in
  WaitlistState.isJoining s' = WaitlistState.isJoining s
  /\ WaitlistState.isJoined s' = WaitlistState.isJoined s
  /\ WaitlistState.isLeaving s' =
       (isValidEmail (cleaned emailInput) || WaitlistState.isLeaving s).
Proof.
  destruct (isValidEmail (cleaned emailInput)) eqn:H.
  - rewrite (leave_begin_valid _ _ H). repeat apply conj; reflexivity.
  - rewrite (leave_begin_invalid _ _ H). repeat apply conj; reflexivity.
Qed.

Lemma join_resume_flags (o : FetchOutcome JoinWaitlistResponse.t) (w : World) :
  let s := state w in
  let s' := state (join_resume options o w).2 in
  WaitlistState.isJoining s' = false
  /\ WaitlistState.isLeaving s' = WaitlistState.isLeaving s
  /\ WaitlistState.isJoined s' = (joinSucceeded o || WaitlistState.isJoined s).
Proof.
  destruct (join_resume_cases o w)
    as [(Hs & _ & ->)|[(Hs & _ & _ & ->)|[(Hs & _ & _ & ->)
       |[(Hs & st & res & _ & _ & ->)|(Hs & st & res & _ & _ & ->)]]]];
    rewrite Hs; repeat apply conj; reflexivity.
Qed.

Lemma leave_resume_flags (o : FetchOutcome LeaveWaitlistResponse.t) (w : World) :
  let s := state w in
  let s' := state (leave_resume options o w).2 in
  WaitlistState.isLeaving s' = false
  /\ WaitlistState.isJoining s' = WaitlistState.isJoining s
  /\ WaitlistState.isJoined s' = (negb (leaveSucceeded o) && WaitlistState.isJoined s).
Proof.
  destruct (leave_resume_cases o w)
    as [(Hs & _ & ->)|[(Hs & _ & _ & ->)|[(Hs & _ & _ & ->)
       |[(Hs & st & res & _ & _ & ->)|(Hs & st & res & _ & _ & ->)]]]];
    rewrite Hs; repeat apply conj; reflexivity.
Qed.

(** ** [join] and [leave] run to their return *)

Lemma join_invalid net (emailInput : string) (w : World) :
  isValidEmail (cleaned emailInput) = false ->
  join config options net emailInput w =
    (returnAfter (onJoinError options) (effects w)
       DEFAULT_ERROR_MESSAGES.invalidEmail
       (JoinWaitlistResponse.failure DEFAULT_ERROR_MESSAGES.invalidEmail),
     mkWorld
       (WaitlistState.set_error (Some DEFAULT_ERROR_MESSAGES.invalidEmail) (state w))
       (effects w ++
          invoked (onJoinError options)
            (OnJoinError DEFAULT_ERROR_MESSAGES.invalidEmail))).
Proof.
  intros H. unfold join, bind. rewrite (join_begin_invalid _ _ H).
  unfold returnAfter. now destruct (thrownBy _ _ _).
Qed.

Lemma join_valid net (emailInput : string) (w : World) :
  isValidEmail (cleaned emailInput) = true ->
  join config options net emailInput w =
    join_resume options (net (joinRequest config options (cleaned emailInput)))
      (mkWorld
         (WaitlistState.set_successMessage None
            (WaitlistState.set_error None
               (WaitlistState.set_isJoining true (state w))))
         (effects w ++ [Fetch (joinRequest config options (cleaned emailInput))])).
Proof.
  intros H. unfold join, bind. now rewrite (join_begin_valid _ _ H).
Qed.

Lemma leave_invalid net (emailInput : string) (w : World) :
  isValidEmail (cleaned emailInput) = false ->
  leave config options net emailInput w =
    (returnAfter (onLeaveError options) (effects w)
       DEFAULT_ERROR_MESSAGES.invalidEmail
       (LeaveWaitlistResponse.failure DEFAULT_ERROR_MESSAGES.invalidEmail),
     mkWorld
       (WaitlistState.set_error (Some DEFAULT_ERROR_MESSAGES.invalidEmail) (state w))
       (effects w ++
          invoked (onLeaveError options)
            (OnLeaveError DEFAULT_ERROR_MESSAGES.invalidEmail))).
Proof.
  intros H. unfold leave, bind. rewrite (leave_begin_invalid _ _ H).
  unfold returnAfter. now destruct (thrownBy _ _ _).
Qed.

Lemma leave_valid net (emailInput : string) (w : World) :
  isValidEmail (cleaned emailInput) = true ->
  leave config options net emailInput w =
    leave_resume options (net (leaveRequest config options (cleaned emailInput)))
      (mkWorld
         (WaitlistState.set_successMessage None
            (WaitlistState.set_error None
               (WaitlistState.set_isLeaving true (state w))))
         (effects w ++ [Fetch (leaveRequest config options (cleaned emailInput))])).
Proof.
  intros H. unfold leave, bind. now rewrite (leave_begin_valid _ _ H).
Qed.

Lemma requestCount_app (l1 l2 : list Effect) :
  requestCount (l1 ++ l2) = (requestCount l1 + requestCount l2)%nat.
Proof. unfold requestCount. now rewrite List.filter_app, List.length_app. Qed.

Lemma requestCount_invoked {A : Type} (callback : option (Callback A)) (e : Effect) :
  isFetch e = false -> requestCount (invoked callback e) = 0%nat.
Proof. intros H. destruct callback; unfold requestCount; simpl; now rewrite ?H. Qed.

Lemma returnAfter_throw {A B : Type} (callback : option (Callback A))
    (log : list Effect) (a : A) (r : B) (e : thrown) :
  returnAfter callback log a r = Throw e ->
  exists f, callback = Some f /\ f log a = Some e.
Proof.
  unfold returnAfter, thrownBy. destruct callback as [f|]; [|discriminate].
  destruct (f log a) as [e'|] eqn:E; [|discriminate].
  intros [= ->]. eauto.
Qed.

Lemma returnAfter_returns {A B : Type} (callback : option (Callback A))
    (log : list Effect) (a : A) (r : B) :
  thrownBy callback log a = None -> returnAfter callback log a r = Normal r.
Proof. unfold returnAfter. now intros ->. Qed.

Lemma returnAfter_thrown {A B : Type} (callback : option (Callback A))
    (log : list Effect) (a : A) (r : B) (e : thrown) :
  thrownBy callback log a = Some e -> returnAfter callback log a r = Throw e.
Proof. unfold returnAfter. now intros ->. Qed.

Lemma invoked_thrown {A : Type} (callback : option (Callback A))
    (log : list Effect) (a : A) (e : thrown) (x : Effect) :
  thrownBy callback log a = Some e -> invoked callback x = [x].
Proof. destruct callback; [reflexivity | discriminate]. Qed.

(** C3 (amended).  When the sanitized, lower-cased input fails
    [isValidEmail], [join] sets [error] to the invalid-email message,
    invokes the join-error callback (when one is supplied) with that message
    and nothing else, and issues no network request, whatever the transport
    would have answered; all of it happens before any [await].  It then
    returns [{success: false, error}] when no callback was supplied or the
    callback returns; when the callback throws, the call is rejected with
    what the callback threw. *)
Theorem join_rejects_invalid_email
    (net : HttpRequest -> FetchOutcome JoinWaitlistResponse.t)
    (emailInput : string) (w : World) :
  isValidEmail (cleaned emailInput) = false ->
  let errorMsg := DEFAULT_ERROR_MESSAGES.invalidEmail in
  let r := join config options net emailInput w in
  WaitlistState.error (state r.2) = Some errorMsg
  /\ effects r.2 =
       (effects w ++ invoked (onJoinError options) (OnJoinError errorMsg))%list
  /\ requestCount (effects r.2) = requestCount (effects w)
  /\ (join_begin config options emailInput w).2 = r.2
  /\ (forall req, (join_begin config options emailInput w).1 <> Normal (inr req))
  /\ (onJoinError options = None ->
        r.1 = Normal (JoinWaitlistResponse.failure errorMsg))
  /\ (forall f, onJoinError options = Some f ->
        r.1 = match f (effects w) errorMsg with
              | None => Normal (JoinWaitlistResponse.failure errorMsg)
              | Some e => Throw e
              end).
Proof.
  intros H errorMsg r. subst r errorMsg.
  rewrite (join_invalid net _ w H), (join_begin_invalid _ w H). simpl.
  repeat apply conj; try reflexivity.
  - rewrite requestCount_app, requestCount_invoked by reflexivity. lia.
  - intros req. unfold returnAfter. destruct (thrownBy _ _ _); discriminate.
  - intros ->. reflexivity.
  - intros f ->. reflexivity.
Qed.

(** C9.  When [join] or [leave] fails email validation, the only state cell
    that changes is [error]: [email], [isJoining], [isLeaving], [isJoined]
    and [successMessage] keep their values.  So after a successful [join],
    an attempt with an invalid email leaves a state that carries the success
    message of the earlier call and the invalid-email error together, with
    [isJoined] still true. *)
Theorem validation_failure_frame
    (netJ : HttpRequest -> FetchOutcome JoinWaitlistResponse.t)
    (netL : HttpRequest -> FetchOutcome LeaveWaitlistResponse.t)
    (emailInput : string) (w : World) :
  isValidEmail (cleaned emailInput) = false ->
  let invalid := Some DEFAULT_ERROR_MESSAGES.invalidEmail in
  state (join config options netJ emailInput w).2
    = WaitlistState.set_error invalid (state w)
  /\ state (leave config options netL emailInput w).2
    = WaitlistState.set_error invalid (state w)
  /\ (forall goodEmail status result w0,
        isValidEmail (cleaned goodEmail) = true ->
        netJ (joinRequest config options (cleaned goodEmail))
          = Response status (inr result) ->
        ok status = true ->
        JoinWaitlistResponse.success result = true ->
        let s :=
          state (join config options netJ emailInput
                   (join config options netJ goodEmail w0).2).2 in
        WaitlistState.successMessage s
          = Some (default DEFAULT_SUCCESS_MESSAGES.joined
                    (JoinWaitlistResponse.message result))
        /\ WaitlistState.error s = invalid
        /\ WaitlistState.isJoined s = true
        /\ WaitlistState.isJoining s = false).
Proof.
  intros H invalid. subst invalid. repeat apply conj.
  - now rewrite (join_invalid netJ _ w H).
  - now rewrite (leave_invalid netL _ w H).
  - intros goodEmail status result w0 Hgood Hnet Hok Hsu s. subst s.
    rewrite (join_invalid netJ _ _ H).
    rewrite (join_valid netJ _ _ Hgood), Hnet.
    match goal with
    | |- context [join_resume options ?o ?w1] =>
        destruct (thrownBy (onJoinSuccess options) (effects w1) result)
          as [e|] eqn:Hcb;
        [rewrite (join_resume_success_thrown _ _ _ _ Hok Hsu Hcb)
        |rewrite (join_resume_success _ _ _ Hok Hsu Hcb)]
    end; repeat apply conj; reflexivity.
Qed.

(** C6 (amended).  A response with status 429, whatever its body (a parsed
    value or text that is not JSON), makes [join] and [leave] set the
    rate-limited message as [error] and invoke the error callback of that
    operation (when supplied) with it; [isJoined] keeps the value it had
    (false when it was false, true after an earlier successful [join]) and
    the in-flight flag of the operation is cleared.  When the callback
    returns, the call returns [{success: false, error}] with the
    rate-limited message.  When the callback throws, the exception is
    caught: [error] becomes the [network] message, the callback is invoked a
    second time, with that message, and the call returns [{success: false,
    error}] with the [network] message, or is rejected if the callback
    throws again. *)
Theorem rate_limited_429
    (jsonJ : thrown + JoinWaitlistResponse.t)
    (jsonL : thrown + LeaveWaitlistResponse.t) (w : World) :
  let errorMsg := DEFAULT_ERROR_MESSAGES.rateLimited in
  let network := DEFAULT_ERROR_MESSAGES.network in
  let j := join_resume options (Response 429 jsonJ) w in
  let l := leave_resume options (Response 429 jsonL) w in
  (WaitlistState.isJoined (state j.2) = WaitlistState.isJoined (state w)
   /\ WaitlistState.isJoining (state j.2) = false
   /\ (thrownBy (onJoinError options) (effects w) errorMsg = None ->
         j.1 = Normal (JoinWaitlistResponse.failure errorMsg)
         /\ WaitlistState.error (state j.2) = Some errorMsg
         /\ effects j.2 =
              (effects w ++ invoked (onJoinError options) (OnJoinError errorMsg))%list)
   /\ (forall e, thrownBy (onJoinError options) (effects w) errorMsg = Some e ->
         WaitlistState.error (state j.2) = Some network
         /\ effects j.2 =
              (effects w ++ [OnJoinError errorMsg; OnJoinError network])%list
         /\ j.1 = returnAfter (onJoinError options)
                    (effects w ++ [OnJoinError errorMsg]) network
                    (JoinWaitlistResponse.failure network)))
  /\
  (WaitlistState.isJoined (state l.2) = WaitlistState.isJoined (state w)
   /\ WaitlistState.isLeaving (state l.2) = false
   /\ (thrownBy (onLeaveError options) (effects w) errorMsg = None ->
         l.1 = Normal (LeaveWaitlistResponse.failure errorMsg)
         /\ WaitlistState.error (state l.2) = Some errorMsg
         /\ effects l.2 =
              (effects w ++ invoked (onLeaveError options) (OnLeaveError errorMsg))%list)
   /\ (forall e, thrownBy (onLeaveError options) (effects w) errorMsg = Some e ->
         WaitlistState.error (state l.2) = Some network
         /\ effects l.2 =
              (effects w ++ [OnLeaveError errorMsg; OnLeaveError network])%list
         /\ l.1 = returnAfter (onLeaveError options)
                    (effects w ++ [OnLeaveError errorMsg]) network
                    (LeaveWaitlistResponse.failure network))).
Proof.
  intros errorMsg network j l. subst j l errorMsg network.
  assert (HJ : joinSucceeded (Response 429 jsonJ) = false)
    by (destruct jsonJ; reflexivity).
  assert (HL : leaveSucceeded (Response 429 jsonL) = false)
    by (destruct jsonL; reflexivity).
  assert (HJt : joinTransportFailure (Response 429 jsonJ) = false)
    by (destruct jsonJ; reflexivity).
  assert (HLt : leaveTransportFailure (Response 429 jsonL) = false)
    by (destruct jsonL; reflexivity).
  assert (HJr : joinFailureResult (Response 429 jsonJ)
                = JoinWaitlistResponse.failure DEFAULT_ERROR_MESSAGES.rateLimited)
    by (destruct jsonJ; reflexivity).
  assert (HLr : leaveFailureResult (Response 429 jsonL)
                = LeaveWaitlistResponse.failure DEFAULT_ERROR_MESSAGES.rateLimited)
    by (destruct jsonL; reflexivity).
  split.
  - destruct (join_resume_flags (Response 429 jsonJ) w) as (Hg & _ & Hd).
    rewrite HJ in Hd.
    split; [exact Hd | split; [exact Hg | split]].
    + intros Hcb. rewrite (join_resume_refused _ _ HJ HJt Hcb), HJr.
      repeat apply conj; reflexivity.
    + intros e Hcb. rewrite (join_resume_refused_thrown _ _ _ HJ HJt Hcb).
      repeat apply conj; reflexivity.
  - destruct (leave_resume_flags (Response 429 jsonL) w) as (Hg & _ & Hd).
    rewrite HL in Hd.
    split; [exact Hd | split; [exact Hg | split]].
    + intros Hcb. rewrite (leave_resume_refused _ _ HL HLt Hcb), HLr.
      repeat apply conj; reflexivity.
    + intros e Hcb. rewrite (leave_resume_refused_thrown _ _ _ HL HLt Hcb).
      repeat apply conj; reflexivity.
Qed.

(** C2 (amended).  A failure of [join] or [leave] calls for one message:
    the [network] message for a transport-level failure (no response, or a
    body that is not JSON), the rate-limited message for a 429, and for an
    application-level failure (a parsed response, not a 429, that is not 2xx
    or has [success: false]) the [error] field of the body or, when it has
    none, the [unknown] message.  When the error callback is not supplied or
    returns, [error] is that message, the callback has received it, and the
    call returns: [{success: false, error}] for a transport or rate-limit
    failure, the parsed body as it is for an application-level failure.
    When the error callback throws, [error] ends as the [network] message:
    on a transport-level failure the call is rejected with what the
    callback threw; on the other failures the exception is caught, the
    callback is invoked a second time with the [network] message, and the
    call returns [{success: false, error}] with that message or is rejected
    if the callback throws again. *)
Theorem failures_resolve_to_results
    (oJ : FetchOutcome JoinWaitlistResponse.t)
    (oL : FetchOutcome LeaveWaitlistResponse.t) (w : World) :
  joinSucceeded oJ = false ->
  leaveSucceeded oL = false ->
  let network := DEFAULT_ERROR_MESSAGES.network in
  let j := join_resume options oJ w in
  let l := leave_resume options oL w in
  (let first := joinFailureMessage oJ in
   (joinTransportFailure oJ = true ->
      first = network
      /\ joinFailureResult oJ = JoinWaitlistResponse.failure network)
   /\ (forall status json, oJ = Response status json -> status = 429 ->
         first = DEFAULT_ERROR_MESSAGES.rateLimited
         /\ joinFailureResult oJ = JoinWaitlistResponse.failure first)
   /\ (forall status result,
         oJ = Response status (inr result) -> status <> 429 ->
         first = default DEFAULT_ERROR_MESSAGES.unknown
                   (JoinWaitlistResponse.error result)
         /\ joinFailureResult oJ = result)
   /\ (thrownBy (onJoinError options) (effects w) first = None ->
         j.1 = Normal (joinFailureResult oJ)
         /\ WaitlistState.error (state j.2) = Some first
         /\ effects j.2 =
              (effects w ++ invoked (onJoinError options) (OnJoinError first))%list)
   /\ (forall e, thrownBy (onJoinError options) (effects w) first = Some e ->
         WaitlistState.error (state j.2) = Some network
         /\ (joinTransportFailure oJ = true ->
               j.1 = Throw e
               /\ effects j.2 = (effects w ++ [OnJoinError network])%list)
         /\ (joinTransportFailure oJ = false ->
               effects j.2 =
                 (effects w ++ [OnJoinError first; OnJoinError network])%list
               /\ j.1 = returnAfter (onJoinError options)
                          (effects w ++ [OnJoinError first]) network
                          (JoinWaitlistResponse.failure network))))
  /\
  (let first := leaveFailureMessage oL in
   (leaveTransportFailure oL = true ->
      first = network
      /\ leaveFailureResult oL = LeaveWaitlistResponse.failure network)
   /\ (forall status json, oL = Response status json -> status = 429 ->
         first = DEFAULT_ERROR_MESSAGES.rateLimited
         /\ leaveFailureResult oL = LeaveWaitlistResponse.failure first)
   /\ (forall status result,
         oL = Response status (inr result) -> status <> 429 ->
         first = default DEFAULT_ERROR_MESSAGES.unknown
                   (LeaveWaitlistResponse.error result)
         /\ leaveFailureResult oL = result)
   /\ (thrownBy (onLeaveError options) (effects w) first = None ->
         l.1 = Normal (leaveFailureResult oL)
         /\ WaitlistState.error (state l.2) = Some first
         /\ effects l.2 =
              (effects w ++ invoked (onLeaveError options) (OnLeaveError first))%list)
   /\ (forall e, thrownBy (onLeaveError options) (effects w) first = Some e ->
         WaitlistState.error (state l.2) = Some network
         /\ (leaveTransportFailure oL = true ->
               l.1 = Throw e
               /\ effects l.2 = (effects w ++ [OnLeaveError network])%list)
         /\ (leaveTransportFailure oL = false ->
               effects l.2 =
                 (effects w ++ [OnLeaveError first; OnLeaveError network])%list
               /\ l.1 = returnAfter (onLeaveError options)
                          (effects w ++ [OnLeaveError first]) network
                          (LeaveWaitlistResponse.failure network)))).
Proof.
  intros HJ HL network j l. subst j l network. split.
  - cbv zeta. split; [|split; [|split; [|split]]].
    + destruct oJ as [e|status [e|result]]; simpl; try discriminate;
        intros Ht; try (split; reflexivity).
      apply negb_true_iff in Ht. rewrite Ht. split; reflexivity.
    + intros status json -> ->. destruct json; split; reflexivity.
    + intros status result -> Hs. apply Z.eqb_neq in Hs. simpl. rewrite Hs.
      split; reflexivity.
    + intros Hcb. destruct (joinTransportFailure oJ) eqn:Ht.
      * assert (E : joinFailureMessage oJ = DEFAULT_ERROR_MESSAGES.network
                    /\ joinFailureResult oJ
                       = JoinWaitlistResponse.failure DEFAULT_ERROR_MESSAGES.network).
        { destruct oJ as [e|status [e|result]]; simpl in *; try discriminate;
            try (split; reflexivity).
          apply negb_true_iff in Ht. rewrite Ht. split; reflexivity. }
        destruct E as [E1 E2]. rewrite E1 in *. rewrite E2.
        rewrite (join_resume_transport _ _ Ht), (returnAfter_returns _ _ _ _ Hcb).
        repeat apply conj; reflexivity.
      * rewrite (join_resume_refused _ _ HJ Ht Hcb).
        repeat apply conj; reflexivity.
    + intros e Hcb. destruct (joinTransportFailure oJ) eqn:Ht.
      * assert (E : joinFailureMessage oJ = DEFAULT_ERROR_MESSAGES.network).
        { destruct oJ as [e0|status [e0|result]]; simpl in *; try discriminate;
            try reflexivity.
          apply negb_true_iff in Ht. now rewrite Ht. }
        rewrite E in *.
        rewrite (join_resume_transport _ _ Ht), (returnAfter_thrown _ _ _ _ _ Hcb),
          (invoked_thrown _ _ _ _ _ Hcb).
        split; [reflexivity | split; [|discriminate]].
        intros _. split; reflexivity.
      * rewrite (join_resume_refused_thrown _ _ _ HJ Ht Hcb).
        split; [reflexivity | split; [discriminate|]].
        intros _. split; reflexivity.
  - cbv zeta. split; [|split; [|split; [|split]]].
    + destruct oL as [e|status [e|result]]; simpl; try discriminate;
        intros Ht; try (split; reflexivity).
      apply negb_true_iff in Ht. rewrite Ht. split; reflexivity.
    + intros status json -> ->. destruct json; split; reflexivity.
    + intros status result -> Hs. apply Z.eqb_neq in Hs. simpl. rewrite Hs.
      split; reflexivity.
    + intros Hcb. destruct (leaveTransportFailure oL) eqn:Ht.
      * assert (E : leaveFailureMessage oL = DEFAULT_ERROR_MESSAGES.network
                    /\ leaveFailureResult oL
                       = LeaveWaitlistResponse.failure DEFAULT_ERROR_MESSAGES.network).
        { destruct oL as [e|status [e|result]]; simpl in *; try discriminate;
            try (split; reflexivity).
          apply negb_true_iff in Ht. rewrite Ht. split; reflexivity. }
        destruct E as [E1 E2]. rewrite E1 in *. rewrite E2.
        rewrite (leave_resume_transport _ _ Ht), (returnAfter_returns _ _ _ _ Hcb).
        repeat apply conj; reflexivity.
      * rewrite (leave_resume_refused _ _ HL Ht Hcb).
        repeat apply conj; reflexivity.
    + intros e Hcb. destruct (leaveTransportFailure oL) eqn:Ht.
      * assert (E : leaveFailureMessage oL = DEFAULT_ERROR_MESSAGES.network).
        { destruct oL as [e0|status [e0|result]]; simpl in *; try discriminate;
            try reflexivity.
          apply negb_true_iff in Ht. now rewrite Ht. }
        rewrite E in *.
        rewrite (leave_resume_transport _ _ Ht), (returnAfter_thrown _ _ _ _ _ Hcb),
          (invoked_thrown _ _ _ _ _ Hcb).
        split; [reflexivity | split; [|discriminate]].
        intros _. split; reflexivity.
      * rewrite (leave_resume_refused_thrown _ _ _ HL Ht Hcb).
        split; [reflexivity | split; [discriminate|]].
        intros _. split; reflexivity.
Qed.

Lemma join_throws_from_error_callback net (emailInput : string) (w : World)
    (e : thrown) :
  (join config options net emailInput w).1 = Throw e ->
  exists f log msg,
    onJoinError options = Some f /\ f log msg = Some e
    /\ (msg = DEFAULT_ERROR_MESSAGES.invalidEmail
        \/ msg = DEFAULT_ERROR_MESSAGES.network).
Proof.
  destruct (isValidEmail (cleaned emailInput)) eqn:H.
  - rewrite (join_valid net _ w H).
    match goal with
    | |- context [join_resume options ?o ?w1] =>
        destruct (join_resume_cases o w1)
          as [(_ & _ & ->)|[(_ & _ & _ & ->)|[(_ & _ & _ & ->)
             |[(_ & st & res & _ & _ & ->)|(_ & st & res & _ & _ & ->)]]]]
    end; simpl; try discriminate;
      intros Hr; apply returnAfter_throw in Hr as (f & Hf & He); eauto 10.
  - rewrite (join_invalid net _ w H). simpl.
    intros Hr; apply returnAfter_throw in Hr as (f & Hf & He); eauto 10.
Qed.

Lemma leave_throws_from_error_callback net (emailInput : string) (w : World)
    (e : thrown) :
  (leave config options net emailInput w).1 = Throw e ->
  exists f log msg,
    onLeaveError options = Some f /\ f log msg = Some e
    /\ (msg = DEFAULT_ERROR_MESSAGES.invalidEmail
        \/ msg = DEFAULT_ERROR_MESSAGES.network).
Proof.
  destruct (isValidEmail (cleaned emailInput)) eqn:H.
  - rewrite (leave_valid net _ w H).
    match goal with
    | |- context [leave_resume options ?o ?w1] =>
        destruct (leave_resume_cases o w1)
          as [(_ & _ & ->)|[(_ & _ & _ & ->)|[(_ & _ & _ & ->)
             |[(_ & st & res & _ & _ & ->)|(_ & st & res & _ & _ & ->)]]]]
    end; simpl; try discriminate;
      intros Hr; apply returnAfter_throw in Hr as (f & Hf & He); eauto 10.
  - rewrite (leave_invalid net _ w H). simpl.
    intros Hr; apply returnAfter_throw in Hr as (f & Hf & He); eauto 10.
Qed.

(** X3.  Whatever the email, the state and the behaviour of the transport,
    the promise of [join] or [leave] is rejected only with what the error
    callback of that operation threw when it was invoked with the
    invalid-email message (before the [try] block) or with the [network]
    message (inside the [catch] clause).  What the transport throws, what a
    success callback throws and what the error callback throws inside the
    [try] block is caught; so the calls return a result whenever the error
    callback is not supplied or returns on those two messages.  Conversely,
    when the error callback throws on the invalid-email message of a call
    with an invalid email, or on the [network] message of a call whose
    request fails at the transport level, the call is rejected with what it
    threw. *)
Theorem calls_reject_only_by_error_callback
    (netJ : HttpRequest -> FetchOutcome JoinWaitlistResponse.t)
    (netL : HttpRequest -> FetchOutcome LeaveWaitlistResponse.t)
    (emailInput : string) (w : World) :
  let j := join config options netJ emailInput w in
  let l := leave config options netL emailInput w in
  (forall e, j.1 = Throw e ->
     exists f log msg,
       onJoinError options = Some f /\ f log msg = Some e
       /\ (msg = DEFAULT_ERROR_MESSAGES.invalidEmail
           \/ msg = DEFAULT_ERROR_MESSAGES.network))
  /\ (forall e, l.1 = Throw e ->
        exists f log msg,
          onLeaveError options = Some f /\ f log msg = Some e
          /\ (msg = DEFAULT_ERROR_MESSAGES.invalidEmail
              \/ msg = DEFAULT_ERROR_MESSAGES.network))
  /\ ((forall log msg, thrownBy (onJoinError options) log msg = None) ->
      exists r, j.1 = Normal r)
  /\ ((forall log msg, thrownBy (onLeaveError options) log msg = None) ->
      exists r, l.1 = Normal r)
  /\ (forall e,
        isValidEmail (cleaned emailInput) = false ->
        (thrownBy (onJoinError options) (effects w)
           DEFAULT_ERROR_MESSAGES.invalidEmail = Some e -> j.1 = Throw e)
        /\ (thrownBy (onLeaveError options) (effects w)
              DEFAULT_ERROR_MESSAGES.invalidEmail = Some e -> l.1 = Throw e))
  /\ (forall e,
        isValidEmail (cleaned emailInput) = true ->
        (joinTransportFailure
           (netJ (joinRequest config options (cleaned emailInput))) = true ->
         thrownBy (onJoinError options)
           (effects w ++ [Fetch (joinRequest config options (cleaned emailInput))])
           DEFAULT_ERROR_MESSAGES.network = Some e ->
         j.1 = Throw e)
        /\ (leaveTransportFailure
              (netL (leaveRequest config options (cleaned emailInput))) = true ->
            thrownBy (onLeaveError options)
              (effects w ++ [Fetch (leaveRequest config options (cleaned emailInput))])
              DEFAULT_ERROR_MESSAGES.network = Some e ->
            l.1 = Throw e)).
Proof.
  intros j l. subst j l.
  split; [|split; [|split; [|split; [|split]]]].
  - intros e. apply join_throws_from_error_callback.
  - intros e. apply leave_throws_from_error_callback.
  - intros Hret.
    destruct (join config options netJ emailInput w).1 as [r|e] eqn:E; [eauto|].
    apply join_throws_from_error_callback in E as (f & log & msg & Hf & He & _).
    specialize (Hret log msg). rewrite Hf in Hret. simpl in Hret. congruence.
  - intros Hret.
    destruct (leave config options netL emailInput w).1 as [r|e] eqn:E; [eauto|].
    apply leave_throws_from_error_callback in E as (f & log & msg & Hf & He & _).
    specialize (Hret log msg). rewrite Hf in Hret. simpl in Hret. congruence.
  - intros e Hv. split; intros Hcb.
    + rewrite (join_invalid netJ _ w Hv). now apply returnAfter_thrown.
    + rewrite (leave_invalid netL _ w Hv). now apply returnAfter_thrown.
  - intros e Hv. split; intros Ht Hcb.
    + rewrite (join_valid netJ _ w Hv), (join_resume_transport _ _ Ht).
      now apply returnAfter_thrown.
    + rewrite (leave_valid netL _ w Hv), (leave_resume_transport _ _ Ht).
      now apply returnAfter_thrown.
Qed.

(** ** The flags follow the requests in flight *)

Lemma step_join_invalid (i : Instance) (emailInput : string) :
  isValidEmail (cleaned emailInput) = false ->
  step config options i (CallJoin emailInput) =
    Some (mkInstance (join_begin config options emailInput (world i)).2
            (joinsInFlight i) (leavesInFlight i)).
Proof.
  intros Hv. simpl. rewrite (join_begin_invalid _ _ Hv).
  unfold returnAfter. now destruct (thrownBy _ _ _).
Qed.

Lemma step_leave_invalid (i : Instance) (emailInput : string) :
  isValidEmail (cleaned emailInput) = false ->
  step config options i (CallLeave emailInput) =
    Some (mkInstance (leave_begin config options emailInput (world i)).2
            (joinsInFlight i) (leavesInFlight i)).
Proof.
  intros Hv. simpl. rewrite (leave_begin_invalid _ _ Hv).
  unfold returnAfter. now destruct (thrownBy _ _ _).
Qed.

Lemma step_tracks_requests (i i' : Instance) (e : Event) :
  step config options i e = Some i' ->
  (WaitlistState.isJoining (state (world i)) = true -> (0 < joinsInFlight i)%nat) ->
  (WaitlistState.isLeaving (state (world i)) = true -> (0 < leavesInFlight i)%nat) ->
  (WaitlistState.isJoining (state (world i')) = true -> (0 < joinsInFlight i')%nat)
  /\ (WaitlistState.isLeaving (state (world i')) = true -> (0 < leavesInFlight i')%nat).
Proof.
  intros Hstep Hj Hl.
  destruct e as [emailInput|o|emailInput|o| |v].
  - destruct (isValidEmail (cleaned emailInput)) eqn:Hv.
    + simpl in Hstep. rewrite (join_begin_valid _ _ Hv) in Hstep.
      injection Hstep as <-. simpl. split; [lia | exact Hl].
    + rewrite (step_join_invalid _ _ Hv), (join_begin_invalid _ _ Hv) in Hstep.
      injection Hstep as <-. simpl. split; assumption.
  - simpl in Hstep. destruct (joinsInFlight i) as [|n]; [discriminate|].
    injection Hstep as <-. simpl.
    destruct (join_resume_flags o (world i)) as (Hj' & Hl' & _).
    rewrite Hj', Hl'. split; [discriminate | exact Hl].
  - destruct (isValidEmail (cleaned emailInput)) eqn:Hv.
    + simpl in Hstep. rewrite (leave_begin_valid _ _ Hv) in Hstep.
      injection Hstep as <-. simpl. split; [exact Hj | lia].
    + rewrite (step_leave_invalid _ _ Hv), (leave_begin_invalid _ _ Hv) in Hstep.
      injection Hstep as <-. simpl. split; assumption.
  - simpl in Hstep. destruct (leavesInFlight i) as [|n]; [discriminate|].
    injection Hstep as <-. simpl.
    destruct (leave_resume_flags o (world i)) as (Hl' & Hj' & _).
    rewrite Hj', Hl'. split; [exact Hj | discriminate].
  - injection Hstep as <-. simpl. split; discriminate.
  - injection Hstep as <-. simpl. split; assumption.
Qed.

Lemma run_tracks_requests (es : list Event) :
  forall i i',
    run config options i es = Some i' ->
    (WaitlistState.isJoining (state (world i)) = true -> (0 < joinsInFlight i)%nat) ->
    (WaitlistState.isLeaving (state (world i)) = true -> (0 < leavesInFlight i)%nat) ->
    (WaitlistState.isJoining (state (world i')) = true -> (0 < joinsInFlight i')%nat)
    /\ (WaitlistState.isLeaving (state (world i')) = true -> (0 < leavesInFlight i')%nat).
Proof.
  induction es as [|e es IH]; intros i i' Hrun Hj Hl; simpl in Hrun.
  - injection Hrun as <-. split; assumption.
  - destruct (step config options i e) as [i1|] eqn:Hstep; [|discriminate].
    destruct (step_tracks_requests _ _ _ Hstep Hj Hl) as [Hj1 Hl1].
    exact (IH _ _ Hrun Hj1 Hl1).
Qed.

Lemma step_isJoined (i i' : Instance) (e : Event) :
  step config options i e = Some i' ->
  (WaitlistState.isJoined (state (world i)) = false ->
   WaitlistState.isJoined (state (world i')) = true ->
   exists o, e = SettleJoin o /\ joinSucceeded o = true)
  /\ (WaitlistState.isJoined (state (world i)) = true ->
      WaitlistState.isJoined (state (world i')) = false ->
      e = CallReset \/ exists o, e = SettleLeave o /\ leaveSucceeded o = true).
Proof.
  destruct i as [w nj nl]. simpl. intros Hstep.
  destruct e as [emailInput|o|emailInput|o| |v]; simpl in Hstep.
  - assert (E : WaitlistState.isJoined (state (world i'))
                = WaitlistState.isJoined (state w)).
    { destruct (join_begin_flags emailInput w) as (_ & H & _).
      destruct (join_begin config options emailInput w) as [[[r|r]|x] w'];
        injection Hstep as <-; exact H. }
    rewrite E. split; congruence.
  - destruct nj as [|n]; [discriminate|]. injection Hstep as <-. simpl.
    destruct (join_resume_flags o w) as (_ & _ & H). rewrite H.
    split; intros H0 H1; rewrite H0 in H1.
    + rewrite orb_false_r in H1. eauto.
    + rewrite orb_true_r in H1. discriminate.
  - assert (E : WaitlistState.isJoined (state (world i'))
                = WaitlistState.isJoined (state w)).
    { destruct (leave_begin_flags emailInput w) as (_ & H & _).
      destruct (leave_begin config options emailInput w) as [[[r|r]|x] w'];
        injection Hstep as <-; exact H. }
    rewrite E. split; congruence.
  - destruct nl as [|n]; [discriminate|]. injection Hstep as <-. simpl.
    destruct (leave_resume_flags o w) as (_ & _ & H). rewrite H.
    split; intros H0 H1; rewrite H0 in H1.
    + rewrite andb_false_r in H1. discriminate.
    + rewrite andb_true_r in H1. apply negb_false_iff in H1. eauto.
  - injection Hstep as <-. split; intros; [discriminate | auto].
  - injection Hstep as <-. simpl. split; congruence.
Qed.

(** C1 (amended).  In every state that an instance reaches from its initial
    state through calls of [join], [leave], [reset] and [setEmail] and
    through its requests settling, in any order: [isJoining] and [isLeaving]
    are both true only while a request of [join] and a request of [leave]
    are both in flight; [isJoined] changes from false to true only when a
    request of [join] settles with a successful response; and it changes
    from true to false only when a request of [leave] settles with a
    successful response or when [reset] is called. *)
Theorem flags_and_isJoined_transitions (es : list Event) (i : Instance) :
  run config options initialInstance es = Some i ->
  (WaitlistState.isJoining (state (world i)) = true ->
   WaitlistState.isLeaving (state (world i)) = true ->
   (0 < joinsInFlight i)%nat /\ (0 < leavesInFlight i)%nat)
  /\
  (forall e i',
     step config options i e = Some i' ->
     (WaitlistState.isJoined (state (world i)) = false ->
      WaitlistState.isJoined (state (world i')) = true ->
      exists o, e = SettleJoin o /\ joinSucceeded o = true)
     /\ (WaitlistState.isJoined (state (world i)) = true ->
         WaitlistState.isJoined (state (world i')) = false ->
         e = CallReset \/ exists o, e = SettleLeave o /\ leaveSucceeded o = true)).
Proof.
  intros Hrun. split.
  - destruct (run_tracks_requests es _ _ Hrun) as [Hj Hl];
      [discriminate | discriminate |]. auto.
  - intros e i' Hstep. exact (step_isJoined _ _ _ Hstep).
Qed.


End Hook.

(** ** The theorems at the example storefront *)

Lemma join_rejects_invalid_email_witness :
  Validation.isValidEmail (cleaned "user@domain") = false
  /\ (join Storefront.config Storefront.options Storefront.joinOk
        "user@domain" initialWorld).1
     = Normal (JoinWaitlistResponse.failure DEFAULT_ERROR_MESSAGES.invalidEmail)
  /\ effects (join Storefront.config Storefront.options Storefront.joinOk
                "user@domain" initialWorld).2
     = [OnJoinError DEFAULT_ERROR_MESSAGES.invalidEmail]
  /\ requestCount
       (effects (join Storefront.config Storefront.options Storefront.joinOk
                   "user@domain" initialWorld).2) = 0%nat.
Proof.
  assert (H : Validation.isValidEmail (cleaned "user@domain") = false)
    by (vm_compute; reflexivity).
  destruct (join_rejects_invalid_email Storefront.config Storefront.options
              Storefront.joinOk "user@domain" initialWorld H)
    as (_ & He & Hn & _ & _ & _ & Hr).
  split; [exact H | split; [exact (Hr _ eq_refl) | split; [exact He | exact Hn]]].
Defined.

(** C3, as stated, fails when the callback throws: [onJoinError] is invoked
    before the [try] block, so what it throws leaves [join], and the call
    is rejected instead of returning [{success: false, error}]. *)
Lemma invalid_email_rejection_counterexample :
  Validation.isValidEmail (cleaned "user@domain") = false
  /\ (let r := join Storefront.config Storefront.throwingOptions Storefront.joinOk
                 "user@domain" initialWorld in
      r.1 = Throw Storefront.boom
      /\ WaitlistState.error (state r.2) = Some DEFAULT_ERROR_MESSAGES.invalidEmail
      /\ effects r.2 = [OnJoinError DEFAULT_ERROR_MESSAGES.invalidEmail]).
Proof. vm_compute. repeat apply conj; reflexivity. Qed.

Lemma validation_failure_frame_witness :
  Validation.isValidEmail (cleaned "not an email") = false
  /\ state (join Storefront.config Storefront.options Storefront.joinOk
              "not an email" initialWorld).2
     = WaitlistState.set_error (Some DEFAULT_ERROR_MESSAGES.invalidEmail)
         initialState
  /\ (let s :=
        state (join Storefront.config Storefront.options Storefront.joinOk
                 "not an email"
                 (join Storefront.config Storefront.options Storefront.joinOk
                    "User@Example.com" initialWorld).2).2 in
      WaitlistState.successMessage s = Some "ok"
      /\ WaitlistState.error s = Some DEFAULT_ERROR_MESSAGES.invalidEmail).
Proof.
  assert (H : Validation.isValidEmail (cleaned "not an email") = false)
    by (vm_compute; reflexivity).
  destruct (validation_failure_frame Storefront.config Storefront.options
              Storefront.joinOk (fun _ => Rejected JsOther)
              "not an email" initialWorld H) as (Hj & _ & Hs).
  split; [exact H | split; [exact Hj |]].
  destruct (Hs "User@Example.com" 200
              (JoinWaitlistResponse.mk true None (Some "ok") None) initialWorld)
    as (Hm & He & _); try (vm_compute; reflexivity).
  split; [exact Hm | exact He].
Defined.

(** C6, as stated, fails twice.  After a successful [join], a 429 in answer
    to [leave] leaves [isJoined] true, not false.  And when the error
    callback throws, the exception is caught by the [catch] clause: [error]
    ends as the [network] message, not the rate-limited one, the callback
    is invoked twice, and the call is rejected. *)
Lemma rate_limited_counterexample :
  (let w1 := (join Storefront.config Storefront.options Storefront.joinOk
                "user@example.com" initialWorld).2 in
   let l := leave Storefront.config Storefront.options
              (fun _ => Response 429 (inl (JsError "Unexpected token")))
              "user@example.com" w1 in
   l.1 = Normal (LeaveWaitlistResponse.failure DEFAULT_ERROR_MESSAGES.rateLimited)
   /\ WaitlistState.isJoined (state l.2) = true)
  /\
  (let j := join Storefront.config Storefront.throwingOptions
              (fun _ => Response 429 (inl (JsError "Unexpected token")))
              "user@example.com" initialWorld in
   j.1 = Throw Storefront.boom
   /\ WaitlistState.error (state j.2) = Some DEFAULT_ERROR_MESSAGES.network
   /\ WaitlistLog.callbacks (effects j.2)
      = [OnJoinError DEFAULT_ERROR_MESSAGES.rateLimited;
         OnJoinError DEFAULT_ERROR_MESSAGES.network]).
Proof. vm_compute. repeat apply conj; reflexivity. Qed.

(** C2, as stated, fails.  A 200 response [{success: false}] with no
    [error] field makes [join] set the [unknown] message, yet the value it
    returns is the parsed body, which carries no [error]; a 500 response
    whose body says [{success: true}] is a failure that returns [success:
    true]; and when the error callback throws, an application-level
    failure ends with the [network] message in [error] and the call
    rejected, an exception that nothing in the hook handles. *)
Lemma application_failure_result_counterexample :
  (let r := join Storefront.config Storefront.options Storefront.joinRefused
              "user@example.com" initialWorld in
   r.1 = Normal (JoinWaitlistResponse.mk false None None None)
   /\ JoinWaitlistResponse.error (JoinWaitlistResponse.mk false None None None) = None
   /\ JoinWaitlistResponse.isFailure (JoinWaitlistResponse.mk false None None None)
        = false
   /\ WaitlistState.error (state r.2) = Some DEFAULT_ERROR_MESSAGES.unknown)
  /\
  (let body := JoinWaitlistResponse.mk true None None None in
   let r := join Storefront.config Storefront.options
              (fun _ => Response 500 (inr body)) "user@example.com" initialWorld in
   r.1 = Normal body
   /\ JoinWaitlistResponse.isFailure body = false
   /\ WaitlistState.error (state r.2) = Some DEFAULT_ERROR_MESSAGES.unknown
   /\ WaitlistState.isJoined (state r.2) = false)
  /\
  (let r := join Storefront.config Storefront.throwingOptions Storefront.joinRefused
              "user@example.com" initialWorld in
   r.1 = Throw Storefront.boom
   /\ WaitlistState.error (state r.2) = Some DEFAULT_ERROR_MESSAGES.network).
Proof. vm_compute. repeat apply conj; reflexivity. Qed.

Lemma failures_resolve_to_results_witness :
  joinSucceeded (Storefront.joinRefused (joinRequest Storefront.config
                   Storefront.options "user@example.com")) = false
  /\ leaveSucceeded (Rejected (JsError "Failed to fetch")) = false
  /\ (let j := join_resume Storefront.options
                 (Storefront.joinRefused (joinRequest Storefront.config
                    Storefront.options "user@example.com")) initialWorld in
      j.1 = Normal (JoinWaitlistResponse.mk false None None None)
      /\ WaitlistState.error (state j.2) = Some DEFAULT_ERROR_MESSAGES.unknown)
  /\ (let l := leave_resume Storefront.throwingOptions
                 (Rejected (JsError "Failed to fetch")) initialWorld in
      l.1 = Throw Storefront.boom
      /\ WaitlistState.error (state l.2) = Some DEFAULT_ERROR_MESSAGES.network).
Proof.
  destruct (failures_resolve_to_results Storefront.options
              (Storefront.joinRefused (joinRequest Storefront.config
                 Storefront.options "user@example.com"))
              (Rejected (JsError "Failed to fetch")) initialWorld
              eq_refl eq_refl)
    as [(_ & _ & _ & Hret & _) _].
  destruct (failures_resolve_to_results Storefront.throwingOptions
              (Storefront.joinRefused (joinRequest Storefront.config
                 Storefront.options "user@example.com"))
              (Rejected (JsError "Failed to fetch")) initialWorld
              eq_refl eq_refl)
    as [_ (_ & _ & _ & _ & Hthrow)].
  destruct (Hret eq_refl) as (Hr & He & _).
  destruct (Hthrow Storefront.boom eq_refl) as (He' & Hr' & _).
  destruct (Hr' eq_refl) as [Hr'' _].
  split; [reflexivity | split; [reflexivity | split]].
  - split; [exact Hr | exact He].
  - split; [exact Hr'' | exact He'].
Defined.

(** C1, as stated, fails twice.  A [leave] called before the request of a
    [join] has settled leaves [isJoining] and [isLeaving] both true; and
    after a successful [join], [reset] takes [isJoined] back to false
    without any response to a [leave]. *)
Lemma waitlist_invariant_counterexample :
  (exists i,
     run Storefront.config Storefront.options initialInstance
       [CallJoin "user@example.com"; CallLeave "user@example.com"] = Some i
     /\ WaitlistState.isJoining (state (world i)) = true
     /\ WaitlistState.isLeaving (state (world i)) = true)
  /\
  (exists i i',
     run Storefront.config Storefront.options initialInstance
       [CallJoin "user@example.com";
        SettleJoin (Storefront.joinOk
                      (joinRequest Storefront.config Storefront.options
                         "user@example.com"))] = Some i
     /\ step Storefront.config Storefront.options i CallReset = Some i'
     /\ WaitlistState.isJoined (state (world i)) = true
     /\ WaitlistState.isJoined (state (world i')) = false
     /\ leavesInFlight i = 0%nat).
Proof.
  split.
  - eexists. split; [vm_compute; reflexivity | split; reflexivity].
  - eexists _, _. split; [vm_compute; reflexivity |].
    split; [vm_compute; reflexivity | repeat apply conj; reflexivity].
Qed.

Lemma flags_and_isJoined_transitions_witness :
  exists i,
    run Storefront.config Storefront.options initialInstance
      [CallJoin "user@example.com";
       SettleJoin (Storefront.joinOk
                     (joinRequest Storefront.config Storefront.options
                        "user@example.com"));
       CallLeave "user@example.com"] = Some i
    /\ (WaitlistState.isJoining (state (world i)) = true ->
        WaitlistState.isLeaving (state (world i)) = true ->
        (0 < joinsInFlight i)%nat /\ (0 < leavesInFlight i)%nat)
    /\ (forall i',
          step Storefront.config Storefront.options i CallReset = Some i' ->
          WaitlistState.isJoined (state (world i)) = true ->
          WaitlistState.isJoined (state (world i')) = false ->
          CallReset = CallReset
          \/ exists o, CallReset = SettleLeave o /\ leaveSucceeded o = true).
Proof.
  eexists. split; [vm_compute; reflexivity |].
  match goal with
  | |- (_ (state (world ?i)) = true -> _) /\ _ =>
      destruct (flags_and_isJoined_transitions Storefront.config Storefront.options
                  [CallJoin "user@example.com";
                   SettleJoin (Storefront.joinOk
                                 (joinRequest Storefront.config Storefront.options
                                    "user@example.com"));
                   CallLeave "user@example.com"] i)
        as [Hflags Hsteps]; [vm_compute; reflexivity |]
  end.
  split; [exact Hflags |].
  intros i' Hstep. exact (proj2 (Hsteps CallReset i' Hstep)).
Defined.



End WaitlistFacts.

(* ===================================================================== *)
(** * useWaitlistCount: fetchCount, refetch and the count cache *)
(* ===================================================================== *)

Module WaitlistCountFacts.
Import Js JsString Validation Constants WaitlistCount.

Section Hook.

Variable config : RestockBridgeConfig.t.
Variable options : UseWaitlistCountOptions.

Lemma fetchCount_begin_hit (now c : Z) (w : World) :
  cacheHit config options now (countCache w) = Some c ->
  fetchCount_begin config options now w =
    (Normal (inl tt),
     mkWorld (mkHook c (isLoading (hook w)) (error (hook w)))
       (countCache w) (requests w)).
Proof.
  unfold cacheHit, fetchCount_begin, bind, cacheGet, gets. intros H.
  destruct (countCache w !! (cacheKey config options)) as [entry|]; [|discriminate].
  destruct (now - timestamp entry <? cacheDurationOrDefault options);
    [|discriminate].
  injection H as <-. destruct w as [h m l]. reflexivity.
Qed.

Lemma fetchCount_begin_miss (now : Z) (w : World) :
  cacheHit config options now (countCache w) = None ->
  fetchCount_begin config options now w =
    (Normal (inr (countRequest config options)),
     mkWorld (mkHook (hookCount (hook w)) true None)
       (countCache w) (requests w ++ [(countRequest config options)])).
Proof.
  unfold cacheHit, fetchCount_begin, bind, cacheGet, gets. intros H.
  destruct w as [h m l]. simpl in *.
  destruct (m !! (cacheKey config options)) as [entry|]; [|reflexivity].
  destruct (now - timestamp entry <? cacheDurationOrDefault options);
    [discriminate | reflexivity].
Qed.

Lemma fetchCount_resume_404 (now : Z) (json : thrown + WaitlistCountResponse.t)
    (w : World) :
  fetchCount_resume config options now (Response 404 json) w =
    (Normal tt,
     mkWorld (mkHook 0 false (error (hook w)))
       (<[cacheKey config options := mkEntry 0 now]> (countCache w)) (requests w)).
Proof. destruct w as [h m l]. reflexivity. Qed.

Lemma fetchCount_resume_not_ok (now status : Z)
    (json : thrown + WaitlistCountResponse.t) (w : World) :
  ok status = false -> status <> 404 ->
  fetchCount_resume config options now (Response status json) w =
    (Normal tt,
     mkWorld (mkHook 0 false (Some "Failed to fetch waitlist count"))
       (countCache w) (requests w)).
Proof.
  intros Hok Hs. destruct w as [h m l].
  unfold fetchCount_resume, fetchCount_try. rewrite Hok.
  apply Z.eqb_neq in Hs. rewrite Hs. reflexivity.
Qed.

Lemma fetchCount_resume_ok (now status : Z) (result : WaitlistCountResponse.t)
    (w : World) :
  ok status = true ->
  fetchCount_resume config options now (Response status (inr result)) w =
    (Normal tt,
     mkWorld (mkHook (WaitlistCountResponse.count result) false (error (hook w)))
       (<[cacheKey config options := mkEntry (WaitlistCountResponse.count result) now]> (countCache w))
       (requests w)).
Proof.
  intros Hok. destruct w as [h m l].
  unfold fetchCount_resume, fetchCount_try. rewrite Hok. reflexivity.
Qed.

(** Every other way the request can settle: nothing is written. *)
Lemma fetchCount_resume_thrown (now : Z) (o : FetchOutcome WaitlistCountResponse.t)
    (w : World) :
  (exists e, o = Rejected e)
  \/ (exists status e, o = Response status (inl e) /\ ok status = true) ->
  exists msg,
    fetchCount_resume config options now o w =
      (Normal tt,
       mkWorld (mkHook 0 false (Some msg)) (countCache w) (requests w)).
Proof.
  destruct w as [h m l].
  intros [[e ->]|(status & e & -> & Hok)];
    unfold fetchCount_resume, fetchCount_try; rewrite ?Hok;
    destruct e; eexists; reflexivity.
Qed.

Lemma fetchCount_miss net (now now' : Z) (w : World) :
  cacheHit config options now (countCache w) = None ->
  fetchCount config options net now now' w =
    fetchCount_resume config options now' (net (countRequest config options))
      (fetchCount_begin config options now w).2.
Proof.
  intros H. unfold fetchCount, bind. now rewrite (fetchCount_begin_miss _ _ H).
Qed.

Lemma fetchCount_hit net (now now' c : Z) (w : World) :
  cacheHit config options now (countCache w) = Some c ->
  fetchCount config options net now now' w =
    (Normal tt,
     mkWorld (mkHook c (isLoading (hook w)) (error (hook w)))
       (countCache w) (requests w)).
Proof.
  intros H. unfold fetchCount, bind. now rewrite (fetchCount_begin_hit _ _ _ H).
Qed.

(** A miss stays a miss as time passes, as long as the cache is not
    written. *)
Lemma cacheHit_miss_later (now now2 : Z) (cache : gmap string CacheEntry) :
  cacheHit config options now cache = None ->
  now <= now2 ->
  cacheHit config options now2 cache = None.
Proof.
  unfold cacheHit. intros H Hle.
  destruct (cache !! (cacheKey config options)) as [entry|]; [|reflexivity].
  destruct (Z.ltb_spec (now - timestamp entry) (cacheDurationOrDefault options));
    [discriminate|].
  destruct (Z.ltb_spec (now2 - timestamp entry) (cacheDurationOrDefault options));
    [lia | reflexivity].
Qed.

Lemma cacheHit_after_write (t now c : Z) (cache : gmap string CacheEntry) :
  now - t < cacheDurationOrDefault options ->
  cacheHit config options now (<[cacheKey config options := mkEntry c t]> cache) = Some c.
Proof.
  intros H. unfold cacheHit. rewrite lookup_insert_eq. simpl.
  destruct (Z.ltb_spec (now - t) (cacheDurationOrDefault options));
    [reflexivity | lia].
Qed.

Lemma cacheHit_after_delete (now : Z) (cache : gmap string CacheEntry) :
  cacheHit config options now (delete (cacheKey config options) cache) = None.
Proof. unfold cacheHit. now rewrite lookup_delete_eq. Qed.

(** C4.  When the request of [fetchCount] is answered with a status that is
    not 2xx: on 404 the count is 0, the cache receives [{count: 0,
    timestamp: now}] under the key and no error is shown; on any other
    status an error string is set, the count is 0 and the cache is left as
    it was, so that the next [fetchCount] for the key sends a request
    again. *)
Theorem fetchCount_not_ok
    (net : HttpRequest -> FetchOutcome WaitlistCountResponse.t)
    (now now' status : Z) (json : thrown + WaitlistCountResponse.t) (w : World) :
  cacheHit config options now (countCache w) = None ->
  net (countRequest config options) = Response status json ->
  ok status = false ->
  let w' := (fetchCount config options net now now' w).2 in
  (status = 404 ->
     hookCount (hook w') = 0
     /\ error (hook w') = None
     /\ isLoading (hook w') = false
     /\ countCache w' = <[cacheKey config options := mkEntry 0 now']> (countCache w))
  /\ (status <> 404 ->
       error (hook w') = Some "Failed to fetch waitlist count"
       /\ hookCount (hook w') = 0
       /\ isLoading (hook w') = false
       /\ countCache w' = countCache w
       /\ forall now2, now <= now2 ->
            fetchCount_begin config options now2 w' =
              (Normal (inr (countRequest config options)),
               mkWorld (mkHook 0 true None) (countCache w)
                 (requests w' ++ [(countRequest config options)]))).
Proof.
  intros Hmiss Hnet Hok w'. subst w'.
  rewrite (fetchCount_miss net _ _ _ Hmiss), Hnet,
    (fetchCount_begin_miss _ _ Hmiss).
  split.
  - intros ->. rewrite fetchCount_resume_404. repeat apply conj; reflexivity.
  - intros Hs. rewrite (fetchCount_resume_not_ok _ _ _ _ Hok Hs). simpl.
    repeat apply conj; try reflexivity.
    intros now2 Hle.
    now rewrite fetchCount_begin_miss
      by (simpl; now apply (cacheHit_miss_later now)).
Qed.

Lemma cacheHit_fresh (now : Z) (entry : CacheEntry)
    (cache : gmap string CacheEntry) :
  cache !! cacheKey config options = Some entry ->
  now - timestamp entry < cacheDurationOrDefault options ->
  cacheHit config options now cache = Some (count entry).
Proof.
  intros Hk Hage. unfold cacheHit. rewrite Hk.
  destruct (Z.ltb_spec (now - timestamp entry) (cacheDurationOrDefault options));
    [reflexivity | lia].
Qed.

Lemma cacheHit_stale (now : Z) (cache : gmap string CacheEntry) :
  (forall entry, cache !! cacheKey config options = Some entry ->
     cacheDurationOrDefault options <= now - timestamp entry) ->
  cacheHit config options now cache = None.
Proof.
  intros H. unfold cacheHit.
  destruct (cache !! cacheKey config options) as [entry|]; [|reflexivity].
  specialize (H entry eq_refl).
  destruct (Z.ltb_spec (now - timestamp entry) (cacheDurationOrDefault options));
    [lia | reflexivity].
Qed.

Lemma fetchCount_resume_requests (now : Z)
    (o : FetchOutcome WaitlistCountResponse.t) (w : World) :
  requests (fetchCount_resume config options now o w).2 = requests w.
Proof.
  destruct w as [h m l]. unfold fetchCount_resume, fetchCount_try.
  destruct o as [[msg|]|status [[msg|]|result]]; try reflexivity;
    destruct (ok status); simpl; try reflexivity;
    destruct (status =? 404); reflexivity.
Qed.

(** C5.  The key of a hook is its shop domain, a colon and the numeric
    identifier of its variant; its cache window is the [cacheDuration] of
    its options and 60000 ms when none is given.  A [fetchCount] that finds
    an entry under the key whose age is below the window shows the cached
    count, sends no request and leaves the cache alone.  So a [fetchCount]
    that found no such entry, asked the network and was answered (2xx with
    a body, or 404), followed by a second one less than the window after
    the entry was written, sends exactly one request.  [refetch] deletes
    the entry under the key first and therefore always sends a request. *)
Theorem fetchCount_uses_cache
    (net : HttpRequest -> FetchOutcome WaitlistCountResponse.t)
    (now now' : Z) (w : World) :
  let key :=
    RestockBridgeConfig.shopDomain config +:+ ":"
    +:+ extractNumericId (variantId options) in
  let window :=
    match cacheDuration options with
    | Some duration => duration
    | None => 60000
    end in
  (forall entry,
     countCache w !! key = Some entry ->
     now - timestamp entry < window ->
     let r := fetchCount config options net now now' w in
     r.1 = Normal tt
     /\ hookCount (hook r.2) = count entry
     /\ requests r.2 = requests w
     /\ countCache r.2 = countCache w
     /\ (fetchCount_begin config options now w).1 = Normal (inl tt))
  /\ (forall status json net2 now2 now2',
        (forall entry, countCache w !! key = Some entry ->
           window <= now - timestamp entry) ->
        net (countRequest config options) = Response status json ->
        status = 404 \/ (ok status = true /\ exists result, json = inr result) ->
        now2 - now' < window ->
        let w1 := (fetchCount config options net now now' w).2 in
        let w2 := (fetchCount config options net2 now2 now2' w1).2 in
        requests w1 = (requests w ++ [countRequest config options])%list
        /\ countCache w1 !! key = Some (mkEntry (hookCount (hook w1)) now')
        /\ requests w2 = requests w1
        /\ hookCount (hook w2) = hookCount (hook w1))
  /\ (requests (refetch config options net now now' w).2
        = (requests w ++ [countRequest config options])%list
      /\ (refetch_begin config options now w).1
         = Normal (inr (countRequest config options))
      /\ countCache (refetch_begin config options now w).2
         = delete key (countCache w)).
Proof.
  intros key window.
  change key with (cacheKey config options).
  change window with (cacheDurationOrDefault options).
  clear key window.
  split; [|split].
  - intros entry Hk Hage r. subst r.
    pose proof (cacheHit_fresh now entry _ Hk Hage) as Hhit.
    rewrite (fetchCount_hit net _ now' _ _ Hhit), (fetchCount_begin_hit _ _ _ Hhit).
    repeat apply conj; reflexivity.
  - intros status json net2 now2 now2' Hstale Hnet Hans Hfresh w1 w2.
    subst w2 w1. apply cacheHit_stale in Hstale as Hmiss.
    rewrite (fetchCount_miss net _ _ _ Hmiss), Hnet,
      (fetchCount_begin_miss _ _ Hmiss).
    destruct Hans as [->|(Hok & result & ->)].
    + rewrite fetchCount_resume_404.
      rewrite (fetchCount_hit net2 now2 now2' 0)
        by (simpl; now apply cacheHit_after_write).
      simpl. rewrite lookup_insert_eq. repeat apply conj; reflexivity.
    + rewrite (fetchCount_resume_ok _ _ _ _ Hok).
      rewrite (fetchCount_hit net2 now2 now2' (WaitlistCountResponse.count result))
        by (simpl; now apply cacheHit_after_write).
      simpl. rewrite lookup_insert_eq. repeat apply conj; reflexivity.
  - unfold refetch, refetch_begin, bind, cacheDelete, modify.
    rewrite fetchCount_begin_miss by (simpl; apply cacheHit_after_delete).
    simpl. repeat apply conj; try reflexivity.
    now rewrite fetchCount_resume_requests.
Qed.

Lemma cacheHit_expired (t now c : Z) (cache : gmap string CacheEntry) :
  cacheDurationOrDefault options <= now - t ->
  cacheHit config options now (<[cacheKey config options := mkEntry c t]> cache)
  = None.
Proof.
  intros H. unfold cacheHit. rewrite lookup_insert_eq. simpl.
  destruct (Z.ltb_spec (now - t) (cacheDurationOrDefault options));
    [lia | reflexivity].
Qed.

(** X4.  Once [cacheDuration] has elapsed since the entry was written, the
    next [fetchCount] sends a second request. *)
Theorem fetchCount_after_expiry
    (net net2 : HttpRequest -> FetchOutcome WaitlistCountResponse.t)
    (now now' now2 now2' status : Z) (result : WaitlistCountResponse.t)
    (w : World) :
  cacheHit config options now (countCache w) = None ->
  net (countRequest config options) = Response status (inr result) ->
  ok status = true ->
  cacheDurationOrDefault options <= now2 - now' ->
  let w1 := (fetchCount config options net now now' w).2 in
  let w2 := (fetchCount config options net2 now2 now2' w1).2 in
  requests w1 = (requests w ++ [countRequest config options])%list
  /\ requests w2
     = (requests w ++ [countRequest config options; countRequest config options])%list.
Proof.
  intros Hmiss Hnet Hok Hold w1 w2. subst w2 w1.
  rewrite (fetchCount_miss net _ _ _ Hmiss), Hnet,
    (fetchCount_begin_miss _ _ Hmiss), (fetchCount_resume_ok _ _ _ _ Hok).
  split; [reflexivity|].
  rewrite (fetchCount_miss net2) by (simpl; now apply cacheHit_expired).
  rewrite fetchCount_begin_miss by (simpl; now apply cacheHit_expired).
  simpl.
  assert (H : forall o w0,
             requests (fetchCount_resume config options now2' o w0).2
             = requests w0).
  { intros o w0. destruct w0 as [h m l].
    unfold fetchCount_resume, fetchCount_try.
    destruct o as [[msg|]|st [[msg|]|res]]; try reflexivity;
      destruct (ok st); simpl; try reflexivity;
      destruct (st =? 404); reflexivity. }
  rewrite H. simpl. now rewrite <- app_assoc.
Qed.

(** X5.  However the request of [fetchCount] settles, the call returns
    without an exception and with [isLoading] false; and unless the
    response is a 2xx one with a body that parses, the count shown is 0. *)
Theorem fetchCount_settles (now : Z) (o : FetchOutcome WaitlistCountResponse.t)
    (w : World) :
  let r := fetchCount_resume config options now o w in
  r.1 = Normal tt
  /\ isLoading (hook r.2) = false
  /\ ((forall status result, o = Response status (inr result) -> ok status = false) ->
      hookCount (hook r.2) = 0).
Proof.
  destruct w as [h m l]. unfold fetchCount_resume, fetchCount_try.
  destruct o as [[msg|]|status [[msg|]|result]]; simpl;
    try (repeat apply conj; reflexivity);
    destruct (ok status) eqn:Hok; simpl;
    try (repeat apply conj; reflexivity);
    try (destruct (status =? 404); repeat apply conj; reflexivity).
  repeat apply conj; try reflexivity.
  intros H. specialize (H status result eq_refl). congruence.
Qed.

End Hook.

(** C10.  For every non-empty string of digits [N], [extractNumericId] maps
    the global identifier ["gid://shopify/ProductVariant/N"] and the bare
    [N] to [N]; hence two hooks that differ only in the form of the variant
    identifier use the same cache key and send the same request, and
    [fetchCount] and [refetch] behave identically on every cache: they
    read, write and delete the same entry. *)
Theorem same_cache_entry_for_both_id_forms
    (config : RestockBridgeConfig.t) (N : string)
    (autoFetch : option bool) (cacheDuration : option Z) :
  N <> "" ->
  allDigits N = true ->
  let gid := "gid://shopify/ProductVariant/" +:+ N in
  let byGid := mkOptions gid autoFetch cacheDuration in
  let byNumber := mkOptions N autoFetch cacheDuration in
  extractNumericId gid = N
  /\ extractNumericId N = N
  /\ cacheKey config byGid = cacheKey config byNumber
  /\ countRequest config byGid = countRequest config byNumber
  /\ (forall now w,
        fetchCount_begin config byGid now w = fetchCount_begin config byNumber now w)
  /\ (forall now o w,
        fetchCount_resume config byGid now o w
        = fetchCount_resume config byNumber now o w)
  /\ (forall now w,
        refetch_begin config byGid now w = refetch_begin config byNumber now w)
  /\ (forall net now now' w,
        fetchCount config byGid net now now' w
        = fetchCount config byNumber net now now' w)
  /\ (forall net now now' w,
        refetch config byGid net now now' w
        = refetch config byNumber net now now' w).
Proof.
  intros Hne Hd gid byGid byNumber.
  pose proof (ValidationFacts.extractNumericId_gid N Hne Hd) as Hg.
  pose proof (ValidationFacts.extractNumericId_bare N Hd) as Hb.
  assert (Hkey : cacheKey config byGid = cacheKey config byNumber).
  { unfold cacheKey, byGid, byNumber, gid. simpl. now rewrite Hg, Hb. }
  assert (Hreq : countRequest config byGid = countRequest config byNumber).
  { unfold countRequest, countUrl, byGid, byNumber, gid. simpl.
    now rewrite Hg, Hb. }
  assert (Hbegin : forall now w,
             fetchCount_begin config byGid now w
             = fetchCount_begin config byNumber now w).
  { intros now w. unfold fetchCount_begin. now rewrite Hkey, Hreq. }
  assert (Hresume : forall now o w,
             fetchCount_resume config byGid now o w
             = fetchCount_resume config byNumber now o w).
  { intros now o w. unfold fetchCount_resume, fetchCount_try. now rewrite Hkey. }
  assert (Hre : forall now w,
             refetch_begin config byGid now w = refetch_begin config byNumber now w).
  { intros now w. unfold refetch_begin, bind. rewrite Hkey.
    destruct (cacheDelete (cacheKey config byNumber) w) as [[[]|e] w'];
      [apply Hbegin | reflexivity]. }
  repeat apply conj; try assumption.
  - intros net now now' w. unfold fetchCount, bind. rewrite Hbegin.
    destruct (fetchCount_begin config byNumber now w) as [[[[]|req]|e] w'];
      try reflexivity. apply Hresume.
  - intros net now now' w. unfold refetch, bind. rewrite Hre.
    destruct (refetch_begin config byNumber now w) as [[[[]|req]|e] w'];
      try reflexivity. apply Hresume.
Qed.

(** ** The theorems at the example storefront *)

Lemma same_cache_entry_for_both_id_forms_witness :
  extractNumericId "gid://shopify/ProductVariant/123" = "123"
  /\ extractNumericId "123" = "123"
  /\ cacheKey Storefront.config Storefront.countOptions
       = "my-store.myshopify.com:123"
  /\ cacheKey Storefront.config (mkOptions "123" None None)
       = cacheKey Storefront.config Storefront.countOptions.
Proof.
  destruct (same_cache_entry_for_both_id_forms Storefront.config "123" None None)
    as (Hg & Hb & Hk & _); [discriminate | reflexivity |].
  split; [exact Hg | split; [exact Hb | split]].
  - reflexivity.
  - symmetry. exact Hk.
Defined.

Lemma fetchCount_not_ok_witness :
  let net500 := fun _ : HttpRequest =>
    @Response WaitlistCountResponse.t 500 (inl (JsError "Unexpected token")) in
  let net404 := fun _ : HttpRequest =>
    @Response WaitlistCountResponse.t 404 (inl (JsError "Unexpected token")) in
  let w500 := (fetchCount Storefront.config Storefront.countOptions net500
                 1000 1200 Storefront.countWorld).2 in
  let w404 := (fetchCount Storefront.config Storefront.countOptions net404
                 1000 1200 Storefront.countWorld).2 in
  (error (hook w500) = Some "Failed to fetch waitlist count"
   /\ hookCount (hook w500) = 0
   /\ countCache w500 = ∅)
  /\ (error (hook w404) = None
      /\ hookCount (hook w404) = 0
      /\ countCache w404
         = <[cacheKey Storefront.config Storefront.countOptions := mkEntry 0 1200]> ∅).
Proof.
  intros net500 net404 w500 w404.
  destruct (fetchCount_not_ok Storefront.config Storefront.countOptions net500
              1000 1200 500 (inl (JsError "Unexpected token"))
              Storefront.countWorld eq_refl eq_refl eq_refl) as [_ H500].
  destruct (fetchCount_not_ok Storefront.config Storefront.countOptions net404
              1000 1200 404 (inl (JsError "Unexpected token"))
              Storefront.countWorld eq_refl eq_refl eq_refl) as [H404 _].
  destruct H500 as (He & Hc & _ & Hm & _); [discriminate|].
  destruct (H404 eq_refl) as (Hc' & He' & _ & Hm').
  split; [split; [exact He | split; [exact Hc | exact Hm]]
         | split; [exact He' | split; [exact Hc' | exact Hm']]].
Defined.

Lemma fetchCount_uses_cache_witness :
  let options := mkOptions "gid://shopify/ProductVariant/123" None (Some 5000) in
  let net := fun _ : HttpRequest =>
    Response 200 (inr (WaitlistCountResponse.mk "123" 7)) in
  let w1 := (fetchCount Storefront.config options net
               1000 1200 Storefront.countWorld).2 in
  let w2 := (fetchCount Storefront.config options net 6199 6300 w1).2 in
  countCache w1 !! "my-store.myshopify.com:123" = Some (mkEntry 7 1200)
  /\ length (requests w2) = 1%nat
  /\ hookCount (hook w2) = 7
  /\ length (requests (refetch Storefront.config options net 6199 6300 w1).2)
     = 2%nat.
Proof.
  intros options net w1 w2.
  destruct (fetchCount_uses_cache Storefront.config options net
              1000 1200 Storefront.countWorld) as (_ & Htwice & _).
  destruct (Htwice 200 (inr (WaitlistCountResponse.mk "123" 7)) net 6199 6300)
    as (Hreq1 & Hentry & Hreq & Hcount).
  { intros entry H. exfalso. revert H. unfold Storefront.countWorld. simpl.
    rewrite lookup_empty. discriminate. }
  { reflexivity. }
  { right. split; [reflexivity | eexists; reflexivity]. }
  { reflexivity. }
  destruct (fetchCount_uses_cache Storefront.config options net
              6199 6300 w1) as (_ & _ & (Hre & _)).
  split; [exact Hentry | split; [|split]].
  - subst w2 w1. rewrite Hreq, Hreq1. reflexivity.
  - subst w2 w1. rewrite Hcount. reflexivity.
  - rewrite Hre. subst w1. rewrite Hreq1. reflexivity.
Defined.

Lemma fetchCount_after_expiry_witness :
  let net := fun _ : HttpRequest =>
    Response 200 (inr (WaitlistCountResponse.mk "123" 7)) in
  let w1 := (fetchCount Storefront.config Storefront.countOptions net
               1000 1200 Storefront.countWorld).2 in
  let w2 := (fetchCount Storefront.config Storefront.countOptions net
               61200 61300 w1).2 in
  length (requests w1) = 1%nat /\ length (requests w2) = 2%nat.
Proof.
  intros net w1 w2.
  destruct (fetchCount_after_expiry Storefront.config Storefront.countOptions
              net net 1000 1200 61200 61300 200
              (WaitlistCountResponse.mk "123" 7) Storefront.countWorld
              eq_refl eq_refl eq_refl) as [H1 H2].
  { vm_compute. discriminate. }
  subst w2 w1. rewrite H1, H2. split; reflexivity.
Defined.

End WaitlistCountFacts.

(* ===================================================================== *)
(** * The cases of the validation test suite *)
(* ===================================================================== *)

Module ValidationTests.
Import Validation.

Example accepts_valid_emails :
  isValidEmail "user@example.com" = true
  /\ isValidEmail "user+tag@domain.co" = true
  /\ isValidEmail "first.last@domain.org" = true.
Proof. vm_compute. repeat split. Qed.

Example rejects_malformed_emails :
  isValidEmail "" = false
  /\ isValidEmail "userexample.com" = false
  /\ isValidEmail "user@" = false
  /\ isValidEmail "user@domain" = false
  /\ isValidEmail "user @example.com" = false.
Proof. vm_compute. repeat split. Qed.

Example trims_before_validation : isValidEmail "  user@example.com  " = true.
Proof. vm_compute. reflexivity. Qed.

Example extracts_numeric_id :
  extractNumericId "gid://shopify/Product/123456789" = "123456789"
  /\ extractNumericId "gid://shopify/ProductVariant/987654321" = "987654321"
  /\ extractNumericId "123456789" = "123456789"
  /\ extractNumericId "" = "".
Proof. vm_compute. repeat split. Qed.

Example sanitizes_input :
  sanitizeInput "  hello  " = "hello"
  /\ sanitizeInput "<script>alert(1)</script>" = "scriptalert(1)/script"
  /\ sanitizeInput "  <b>hi</b>  " = "bhi/b"
  /\ sanitizeInput "" = "".
Proof. vm_compute. repeat split. Qed.

End ValidationTests.

(* ===================================================================== *)
(** * validation.ts: identifiers, trimming and the cleaned email *)
(* ===================================================================== *)

Module ValidationIdsFacts.
Import Regex RegexFacts JsString Validation ValidationFacts ValidationIds.

Lemma all_chars_app (p : ascii -> bool) (s1 s2 : string) :
  all_chars p (s1 +:+ s2) = all_chars p s1 && all_chars p s2.
Proof.
  induction s1 as [|c s1 IH]; [reflexivity|].
  rewrite append_cons. simpl. now rewrite IH, andb_assoc.
Qed.

Lemma append_assoc (s1 s2 s3 : string) :
  (s1 +:+ s2) +:+ s3 = s1 +:+ (s2 +:+ s3).
Proof.
  induction s1 as [|c s1 IH]; [reflexivity|].
  now rewrite !append_cons, IH.
Qed.

Lemma matches_numericTail (s : string) :
  matches numericTail s = true <->
  exists d, s = String "/" d /\ d <> "" /\ allDigits d = true.
Proof.
  rewrite matches_lang. unfold numericTail. split.
  - inversion 1 as [| |? ? a d Ha Hd| | | |]; subst.
    apply lang_char in Ha. subst a.
    apply lang_plus_cls in Hd as [? ?]. eauto.
  - intros (d & -> & Hne & Hd).
    exact (lang_seq _ _ (String "/" "") d
             (proj2 (lang_char "/" _) eq_refl)
             (proj2 (lang_plus_cls isDigit d) (conj Hne Hd))).
Qed.

Lemma matches_numericRegex (s : string) :
  matches numericRegex s = true <-> s <> "" /\ allDigits s = true.
Proof. rewrite matches_lang. apply lang_plus_cls. Qed.

Lemma search_to_end_sound (r : re) (s m : string) :
  search_to_end r s = Some m ->
  matches r m = true /\ exists pre, s = pre +:+ m.
Proof.
  induction s as [|c s IH].
  - simpl. destruct (nullable r) eqn:E; [|discriminate].
    intros [= <-]. split; [exact E | now exists ""].
  - change (search_to_end r (String c s))
      with (if matches r (String c s) then Some (String c s)
            else search_to_end r s).
    destruct (matches r (String c s)) eqn:E.
    + intros [= <-]. split; [exact E | now exists ""].
    + intros H. destruct (IH H) as [Hm [pre ->]].
      split; [exact Hm | now exists (String c pre)].
Qed.

Lemma slash_not_digit : isDigit "/" = false.
Proof. reflexivity. Qed.

(** The search finds the digits after the last slash, whatever comes
    before. *)
Lemma search_trailing_digits (pre N : string) :
  N <> "" -> allDigits N = true ->
  search_to_end numericTail (pre +:+ String "/" N) = Some (String "/" N).
Proof.
  intros Hne Hd. induction pre as [|c pre IH].
  - rewrite append_nil_l. now apply search_slash_digits.
  - rewrite append_cons.
    change (search_to_end numericTail (String c (pre +:+ String "/" N)))
      with (if matches numericTail (String c (pre +:+ String "/" N))
            then Some (String c (pre +:+ String "/" N))
            else search_to_end numericTail (pre +:+ String "/" N)).
    destruct (matches numericTail (String c (pre +:+ String "/" N))) eqn:E;
      [|exact IH].
    apply matches_numericTail in E as (d & [= -> <-] & _ & Hall).
    unfold allDigits in Hall. rewrite all_chars_app in Hall.
    apply andb_true_iff in Hall as [_ Hall].
    change (all_chars isDigit (String "/" N))
      with (isDigit "/" && all_chars isDigit N) in Hall.
    rewrite slash_not_digit in Hall. discriminate.
Qed.

Lemma extractNumericId_after_slash (pre N : string) :
  N <> "" -> allDigits N = true ->
  extractNumericId (pre +:+ String "/" N) = N.
Proof.
  intros Hne Hd. unfold extractNumericId.
  rewrite bool_decide_eq_false_2
    by (destruct pre; [rewrite append_nil_l | rewrite append_cons]; discriminate).
  now rewrite search_trailing_digits.
Qed.

(** X6.  [extractNumericId] returns the digits after the last slash when its
    argument ends in a slash followed by one or more digits, whatever comes
    before the slash, and returns its argument unchanged otherwise; applying
    it twice is the same as applying it once. *)
Theorem extractNumericId_trailing_digits (gid : string) :
  (forall pre N, gid = pre +:+ String "/" N -> N <> "" -> allDigits N = true ->
     extractNumericId gid = N)
  /\ ((forall pre N, gid = pre +:+ String "/" N -> N <> "" ->
         allDigits N = false) ->
      extractNumericId gid = gid)
  /\ extractNumericId (extractNumericId gid) = extractNumericId gid.
Proof.
  assert (Hsome : forall pre N, gid = pre +:+ String "/" N -> N <> "" ->
            allDigits N = true -> extractNumericId gid = N).
  { intros pre N -> Hne Hd. now apply extractNumericId_after_slash. }
  assert (Hcases : extractNumericId gid = gid
                   \/ exists pre N, gid = pre +:+ String "/" N /\ N <> ""
                                    /\ allDigits N = true).
  { unfold extractNumericId. case_bool_decide as E; [left; now subst|].
    destruct (search_to_end numericTail gid) as [m|] eqn:Hs; [|now left].
    right. apply search_to_end_sound in Hs as [Hm [pre ->]].
    apply matches_numericTail in Hm as (d & -> & Hne & Hd). eauto. }
  split; [exact Hsome | split].
  - intros Hnone. destruct Hcases as [H|(pre & N & -> & Hne & Hd)]; [exact H|].
    rewrite (Hnone pre N eq_refl Hne) in Hd. discriminate.
  - destruct Hcases as [H|(pre & N & E & Hne & Hd)]; [now rewrite H|].
    rewrite (Hsome pre N E Hne Hd). now apply extractNumericId_bare.
Qed.

Lemma lang_lit (p s : string) : lang (lit p) s <-> s = p.
Proof.
  revert s. induction p as [|c p IH]; intros s; simpl.
  - split; [now inversion 1 | intros ->; constructor].
  - split.
    + inversion 1 as [| |? ? a t Ha Ht| | | |]; subst.
      apply lang_char in Ha. apply IH in Ht. now subst.
    + intros ->.
      exact (lang_seq _ _ (String c "") p (proj2 (lang_char c _) eq_refl)
               (proj2 (IH p) eq_refl)).
Qed.

Lemma matches_gid (p s : string) :
  matches (Seq (lit p) (Plus (Cls isDigit))) s = true <->
  exists N, s = p +:+ N /\ N <> "" /\ allDigits N = true.
Proof.
  rewrite matches_lang. split.
  - inversion 1 as [| |? ? a N Ha HN| | | |]; subst.
    apply lang_lit in Ha. subst a. apply lang_plus_cls in HN as [? ?]. eauto.
  - intros (N & -> & Hne & Hd).
    apply lang_seq; [now apply lang_lit | now apply lang_plus_cls].
Qed.

Lemma isValidVariantId_iff (s : string) :
  isValidVariantId s = true <->
  (s <> "" /\ allDigits s = true)
  \/ exists N, s = "gid://shopify/ProductVariant/" +:+ N
               /\ N <> "" /\ allDigits N = true.
Proof.
  unfold isValidVariantId, variantGidRegex. case_bool_decide as E.
  - subst s. split; [discriminate|].
    intros [[? _]|(N & H & _)]; [congruence|].
    rewrite append_cons in H. discriminate H.
  - rewrite orb_true_iff, matches_gid, matches_numericRegex. tauto.
Qed.

Lemma isValidProductId_iff (s : string) :
  isValidProductId s = true <->
  (s <> "" /\ allDigits s = true)
  \/ exists N, s = "gid://shopify/Product/" +:+ N
               /\ N <> "" /\ allDigits N = true.
Proof.
  unfold isValidProductId, productGidRegex. case_bool_decide as E.
  - subst s. split; [discriminate|].
    intros [[? _]|(N & H & _)]; [congruence|].
    rewrite append_cons in H. discriminate H.
  - rewrite orb_true_iff, matches_gid, matches_numericRegex. tauto.
Qed.

(** X7.  [isValidVariantId] accepts exactly the non-empty digit strings and
    the strings ["gid://shopify/ProductVariant/"] followed by one or more
    digits, and [isValidProductId] the same with ["gid://shopify/Product/"];
    so a digit string is valid as both, while a global identifier of one
    resource type is never valid as the other. *)
Theorem identifier_validity (s : string) :
  (isValidVariantId s = true <->
     (s <> "" /\ allDigits s = true)
     \/ exists N, s = "gid://shopify/ProductVariant/" +:+ N
                  /\ N <> "" /\ allDigits N = true)
  /\ (isValidProductId s = true <->
        (s <> "" /\ allDigits s = true)
        \/ exists N, s = "gid://shopify/Product/" +:+ N
                     /\ N <> "" /\ allDigits N = true)
  /\ (isValidVariantId s = true -> isValidProductId s = true ->
        allDigits s = true)
  /\ (forall N, isValidProductId ("gid://shopify/ProductVariant/" +:+ N) = false)
  /\ (forall N, isValidVariantId ("gid://shopify/Product/" +:+ N) = false).
Proof.
  split; [apply isValidVariantId_iff | split; [apply isValidProductId_iff|]].
  assert (Hv : forall N, isValidProductId ("gid://shopify/ProductVariant/" +:+ N)
                         = false).
  { intros N. apply not_true_iff_false. intros H.
    apply isValidProductId_iff in H as [[_ H]|(M & H & _ & Hd)].
    - rewrite append_cons in H. discriminate H.
    - rewrite !append_cons, !append_nil_l in H. simplify_eq. }
  assert (Hp : forall N, isValidVariantId ("gid://shopify/Product/" +:+ N)
                         = false).
  { intros N. apply not_true_iff_false. intros H.
    apply isValidVariantId_iff in H as [[_ H]|(M & H & Hne & Hd)].
    - rewrite append_cons in H. discriminate H.
    - rewrite !append_cons, !append_nil_l in H. simplify_eq. }
  split; [|split; assumption].
  intros H1 H2.
  apply isValidVariantId_iff in H1 as [[_ H1]|(N & -> & _)]; [exact H1|].
  rewrite Hv in H2. discriminate.
Qed.

(** X8.  For every valid variant or product identifier, [extractNumericId]
    returns its digits: a non-empty digit string, which is itself a valid
    identifier of both kinds and which [extractNumericId] leaves as it
    is. *)
Theorem extractNumericId_of_valid_id (s : string) :
  isValidVariantId s = true \/ isValidProductId s = true ->
  let n := extractNumericId s in
  n <> "" /\ allDigits n = true
  /\ isValidVariantId n = true /\ isValidProductId n = true
  /\ extractNumericId n = n
  /\ (s = n \/ s = "gid://shopify/ProductVariant/" +:+ n
      \/ s = "gid://shopify/Product/" +:+ n).
Proof.
  intros H n.
  assert (Hn : n <> "" /\ allDigits n = true
               /\ (s = n \/ s = "gid://shopify/ProductVariant/" +:+ n
                   \/ s = "gid://shopify/Product/" +:+ n)).
  { subst n. destruct H as [H|H].
    - apply isValidVariantId_iff in H as [[Hne Hd]|(N & -> & Hne & Hd)].
      + rewrite (extractNumericId_bare s Hd). auto.
      + rewrite (extractNumericId_gid N Hne Hd). auto.
    - apply isValidProductId_iff in H as [[Hne Hd]|(N & -> & Hne & Hd)].
      + rewrite (extractNumericId_bare s Hd). auto.
      + change ("gid://shopify/Product/" +:+ N)
          with ("gid://shopify/Product" +:+ String "/" N).
        rewrite (extractNumericId_after_slash "gid://shopify/Product" N Hne Hd).
        change ("gid://shopify/Product" +:+ String "/" N)
          with ("gid://shopify/Product/" +:+ N). auto. }
  destruct Hn as (Hne & Hd & Hs).
  repeat apply conj; try assumption.
  - apply isValidVariantId_iff. now left.
  - apply isValidProductId_iff. now left.
  - now apply extractNumericId_bare.
Qed.

(** ** Trimming *)

Lemma trimStart_space (a s : string) :
  all_chars isWhiteSpace a = true -> trimStart (a +:+ s) = trimStart s.
Proof.
  induction a as [|c a IH]; [reflexivity|]. simpl. intros H.
  apply andb_true_iff in H as [Hc Ha]. rewrite ?append_cons. simpl.
  rewrite Hc. now apply IH.
Qed.

Lemma trimEnd_space (b : string) :
  all_chars isWhiteSpace b = true -> trimEnd b = "".
Proof.
  induction b as [|c b IH]; [reflexivity|]. simpl. intros H.
  apply andb_true_iff in H as [Hc Hb]. now rewrite (IH Hb), Hc.
Qed.

Lemma trimEnd_app_space (s b : string) :
  all_chars isWhiteSpace b = true -> trimEnd (s +:+ b) = trimEnd s.
Proof.
  intros Hb. induction s as [|c s IH].
  - rewrite append_nil_l. now apply trimEnd_space.
  - rewrite append_cons. simpl. now rewrite IH.
Qed.

Lemma trimStart_app_space (s b : string) :
  all_chars isWhiteSpace b = true ->
  trimStart (s +:+ b) = trimStart s +:+ b
  \/ (trimStart (s +:+ b) = "" /\ trimStart s = "").
Proof.
  intros Hb. induction s as [|c s IH].
  - right. rewrite append_nil_l. split; [|reflexivity].
    rewrite <- (append_empty_r b). now rewrite trimStart_space.
  - rewrite append_cons. simpl. destruct (isWhiteSpace c); [exact IH|].
    left. now rewrite append_cons.
Qed.

Lemma trim_surrounding_space (a s b : string) :
  all_chars isWhiteSpace a = true ->
  all_chars isWhiteSpace b = true ->
  trim (a +:+ s +:+ b) = trim s.
Proof.
  intros Ha Hb. unfold trim. rewrite (trimStart_space a _ Ha).
  destruct (trimStart_app_space s b Hb) as [->|[-> ->]]; [|reflexivity].
  now apply trimEnd_app_space.
Qed.

Lemma trimStart_head (s : string) :
  trimStart s = ""
  \/ exists c t, trimStart s = String c t /\ isWhiteSpace c = false.
Proof.
  induction s as [|c s IH]; [now left|]. simpl.
  destruct (isWhiteSpace c) eqn:E; [exact IH | right; eauto].
Qed.

Lemma trimEnd_idempotent (u : string) : trimEnd (trimEnd u) = trimEnd u.
Proof.
  induction u as [|c u IH]; [reflexivity|]. simpl.
  destruct (trimEnd u) as [|d v] eqn:E.
  - destruct (isWhiteSpace c) eqn:Ec; [reflexivity|]. simpl. now rewrite Ec.
  - change (trimEnd (String c (String d v)))
      with (match trimEnd (String d v) with
            | "" => if isWhiteSpace c then "" else String c ""
            | String x y => String c (String x y)
            end).
    now rewrite IH.
Qed.

Lemma trim_idempotent (s : string) : trim (trim s) = trim s.
Proof.
  unfold trim.
  destruct (trimStart_head s) as [->|(c & t & -> & Hc)]; [reflexivity|].
  assert (Hhead : exists v, trimEnd (String c t) = String c v).
  { simpl. destruct (trimEnd t); [rewrite Hc|]; eauto. }
  destruct Hhead as [v Hv]. rewrite Hv. simpl trimStart. rewrite Hc.
  rewrite <- Hv. apply trimEnd_idempotent.
Qed.

(** X9.  White space around an address never changes the verdict of
    [isValidEmail]: the address is judged as if it had been trimmed. *)
Theorem isValidEmail_ignores_surrounding_space (a s b : string) :
  all_chars isWhiteSpace a = true ->
  all_chars isWhiteSpace b = true ->
  isValidEmail (a +:+ s +:+ b) = isValidEmail s
  /\ isValidEmail (trim s) = isValidEmail s.
Proof.
  intros Ha Hb.
  assert (Hempty : matches emailRegex "" = false) by reflexivity.
  assert (Hsur : isValidEmail (a +:+ s +:+ b) = isValidEmail s).
  { unfold isValidEmail. rewrite (trim_surrounding_space a s b Ha Hb).
    case_bool_decide as E1; case_bool_decide as E2; try reflexivity.
    - apply append_eq_empty in E1 as [_ E1].
      apply append_eq_empty in E1 as [E1 _]. contradiction.
    - subst s. reflexivity. }
  split; [exact Hsur|].
  unfold isValidEmail.
  pose proof (trim_idempotent s) as Hidem.
  rewrite Hidem.
  case_bool_decide as E1; case_bool_decide as E2; try reflexivity.
  - rewrite E1. exact (eq_sym Hempty).
  - subst s. contradiction.
Qed.

(** ** Lower-casing *)

Lemma lowerChar_not_upper (c : ascii) : isAsciiUpper (lowerChar c) = false.
Proof. destruct c as [[] [] [] [] [] [] [] []]; reflexivity. Qed.

Lemma lowerChar_idempotent (c : ascii) : lowerChar (lowerChar c) = lowerChar c.
Proof. destruct c as [[] [] [] [] [] [] [] []]; reflexivity. Qed.

Lemma lowerChar_bracket (c : ascii) :
  isChar "<" (lowerChar c) || isChar ">" (lowerChar c)
  = isChar "<" c || isChar ">" c.
Proof. destruct c as [[] [] [] [] [] [] [] []]; reflexivity. Qed.

Lemma lowerChar_space (c : ascii) : isWhiteSpace (lowerChar c) = isWhiteSpace c.
Proof. destruct c as [[] [] [] [] [] [] [] []]; reflexivity. Qed.

Lemma length_map_chars (f : ascii -> ascii) (s : string) :
  String.length (map_chars f s) = String.length s.
Proof. induction s as [|c s IH]; simpl; [reflexivity | now rewrite IH]. Qed.

Lemma all_chars_map (p : ascii -> bool) (f : ascii -> ascii) (s : string) :
  all_chars p (map_chars f s) = all_chars (fun c => p (f c)) s.
Proof. induction s as [|c s IH]; simpl; [reflexivity | now rewrite IH]. Qed.

Lemma all_chars_ext (p q : ascii -> bool) (s : string) :
  (forall c, p c = q c) -> all_chars p s = all_chars q s.
Proof.
  intros H. induction s as [|c s IH]; simpl; [reflexivity | now rewrite H, IH].
Qed.

Lemma all_chars_true (s : string) : all_chars (fun _ => true) s = true.
Proof. induction s as [|c s IH]; simpl; auto. Qed.

Lemma all_chars_and (p q : ascii -> bool) (s : string) :
  all_chars (fun c => p c && q c) s = all_chars p s && all_chars q s.
Proof.
  induction s as [|c s IH]; simpl; [reflexivity|]. rewrite IH.
  destruct (p c), (q c), (all_chars p s); reflexivity.
Qed.

(** X10.  The email that [join] and [leave] validate and send,
    [sanitizeInput(emailInput).toLowerCase()], has no angle bracket and no
    upper-case letter [A]-[Z], and lower-casing it again changes nothing.
    Its length is not bounded by 500: the cut of [sanitizeInput] comes
    before the lower-casing. *)
Theorem cleaned_email_normal_form (emailInput : string) :
  let e := Waitlist.cleaned emailInput in
  all_chars (fun c => negb (isChar "<" c || isChar ">" c)) e = true
  /\ all_chars (fun c => negb (isAsciiUpper c)) e = true
  /\ toLowerCase e = e.
Proof.
  intros e. subst e. unfold Waitlist.cleaned, toLowerCase.
  assert (Hbr : all_chars (fun c => negb (isChar "<" c || isChar ">" c))
                  (sanitizeInput emailInput) = true).
  { unfold sanitizeInput. case_bool_decide; [reflexivity|].
    apply all_chars_slice0, all_chars_filter. }
  repeat apply conj.
  - rewrite all_chars_map.
    rewrite (all_chars_ext _ (fun c => negb (isChar "<" c || isChar ">" c)));
      [exact Hbr | intros c; now rewrite lowerChar_bracket].
  - rewrite all_chars_map.
    rewrite (all_chars_ext _ (fun _ => true));
      [apply all_chars_true | intros c; now rewrite lowerChar_not_upper].
  - clear Hbr.
    induction (sanitizeInput emailInput) as [|c s IH]; simpl;
      [reflexivity | now rewrite lowerChar_idempotent, IH].
Qed.

(** ** Letter case *)

Lemma deriv_respect (f : ascii -> ascii) (c : ascii) (r : re) :
  classes_respect f r -> deriv (f c) r = deriv c r.
Proof.
  induction r as [| |p|r1 IH1 r2 IH2|r1 IH1 r2 IH2|r1 IH1]; simpl; intros H;
    try reflexivity.
  - now rewrite H.
  - destruct H as [H1 H2]. now rewrite (IH1 H1), (IH2 H2).
  - destruct H as [H1 H2]. now rewrite (IH1 H1), (IH2 H2).
  - now rewrite (IH1 H).
Qed.

Lemma classes_respect_deriv (f : ascii -> ascii) (c : ascii) (r : re) :
  classes_respect f r -> classes_respect f (deriv c r).
Proof.
  induction r as [| |p|r1 IH1 r2 IH2|r1 IH1 r2 IH2|r1 IH1]; simpl; intros H;
    auto.
  - destruct (p c); exact I.
  - destruct H as [H1 H2]. destruct (nullable r1); simpl; auto.
  - destruct H as [H1 H2]. auto.
Qed.

Lemma matches_map_chars (f : ascii -> ascii) (s : string) :
  forall r, classes_respect f r -> matches r (map_chars f s) = matches r s.
Proof.
  induction s as [|c s IH]; intros r H; simpl; [reflexivity|].
  rewrite (deriv_respect f c r H). apply IH. now apply classes_respect_deriv.
Qed.

Lemma trimStart_map_chars (f : ascii -> ascii) (s : string) :
  (forall c, isWhiteSpace (f c) = isWhiteSpace c) ->
  trimStart (map_chars f s) = map_chars f (trimStart s).
Proof.
  intros H. induction s as [|c s IH]; simpl; [reflexivity|].
  rewrite H. destruct (isWhiteSpace c); [exact IH | reflexivity].
Qed.

Lemma trimEnd_map_chars (f : ascii -> ascii) (s : string) :
  (forall c, isWhiteSpace (f c) = isWhiteSpace c) ->
  trimEnd (map_chars f s) = map_chars f (trimEnd s).
Proof.
  intros H. induction s as [|c s IH]; simpl; [reflexivity|].
  rewrite IH, H. destruct (trimEnd s); simpl; [|reflexivity].
  destruct (isWhiteSpace c); reflexivity.
Qed.

Lemma lowerChar_notSpaceNorAt (c : ascii) :
  notSpaceNorAt (lowerChar c) = notSpaceNorAt c.
Proof. destruct c as [[] [] [] [] [] [] [] []]; reflexivity. Qed.

Lemma lowerChar_at (c : ascii) : isChar "@" (lowerChar c) = isChar "@" c.
Proof. destruct c as [[] [] [] [] [] [] [] []]; reflexivity. Qed.

Lemma lowerChar_dot (c : ascii) : isChar "." (lowerChar c) = isChar "." c.
Proof. destruct c as [[] [] [] [] [] [] [] []]; reflexivity. Qed.

(** X26.  The verdict of [isValidEmail] does not depend on letter case: an
    address is valid exactly when its lower-cased form is, so [join] and
    [leave], which validate the lower-cased sanitized input, accept an input
    exactly when [isValidEmail] accepts the sanitized input itself. *)
Theorem isValidEmail_ignores_case (email : string) :
  isValidEmail (toLowerCase email) = isValidEmail email
  /\ isValidEmail (Waitlist.cleaned email) = isValidEmail (sanitizeInput email).
Proof.
  assert (H : forall s, isValidEmail (toLowerCase s) = isValidEmail s).
  { intros s. unfold isValidEmail, toLowerCase, trim.
    rewrite (trimStart_map_chars lowerChar s lowerChar_space),
      (trimEnd_map_chars lowerChar _ lowerChar_space).
    rewrite matches_map_chars
      by (unfold emailRegex, Plus; simpl; repeat split; intros c;
          first [apply lowerChar_notSpaceNorAt | apply lowerChar_at
                | apply lowerChar_dot]).
    destruct s; reflexivity. }
  split; [apply H | apply (H (sanitizeInput email))].
Qed.

Lemma filter_chars_all (keep : ascii -> bool) (s : string) :
  all_chars keep s = true -> filter_chars keep s = s.
Proof.
  induction s as [|c s IH]; simpl; [reflexivity|]. intros H.
  apply andb_true_iff in H as [Hc Hs]. now rewrite Hc, (IH Hs).
Qed.

Lemma slice0_short (n : nat) :
  forall s, (String.length s <= n)%nat -> slice0 n s = s.
Proof.
  unfold slice0. induction n as [|n IH]; intros [|c s]; simpl; intros H;
    try reflexivity; try lia.
  rewrite IH by lia. reflexivity.
Qed.

(** X27.  An address that is already in the form [join] sends -- no white
    space at either end, no angle bracket, no upper-case letter, at most
    500 code units -- is sent exactly as typed. *)
Theorem cleaned_is_identity_on_plain_input (email : string) :
  trim email = email ->
  all_chars (fun c => negb (isChar "<" c || isChar ">" c)) email = true ->
  toLowerCase email = email ->
  (String.length email <= 500)%nat ->
  Waitlist.cleaned email = email.
Proof.
  intros Ht Hb Hl Hlen. unfold Waitlist.cleaned, sanitizeInput.
  case_bool_decide as E; [now subst|].
  now rewrite Ht, (filter_chars_all _ _ Hb), (slice0_short _ _ Hlen).
Qed.

Lemma extractNumericId_of_valid_id_witness :
  isValidVariantId "gid://shopify/ProductVariant/42" = true
  /\ extractNumericId "gid://shopify/ProductVariant/42" = "42"
  /\ isValidProductId (extractNumericId "gid://shopify/ProductVariant/42") = true.
Proof.
  assert (H : isValidVariantId "gid://shopify/ProductVariant/42" = true)
    by (vm_compute; reflexivity).
  destruct (extractNumericId_of_valid_id "gid://shopify/ProductVariant/42"
              (or_introl H)) as (_ & _ & _ & Hp & _).
  split; [exact H | split; [reflexivity | exact Hp]].
Defined.

Lemma isValidEmail_ignores_surrounding_space_witness :
  isValidEmail ("  " +:+ "user@example.com" +:+ " ") = true.
Proof.
  destruct (isValidEmail_ignores_surrounding_space "  " "user@example.com" " "
              eq_refl eq_refl) as [H _].
  rewrite H. reflexivity.
Defined.

Lemma cleaned_is_identity_on_plain_input_witness :
  Waitlist.cleaned "user+tag@domain.co" = "user+tag@domain.co".
Proof.
  apply cleaned_is_identity_on_plain_input; try reflexivity.
  simpl. lia.
Defined.

End ValidationIdsFacts.

(* ===================================================================== *)
(** * useWaitlist: requests, callbacks and the two messages *)
(* ===================================================================== *)

Module WaitlistMore.
Import Js JsString Validation Constants Waitlist WaitlistLog WaitlistFacts.

Section Hook.

Variable config : RestockBridgeConfig.t.
Variable options : UseWaitlistOptions.




(** What a settling request adds to the log: callback invocations only. *)
Lemma join_resume_effects (o : FetchOutcome JoinWaitlistResponse.t) (w : World) :
  exists new,
    effects (join_resume options o w).2 = (effects w ++ new)%list
    /\ callbacks new = new /\ (length new <= 2)%nat.
Proof.
  destruct (join_resume_cases options o w)
    as [(_ & _ & ->)|[(_ & _ & _ & ->)|[(_ & _ & _ & ->)
       |[(_ & st & res & _ & _ & ->)|(_ & st & res & _ & _ & ->)]]]];
    eexists; (split; [reflexivity|]);
    unfold invoked; destruct (onJoinError options), (onJoinSuccess options);
    split; simpl; try reflexivity; lia.
Qed.

Lemma leave_resume_effects (o : FetchOutcome LeaveWaitlistResponse.t) (w : World) :
  exists new,
    effects (leave_resume options o w).2 = (effects w ++ new)%list
    /\ callbacks new = new /\ (length new <= 2)%nat.
Proof.
  destruct (leave_resume_cases options o w)
    as [(_ & _ & ->)|[(_ & _ & _ & ->)|[(_ & _ & _ & ->)
       |[(_ & st & res & _ & _ & ->)|(_ & st & res & _ & _ & ->)]]]];
    eexists; (split; [reflexivity|]);
    unfold invoked; destruct (onLeaveError options), (onLeaveSuccess options);
    split; simpl; try reflexivity; lia.
Qed.

Lemma requestCount_of_callbacks (l : list Effect) :
  requestCount (callbacks l) = 0%nat.
Proof.
  unfold callbacks, requestCount.
  induction l as [|e l IH]; [reflexivity|]. simpl.
  destruct (isFetch e) eqn:E; simpl; rewrite ?E; simpl; exact IH.
Qed.

Lemma requestCount_callbacks (l : list Effect) :
  callbacks l = l -> requestCount l = 0%nat.
Proof. intros H. rewrite <- H. apply requestCount_of_callbacks. Qed.

Lemma join_requests net (emailInput : string) (w : World) :
  requestCount (effects (join config options net emailInput w).2)
  = (requestCount (effects w)
     + if isValidEmail (cleaned emailInput) then 1 else 0)%nat.
Proof.
  destruct (isValidEmail (cleaned emailInput)) eqn:Hv.
  - rewrite (join_valid _ _ net _ w Hv).
    match goal with
    | |- context [join_resume options ?o ?w1] =>
        destruct (join_resume_effects o w1) as (new & -> & Hnew & _)
    end.
    simpl. rewrite !requestCount_app, (requestCount_callbacks _ Hnew).
    unfold requestCount at 2. simpl. lia.
  - rewrite (join_invalid _ _ net _ w Hv). simpl.
    rewrite requestCount_app, requestCount_invoked by reflexivity. lia.
Qed.

Lemma leave_requests net (emailInput : string) (w : World) :
  requestCount (effects (leave config options net emailInput w).2)
  = (requestCount (effects w)
     + if isValidEmail (cleaned emailInput) then 1 else 0)%nat.
Proof.
  destruct (isValidEmail (cleaned emailInput)) eqn:Hv.
  - rewrite (leave_valid _ _ net _ w Hv).
    match goal with
    | |- context [leave_resume options ?o ?w1] =>
        destruct (leave_resume_effects o w1) as (new & -> & Hnew & _)
    end.
    simpl. rewrite !requestCount_app, (requestCount_callbacks _ Hnew).
    unfold requestCount at 2. simpl. lia.
  - rewrite (leave_invalid _ _ net _ w Hv). simpl.
    rewrite requestCount_app, requestCount_invoked by reflexivity. lia.
Qed.

(** X11.  A call of [join] or [leave] sends exactly one request when the
    cleaned email is valid, however the request settles (nothing is
    retried), and none when it is not. *)
Theorem one_request_per_call
    (netJ : HttpRequest -> FetchOutcome JoinWaitlistResponse.t)
    (netL : HttpRequest -> FetchOutcome LeaveWaitlistResponse.t)
    (emailInput : string) (w : World) :
  let n := if isValidEmail (cleaned emailInput) then 1%nat else 0%nat in
  requestCount (effects (join config options netJ emailInput w).2)
    = (requestCount (effects w) + n)%nat
  /\ requestCount (effects (leave config options netL emailInput w).2)
    = (requestCount (effects w) + n)%nat.
Proof.
  intros n. subst n. split; [apply join_requests | apply leave_requests].
Qed.

Lemma joinFailureMessage_empty (o : FetchOutcome JoinWaitlistResponse.t) :
  joinFailureMessage o = "" ->
  exists status result,
    o = Response status (inr result)
    /\ JoinWaitlistResponse.error result = Some "".
Proof.
  destruct o as [e|status [e|result]]; simpl; try discriminate;
    destruct (status =? 429); try discriminate.
  destruct (JoinWaitlistResponse.error result) as [m|] eqn:E; simpl;
    [intros ->; eauto | discriminate].
Qed.

(** ** The two messages after a request has settled *)

Lemma join_resume_messages (o : FetchOutcome JoinWaitlistResponse.t) (w : World) :
  let s' := state (join_resume options o w).2 in
  WaitlistState.email s' = WaitlistState.email (state w)
  /\ (joinSucceeded o = false ->
        WaitlistState.successMessage s' = WaitlistState.successMessage (state w)
        /\ is_Some (WaitlistState.error s'))
  /\ (joinSucceeded o = true ->
        is_Some (WaitlistState.successMessage s')
        /\ (WaitlistState.error s' = WaitlistState.error (state w)
            \/ WaitlistState.error s' = Some DEFAULT_ERROR_MESSAGES.network
               /\ exists log a e,
                    thrownBy (onJoinSuccess options) log a = Some e)).
Proof.
  destruct (join_resume_cases options o w)
    as [(Hs & _ & ->)|[(Hs & _ & _ & ->)|[(Hs & _ & _ & ->)
       |[(Hs & st & res & _ & _ & ->)|(Hs & st & res & _ & (e & He) & ->)]]]];
    rewrite Hs; simpl;
    (split; [reflexivity | split; intros; try discriminate; split; eauto 10]).
Qed.

Lemma leave_resume_messages (o : FetchOutcome LeaveWaitlistResponse.t) (w : World) :
  let s' := state (leave_resume options o w).2 in
  WaitlistState.email s' = WaitlistState.email (state w)
  /\ (leaveSucceeded o = false ->
        WaitlistState.successMessage s' = WaitlistState.successMessage (state w)
        /\ is_Some (WaitlistState.error s'))
  /\ (leaveSucceeded o = true ->
        is_Some (WaitlistState.successMessage s')
        /\ (WaitlistState.error s' = WaitlistState.error (state w)
            \/ WaitlistState.error s' = Some DEFAULT_ERROR_MESSAGES.network
               /\ exists log a e,
                    thrownBy (onLeaveSuccess options) log a = Some e)).
Proof.
  destruct (leave_resume_cases options o w)
    as [(Hs & _ & ->)|[(Hs & _ & _ & ->)|[(Hs & _ & _ & ->)
       |[(Hs & st & res & _ & _ & ->)|(Hs & st & res & _ & (e & He) & ->)]]]];
    rewrite Hs; simpl;
    (split; [reflexivity | split; intros; try discriminate; split; eauto 10]).
Qed.



(** The [error] cell after a call that succeeded. *)
Lemma join_success_error net (emailInput : string) (w : World)
    (status : Z) (result : JoinWaitlistResponse.t) :
  isValidEmail (cleaned emailInput) = true ->
  net (joinRequest config options (cleaned emailInput))
    = Response status (inr result) ->
  joinSucceeded (Response status (inr result)) = true ->
  WaitlistState.error (state (join config options net emailInput w).2) =
    match thrownBy (onJoinSuccess options)
            (effects w ++ [Fetch (joinRequest config options (cleaned emailInput))])
            result with
    | None => None
    | Some _ => Some DEFAULT_ERROR_MESSAGES.network
    end.
Proof.
  intros Hv Hnet Hs. rewrite (join_valid _ _ net _ w Hv), Hnet.
  destruct (joinSucceeded_inv _ Hs) as (st & res & [= <- <-] & _ & Hok & Hsu).
  match goal with
  | |- context [join_resume options ?o ?w1] =>
      destruct (thrownBy (onJoinSuccess options) (effects w1) result)
        as [e|] eqn:Hcb;
      [rewrite (join_resume_success_thrown _ _ _ _ _ Hok Hsu Hcb)
      |rewrite (join_resume_success _ _ _ _ Hok Hsu Hcb)]
  end; simpl in Hcb |- *; now rewrite Hcb.
Qed.

Lemma leave_success_error net (emailInput : string) (w : World)
    (status : Z) (result : LeaveWaitlistResponse.t) :
  isValidEmail (cleaned emailInput) = true ->
  net (leaveRequest config options (cleaned emailInput))
    = Response status (inr result) ->
  leaveSucceeded (Response status (inr result)) = true ->
  WaitlistState.error (state (leave config options net emailInput w).2) =
    match thrownBy (onLeaveSuccess options)
            (effects w ++ [Fetch (leaveRequest config options (cleaned emailInput))])
            result with
    | None => None
    | Some _ => Some DEFAULT_ERROR_MESSAGES.network
    end.
Proof.
  intros Hv Hnet Hs. rewrite (leave_valid _ _ net _ w Hv), Hnet.
  destruct (leaveSucceeded_inv _ Hs) as (st & res & [= <- <-] & _ & Hok & Hsu).
  match goal with
  | |- context [leave_resume options ?o ?w1] =>
      destruct (thrownBy (onLeaveSuccess options) (effects w1) result)
        as [e|] eqn:Hcb;
      [rewrite (leave_resume_success_thrown _ _ _ _ _ Hok Hsu Hcb)
      |rewrite (leave_resume_success _ _ _ _ Hok Hsu Hcb)]
  end; simpl in Hcb |- *; now rewrite Hcb.
Qed.

Lemma join_settled_messages net (emailInput : string) (w : World) :
  isValidEmail (cleaned emailInput) = true ->
  let j := state (join config options net emailInput w).2 in
  let okJ := joinSucceeded (net (joinRequest config options (cleaned emailInput))) in
  bool_decide (is_Some (WaitlistState.successMessage j)) = okJ
  /\ (okJ = false -> is_Some (WaitlistState.error j))
  /\ (okJ = true ->
        WaitlistState.error j = None
        \/ WaitlistState.error j = Some DEFAULT_ERROR_MESSAGES.network
           /\ exists log r e, thrownBy (onJoinSuccess options) log r = Some e)
  /\ WaitlistState.isJoining j = false
  /\ WaitlistState.email j = WaitlistState.email (state w).
Proof.
  intros Hv j okJ. subst j okJ.
  rewrite (join_valid _ _ net _ w Hv).
  match goal with
  | |- context [join_resume options ?o ?w1] =>
      destruct (join_resume_messages o w1) as (He & Hf & Hs);
      destruct (join_resume_flags options o w1) as (Hg & _);
      destruct (joinSucceeded o) eqn:Hok
  end.
  - destruct (Hs eq_refl) as [Hm Herr].
    split; [now apply bool_decide_eq_true|].
    split; [discriminate|]. split; [intros _; exact Herr|].
    split; [exact Hg | exact He].
  - destruct (Hf eq_refl) as [Hm Herr].
    split; [rewrite Hm; now apply bool_decide_eq_false; intros [? [=]]|].
    split; [intros _; exact Herr|]. split; [discriminate|].
    split; [exact Hg | exact He].
Qed.

Lemma leave_settled_messages net (emailInput : string) (w : World) :
  isValidEmail (cleaned emailInput) = true ->
  let l := state (leave config options net emailInput w).2 in
  let okL := leaveSucceeded (net (leaveRequest config options (cleaned emailInput))) in
  bool_decide (is_Some (WaitlistState.successMessage l)) = okL
  /\ (okL = false -> is_Some (WaitlistState.error l))
  /\ (okL = true ->
        WaitlistState.error l = None
        \/ WaitlistState.error l = Some DEFAULT_ERROR_MESSAGES.network
           /\ exists log r e, thrownBy (onLeaveSuccess options) log r = Some e)
  /\ WaitlistState.isLeaving l = false
  /\ WaitlistState.email l = WaitlistState.email (state w).
Proof.
  intros Hv l okL. subst l okL.
  rewrite (leave_valid _ _ net _ w Hv).
  match goal with
  | |- context [leave_resume options ?o ?w1] =>
      destruct (leave_resume_messages o w1) as (He & Hf & Hs);
      destruct (leave_resume_flags options o w1) as (Hg & _);
      destruct (leaveSucceeded o) eqn:Hok
  end.
  - destruct (Hs eq_refl) as [Hm Herr].
    split; [now apply bool_decide_eq_true|].
    split; [discriminate|]. split; [intros _; exact Herr|].
    split; [exact Hg | exact He].
  - destruct (Hf eq_refl) as [Hm Herr].
    split; [rewrite Hm; now apply bool_decide_eq_false; intros [? [=]]|].
    split; [intros _; exact Herr|]. split; [discriminate|].
    split; [exact Hg | exact He].
Qed.

(** X13.  After a [join] or a [leave] that runs from its call to its
    return with no other call in between, and whose cleaned email is valid:
    [successMessage] is set exactly when the response succeeded; [error] is
    set whenever it did not; after a success [error] is clear when the
    success callback is not supplied or returns, and holds the [network]
    message when that callback throws, the one situation in which both are
    set.  The in-flight flag of the operation is false again and [email] is
    what it was. *)
Theorem error_or_successMessage
    (netJ : HttpRequest -> FetchOutcome JoinWaitlistResponse.t)
    (netL : HttpRequest -> FetchOutcome LeaveWaitlistResponse.t)
    (emailInput : string) (w : World) :
  isValidEmail (cleaned emailInput) = true ->
  let j := state (join config options netJ emailInput w).2 in
  let l := state (leave config options netL emailInput w).2 in
  let reqJ := joinRequest config options (cleaned emailInput) in
  let reqL := leaveRequest config options (cleaned emailInput) in
  let okJ := joinSucceeded (netJ reqJ) in
  let okL := leaveSucceeded (netL reqL) in
  (bool_decide (is_Some (WaitlistState.successMessage j)) = okJ
   /\ (okJ = false -> is_Some (WaitlistState.error j))
   /\ (forall status result,
         netJ reqJ = Response status (inr result) ->
         okJ = true ->
         WaitlistState.error j =
           match thrownBy (onJoinSuccess options) (effects w ++ [Fetch reqJ])
                   result with
           | None => None
           | Some _ => Some DEFAULT_ERROR_MESSAGES.network
           end)
   /\ WaitlistState.isJoining j = false
   /\ WaitlistState.email j = WaitlistState.email (state w))
  /\ (bool_decide (is_Some (WaitlistState.successMessage l)) = okL
      /\ (okL = false -> is_Some (WaitlistState.error l))
      /\ (forall status result,
            netL reqL = Response status (inr result) ->
            okL = true ->
            WaitlistState.error l =
              match thrownBy (onLeaveSuccess options) (effects w ++ [Fetch reqL])
                      result with
              | None => None
              | Some _ => Some DEFAULT_ERROR_MESSAGES.network
              end)
      /\ WaitlistState.isLeaving l = false
      /\ WaitlistState.email l = WaitlistState.email (state w)).
Proof.
  intros Hv j l reqJ reqL okJ okL. subst j l reqJ reqL okJ okL.
  destruct (join_settled_messages netJ emailInput w Hv) as (J1 & J2 & _ & J4 & J5).
  destruct (leave_settled_messages netL emailInput w Hv) as (L1 & L2 & _ & L4 & L5).
  split.
  - split; [exact J1 | split; [exact J2 | split; [|split; [exact J4 | exact J5]]]].
    intros status result Hnet Hs. rewrite Hnet in Hs.
    exact (join_success_error netJ _ w _ _ Hv Hnet Hs).
  - split; [exact L1 | split; [exact L2 | split; [|split; [exact L4 | exact L5]]]].
    intros status result Hnet Hs. rewrite Hnet in Hs.
    exact (leave_success_error netL _ w _ _ Hv Hnet Hs).
Qed.

(** X14.  [leave] mirrors [join].  With an invalid email it sends nothing,
    sets the invalid-email message, invokes [onLeaveError] (when supplied)
    with it, and returns [{success: false, error}] unless that callback
    throws, which rejects the call.  With a valid email and a successful
    response it ends with [isJoined] false, [isLeaving] false and
    [successMessage] equal to the message of the response or, when it has
    none, to the default one; it returns the response with [error] clear
    when [onLeaveSuccess] is not supplied or returns, and when that
    callback throws [error] is the [network] message and the call
    completes as the [catch] clause does.  [isLeaving] is false when a
    request of [leave] has settled, and whenever no request of [leave] is
    in flight. *)
Theorem leave_settles
    (net : HttpRequest -> FetchOutcome LeaveWaitlistResponse.t)
    (emailInput : string) (w : World) :
  let l := leave config options net emailInput w in
  let req := leaveRequest config options (cleaned emailInput) in
  let invalid := DEFAULT_ERROR_MESSAGES.invalidEmail in
  let network := DEFAULT_ERROR_MESSAGES.network in
  (isValidEmail (cleaned emailInput) = false ->
     l.1 = returnAfter (onLeaveError options) (effects w) invalid
             (LeaveWaitlistResponse.failure invalid)
     /\ WaitlistState.error (state l.2) = Some invalid
     /\ effects l.2 =
          (effects w ++ invoked (onLeaveError options) (OnLeaveError invalid))%list
     /\ requestCount (effects l.2) = requestCount (effects w))
  /\ (isValidEmail (cleaned emailInput) = true ->
      leaveSucceeded (net req) = true ->
      exists status result,
        net req = Response status (inr result)
        /\ WaitlistState.isJoined (state l.2) = false
        /\ WaitlistState.isLeaving (state l.2) = false
        /\ WaitlistState.successMessage (state l.2)
           = Some (default DEFAULT_SUCCESS_MESSAGES.left
                     (LeaveWaitlistResponse.message result))
        /\ (thrownBy (onLeaveSuccess options) (effects w ++ [Fetch req]) result
              = None ->
            l.1 = Normal result /\ WaitlistState.error (state l.2) = None)
        /\ (forall e,
              thrownBy (onLeaveSuccess options) (effects w ++ [Fetch req]) result
                = Some e ->
              WaitlistState.error (state l.2) = Some network
              /\ l.1 = returnAfter (onLeaveError options)
                         (effects w ++ [Fetch req; OnLeaveSuccess result]) network
                         (LeaveWaitlistResponse.failure network)))
  /\ (forall o w0,
        WaitlistState.isLeaving (state (leave_resume options o w0).2) = false)
  /\ (forall es i,
        run config options initialInstance es = Some i ->
        leavesInFlight i = 0%nat ->
        WaitlistState.isLeaving (state (world i)) = false).
Proof.
  intros l req invalid network. subst l req invalid network.
  split; [|split; [|split]].
  - intros Hv. rewrite (leave_invalid _ _ net _ w Hv). simpl.
    repeat apply conj; try reflexivity.
    rewrite requestCount_app, requestCount_invoked by reflexivity. lia.
  - intros Hv Hs. rewrite (leave_valid _ _ net _ w Hv).
    destruct (leaveSucceeded_inv _ Hs) as (status & result & Hnet & _ & Hok & Hsu).
    rewrite Hnet. exists status, result. split; [reflexivity|].
    match goal with
    | |- context [leave_resume options ?o ?w1] =>
        destruct (thrownBy (onLeaveSuccess options) (effects w1) result)
          as [e|] eqn:Hcb;
        [rewrite (leave_resume_success_thrown _ _ _ _ _ Hok Hsu Hcb)
        |rewrite (leave_resume_success _ _ _ _ Hok Hsu Hcb)]
    end; simpl in Hcb |- *; rewrite Hcb;
      (repeat apply conj; try reflexivity; try discriminate).
    + intros e' [= <-]. rewrite <- app_assoc. split; reflexivity.
    + intros _. split; reflexivity.
  - intros o w0. now destruct (leave_resume_flags options o w0) as (H & _).
  - intros es i Hrun Hz.
    destruct (run_tracks_requests config options es _ _ Hrun) as [_ Hl];
      [discriminate | discriminate |].
    destruct (WaitlistState.isLeaving (state (world i))); [|reflexivity].
    specialize (Hl eq_refl). lia.
Qed.

(** X15.  [reset] puts the six cells back to their initial values and sends
    or cancels nothing: a request of [join] that is in flight when [reset]
    is called still settles afterwards and writes its outcome into the
    state that was just cleared: [isJoined] and a success message when it
    succeeded, an error when it did not. *)
Theorem reset_does_not_cancel (i : Instance) (n : nat)
    (o : FetchOutcome JoinWaitlistResponse.t) :
  joinsInFlight i = S n ->
  state (reset (world i)).2 = initialState
  /\ effects (reset (world i)).2 = effects (world i)
  /\ exists i',
       run config options i [CallReset; SettleJoin o] = Some i'
       /\ joinsInFlight i' = n
       /\ WaitlistState.isJoined (state (world i')) = joinSucceeded o
       /\ bool_decide (is_Some (WaitlistState.successMessage (state (world i'))))
          = joinSucceeded o
       /\ (joinSucceeded o = false ->
             is_Some (WaitlistState.error (state (world i'))))
       /\ WaitlistState.isJoining (state (world i')) = false.
Proof.
  intros Hn. destruct i as [[s l] nj nl]. simpl in Hn. subst nj.
  split; [reflexivity | split; [reflexivity|]].
  simpl. eexists. split; [reflexivity|]. simpl.
  match goal with
  | |- context [join_resume options o ?w0] =>
      destruct (join_resume_messages o w0) as (_ & Hf & Hs);
      destruct (join_resume_flags options o w0) as (Hg & _ & Hd)
  end.
  split; [reflexivity|]. split; [rewrite Hd; apply orb_false_r|].
  destruct (joinSucceeded o) eqn:Hok.
  - destruct (Hs eq_refl) as [Hm _].
    split; [now apply bool_decide_eq_true|]. split; [discriminate | exact Hg].
  - destruct (Hf eq_refl) as [Hm Herr].
    split; [rewrite Hm; now apply bool_decide_eq_false; intros [? [=]]|].
    split; [intros _; exact Herr | exact Hg].
Qed.

(** X16.  After a successful [join], a [leave] with a valid email that
    succeeds takes [isJoined] back to false and leaves its own success
    message; one that fails keeps [isJoined] true, clears the success
    message of the [join], sets an error and clears [isLeaving].  The two
    calls send two requests. *)
Theorem join_then_leave
    (netJ : HttpRequest -> FetchOutcome JoinWaitlistResponse.t)
    (netL : HttpRequest -> FetchOutcome LeaveWaitlistResponse.t)
    (joinEmail leaveEmail : string) (w : World) :
  isValidEmail (cleaned joinEmail) = true ->
  isValidEmail (cleaned leaveEmail) = true ->
  joinSucceeded (netJ (joinRequest config options (cleaned joinEmail))) = true ->
  let w1 := (join config options netJ joinEmail w).2 in
  let w2 := (leave config options netL leaveEmail w1).2 in
  let left := leaveSucceeded (netL (leaveRequest config options (cleaned leaveEmail))) in
  WaitlistState.isJoined (state w1) = true
  /\ WaitlistState.isJoined (state w2) = negb left
  /\ bool_decide (is_Some (WaitlistState.successMessage (state w2))) = left
  /\ (left = false -> is_Some (WaitlistState.error (state w2)))
  /\ WaitlistState.isJoining (state w2) = false
  /\ WaitlistState.isLeaving (state w2) = false
  /\ requestCount (effects w2) = (requestCount (effects w) + 2)%nat.
Proof.
  intros Hj Hl Hs w1 w2 left. subst w2 left.
  assert (Hreq : requestCount (effects (leave config options netL leaveEmail w1).2)
                 = (requestCount (effects w) + 2)%nat).
  { rewrite leave_requests, Hl. subst w1. rewrite join_requests, Hj. lia. }
  assert (H1 : WaitlistState.isJoined (state w1) = true
               /\ WaitlistState.isJoining (state w1) = false).
  { subst w1. rewrite (join_valid _ _ netJ _ w Hj).
    match goal with
    | |- context [join_resume options ?o ?w0] =>
        destruct (join_resume_flags options o w0) as (Hg & _ & Hd)
    end.
    rewrite Hs in Hd. split; [exact Hd | exact Hg]. }
  destruct H1 as [H1 H1'].
  split; [exact H1|]. clearbody w1.
  rewrite (leave_valid _ _ netL _ w1 Hl) in *.
  match goal with
  | |- context [leave_resume options ?o ?w0] =>
      destruct (leave_resume_messages o w0) as (_ & Hf & Hsu);
      destruct (leave_resume_flags options o w0) as (Hg & Hjg & Hd)
  end.
  simpl in Hjg, Hd, Hf. rewrite H1 in Hd. rewrite H1' in Hjg.
  rewrite andb_true_r in Hd.
  split; [exact Hd|].
  destruct (leaveSucceeded _) eqn:Hok.
  - destruct (Hsu eq_refl) as [Hm _].
    split; [now apply bool_decide_eq_true|].
    split; [discriminate|]. repeat apply conj; assumption.
  - destruct (Hf eq_refl) as [Hm Herr].
    split; [rewrite Hm; now apply bool_decide_eq_false; intros [? [=]]|].
    split; [intros _; exact Herr|]. repeat apply conj; assumption.
Qed.

End Hook.

(** ** The theorems at the example storefront *)

(** A success callback that throws: both callbacks are invoked, [join]
    returns the [network] failure, and the state shows [isJoined] with the
    success message and the error together. *)
Example throwing_success_callback :
  let options :=
    mkOptions Storefront.variant (Some (throws Storefront.boom)) (Some returns)
      None None in
  let j := join Storefront.config options Storefront.joinOk
             "user@example.com" initialWorld in
  j.1 = Normal (JoinWaitlistResponse.failure DEFAULT_ERROR_MESSAGES.network)
  /\ callbacks (effects j.2)
     = [OnJoinSuccess (JoinWaitlistResponse.mk true None (Some "ok") None);
        OnJoinError DEFAULT_ERROR_MESSAGES.network]
  /\ state j.2
     = WaitlistState.mk "" false false true
         (Some DEFAULT_ERROR_MESSAGES.network) (Some "ok").
Proof. vm_compute. repeat apply conj; reflexivity. Qed.

Lemma error_or_successMessage_witness :
  let j := state (join Storefront.config Storefront.options Storefront.joinRefused
                    "user@example.com" initialWorld).2 in
  WaitlistState.successMessage j = None
  /\ is_Some (WaitlistState.error j).
Proof.
  intros j.
  destruct (error_or_successMessage Storefront.config Storefront.options
              Storefront.joinRefused (fun _ => Rejected JsOther)
              "user@example.com" initialWorld eq_refl)
    as [(Hm & He & _) _].
  subst j. split; [reflexivity | exact (He eq_refl)].
Defined.

Lemma reset_does_not_cancel_witness :
  exists i i',
    run Storefront.config Storefront.options initialInstance
      [CallJoin "user@example.com"] = Some i
    /\ run Storefront.config Storefront.options i
         [CallReset;
          SettleJoin (Storefront.joinOk
                        (joinRequest Storefront.config Storefront.options
                           "user@example.com"))] = Some i'
    /\ WaitlistState.isJoined (state (world i')) = true.
Proof.
  eexists. 
  match goal with
  | |- exists i', run _ _ initialInstance _ = Some ?i /\ _ =>
      destruct (reset_does_not_cancel Storefront.config Storefront.options i 0
                  (Storefront.joinOk
                     (joinRequest Storefront.config Storefront.options
                        "user@example.com")))
        as (_ & _ & i' & Hrun & _ & Hj & _)
  end.
  2: { exists i'. split; [vm_compute; reflexivity | split; [exact Hrun | exact Hj]]. }
  reflexivity.
Defined.

Lemma join_then_leave_witness :
  let w1 := (join Storefront.config Storefront.options Storefront.joinOk
               "user@example.com" initialWorld).2 in
  let w2 := (leave Storefront.config Storefront.options
               (fun _ => Response 200 (inr (LeaveWaitlistResponse.mk true None None)))
               "user@example.com" w1).2 in
  WaitlistState.isJoined (state w1) = true
  /\ WaitlistState.isJoined (state w2) = false
  /\ requestCount (effects w2) = 2%nat.
Proof.
  intros w1 w2.
  destruct (join_then_leave Storefront.config Storefront.options Storefront.joinOk
              (fun _ => Response 200 (inr (LeaveWaitlistResponse.mk true None None)))
              "user@example.com" "user@example.com" initialWorld
              eq_refl eq_refl eq_refl)
    as (H1 & H2 & _ & _ & _ & _ & H3).
  split; [exact H1 | split; [exact H2 | exact H3]].
Defined.

End WaitlistMore.

(* ===================================================================== *)
(** * useWaitlistCount: what the cache holds *)
(* ===================================================================== *)

Module WaitlistCountMore.
Import Js JsString Validation Constants WaitlistCount WaitlistCountLog.
Import RegexFacts WaitlistCountFacts.

Section Hook.

Variable config : RestockBridgeConfig.t.
Variable options : UseWaitlistCountOptions.

(** Everything a settling request does, by what it writes. *)
Lemma fetchCount_resume_effect (now : Z)
    (o : FetchOutcome WaitlistCountResponse.t) (w : World) :
  fetchCount_resume config options now o w =
    (Normal tt,
     match cacheWrite o with
     | Some c =>
         mkWorld (mkHook c false (error (hook w)))
           (<[cacheKey config options := mkEntry c now]> (countCache w))
           (requests w)
     | None =>
         mkWorld (mkHook 0 false (Some (failureMessage o)))
           (countCache w) (requests w)
     end).
Proof.
  destruct w as [h m l]. unfold fetchCount_resume, fetchCount_try, cacheWrite,
    failureMessage.
  destruct o as [[msg|]|status [[msg|]|result]]; try reflexivity;
    destruct (ok status); simpl; try reflexivity;
    destruct (status =? 404); reflexivity.
Qed.

(** X17.  When its request settles, [fetchCount] writes the cache exactly
    when the response is a 404 (it stores 0) or a 2xx response whose body
    parses (it stores the count of the body), and then shows the stored
    count and leaves [error] alone.  In every other case -- no response, a
    body that is not JSON, any other status -- the cache is left as it was,
    the count shown is 0 and [error] is the message of what was thrown, or
    ["Failed to fetch count"] when that is not an [Error].  [isLoading] is
    false afterwards and no request is added. *)
Theorem cache_written_only_on_answer (now : Z)
    (o : FetchOutcome WaitlistCountResponse.t) (w : World) :
  let w' := (fetchCount_resume config options now o w).2 in
  (forall c, cacheWrite o = Some c ->
     countCache w' = <[cacheKey config options := mkEntry c now]> (countCache w)
     /\ hookCount (hook w') = c
     /\ error (hook w') = error (hook w))
  /\ (cacheWrite o = None ->
       countCache w' = countCache w
       /\ hookCount (hook w') = 0
       /\ error (hook w') = Some (failureMessage o))
  /\ (is_Some (cacheWrite o) <->
       (exists json, o = Response 404 json)
       \/ (exists status result, o = Response status (inr result) /\ ok status = true))
  /\ isLoading (hook w') = false
  /\ requests w' = requests w.
Proof.
  intros w'. subst w'. rewrite fetchCount_resume_effect.
  repeat apply conj.
  - intros c ->. repeat split.
  - intros ->. repeat split.
  - unfold cacheWrite. destruct o as [e|status [e|result]].
    + intros [? [=]].
    + destruct (ok status) eqn:Hok; simpl; [intros [? [=]]|].
      destruct (Z.eqb_spec status 404) as [->|Hs]; [eauto | intros [? [=]]].
    + destruct (ok status) eqn:Hok; simpl; [eauto 10|].
      destruct (Z.eqb_spec status 404) as [->|Hs]; [eauto | intros [? [=]]].
  - unfold cacheWrite.
    intros [[json ->]|(status & result & -> & Hok)]; simpl; [eauto|].
    rewrite Hok. simpl. eauto.
  - destruct (cacheWrite o); reflexivity.
  - destruct (cacheWrite o); reflexivity.
Qed.

Lemma fetchCount_begin_cache (now : Z) (w : World) :
  countCache (fetchCount_begin config options now w).2 = countCache w.
Proof.
  destruct (cacheHit config options now (countCache w)) as [c|] eqn:H.
  - now rewrite (fetchCount_begin_hit _ _ _ _ _ H).
  - now rewrite (fetchCount_begin_miss _ _ _ _ H).
Qed.

Lemma fetchCount_other_key net (now now' : Z) (w : World) (k : string) :
  k <> cacheKey config options ->
  countCache (fetchCount config options net now now' w).2 !! k
  = countCache w !! k.
Proof.
  intros Hk.
  destruct (cacheHit config options now (countCache w)) as [c|] eqn:H.
  - now rewrite (fetchCount_hit _ _ net _ now' _ _ H).
  - rewrite (fetchCount_miss _ _ net _ now' _ H), fetchCount_resume_effect,
      (fetchCount_begin_miss _ _ _ _ H).
    destruct (cacheWrite _); simpl; [|reflexivity].
    now rewrite lookup_insert_ne by congruence.
Qed.

(** X18.  [fetchCount] and [refetch] touch no entry of the shared cache but
    the one of their own key: under every other key the cache holds after
    the call what it held before, whatever the transport answers. *)
Theorem other_entries_untouched
    (net : HttpRequest -> FetchOutcome WaitlistCountResponse.t)
    (now now' : Z) (w : World) (k : string) :
  k <> cacheKey config options ->
  countCache (fetchCount config options net now now' w).2 !! k
    = countCache w !! k
  /\ countCache (refetch config options net now now' w).2 !! k
    = countCache w !! k.
Proof.
  intros Hk. split; [now apply fetchCount_other_key|].
  unfold refetch, refetch_begin, bind, cacheDelete, modify.
  pose proof (fetchCount_other_key net now now'
                (mkWorld (hook w) (delete (cacheKey config options) (countCache w))
                   (requests w)) k Hk) as H.
  unfold fetchCount, bind in H. simpl in H.
  destruct (fetchCount_begin config options now _) as [[[[]|req]|e] w1];
    simpl in *; rewrite H; now rewrite lookup_delete_ne by congruence.
Qed.

(** X19.  The cache is shared by the hook instances of the page: after one
    instance has been answered (a 404 or a 2xx body), another instance for
    the same shop and variant, whatever its own cells hold, that calls
    [fetchCount] within the cache window shows the stored count without
    sending a request -- and without touching its [error] and [isLoading]
    cells, so an error it showed before stays on display. *)
Theorem cache_shared_between_instances
    (net : HttpRequest -> FetchOutcome WaitlistCountResponse.t)
    (now now' now2 now2' c : Z)
    (o : FetchOutcome WaitlistCountResponse.t)
    (w : World) (other : HookState) :
  cacheWrite o = Some c ->
  now2 - now' < cacheDurationOrDefault options ->
  let w1 := (fetchCount_resume config options now' o w).2 in
  let w2 := (fetchCount config options net now2 now2'
               (mkWorld other (countCache w1) (requests w1))).2 in
  hookCount (hook w2) = c
  /\ error (hook w2) = error other
  /\ isLoading (hook w2) = isLoading other
  /\ requests w2 = requests w
  /\ countCache w2 = countCache w1.
Proof.
  intros Hc Hfresh w1 w2. subst w2 w1.
  rewrite fetchCount_resume_effect, Hc. simpl.
  rewrite (fetchCount_hit _ _ net now2 now2' c)
    by (simpl; now apply cacheHit_after_write).
  repeat split.
Qed.

(** X28.  [refetch] deletes the entry before it asks the network and puts
    nothing back when the request fails: after a [refetch] whose request is
    not answered with a 404 or a 2xx body, the key has no entry -- even if a
    fresh one was cached before -- the count shown is 0 and [error] is
    set. *)
Theorem failed_refetch_drops_entry
    (net : HttpRequest -> FetchOutcome WaitlistCountResponse.t)
    (now now' : Z) (w : World) :
  cacheWrite (net (countRequest config options)) = None ->
  let w' := (refetch config options net now now' w).2 in
  countCache w' !! cacheKey config options = None
  /\ hookCount (hook w') = 0
  /\ error (hook w') = Some (failureMessage (net (countRequest config options)))
  /\ isLoading (hook w') = false
  /\ requests w' = (requests w ++ [countRequest config options])%list.
Proof.
  intros Hw w'. subst w'.
  unfold refetch, refetch_begin, bind, cacheDelete, modify.
  rewrite fetchCount_begin_miss by (simpl; apply cacheHit_after_delete).
  rewrite fetchCount_resume_effect, Hw. simpl.
  repeat split. apply lookup_delete_eq.
Qed.

End Hook.

Lemma split_at_colon (a1 a2 b1 b2 : string) :
  all_chars (fun c => negb (isChar ":" c)) a1 = true ->
  all_chars (fun c => negb (isChar ":" c)) a2 = true ->
  a1 +:+ ":" +:+ b1 = a2 +:+ ":" +:+ b2 ->
  a1 = a2 /\ b1 = b2.
Proof.
  revert a2. induction a1 as [|c a1 IH]; intros [|d a2] H1 H2 E;
    rewrite ?append_cons, ?append_nil_l in E.
  - injection E as <-. auto.
  - injection E as <- _. simpl in H2. discriminate.
  - injection E as -> _. simpl in H1. discriminate.
  - injection E as <- E. simpl in H1, H2.
    apply andb_true_iff in H1 as [_ H1]. apply andb_true_iff in H2 as [_ H2].
    destruct (IH a2 H1 H2 E) as [-> ->]. auto.
Qed.

(** X20.  For shop domains without a colon, two hooks use the same cache
    entry only if they have the same shop domain and the same numeric
    identifier: counts of different shops or variants never overwrite each
    other. *)
Theorem cacheKey_injective
    (config1 config2 : RestockBridgeConfig.t)
    (options1 options2 : UseWaitlistCountOptions) :
  all_chars (fun c => negb (isChar ":" c))
    (RestockBridgeConfig.shopDomain config1) = true ->
  all_chars (fun c => negb (isChar ":" c))
    (RestockBridgeConfig.shopDomain config2) = true ->
  cacheKey config1 options1 = cacheKey config2 options2 ->
  RestockBridgeConfig.shopDomain config1 = RestockBridgeConfig.shopDomain config2
  /\ extractNumericId (variantId options1) = extractNumericId (variantId options2).
Proof. unfold cacheKey. apply split_at_colon. Qed.

(** ** The theorems at the example storefront *)

Lemma other_entries_untouched_witness :
  let w := mkWorld initialHook
             (<["my-store.myshopify.com:999" := mkEntry 4 10]> ∅) [] in
  countCache (fetchCount Storefront.config Storefront.countOptions
                (fun _ => Response 200 (inr (WaitlistCountResponse.mk "123" 7)))
                1000 1200 w).2 !! "my-store.myshopify.com:999"
  = Some (mkEntry 4 10).
Proof.
  intros w.
  destruct (other_entries_untouched Storefront.config Storefront.countOptions
              (fun _ => Response 200 (inr (WaitlistCountResponse.mk "123" 7)))
              1000 1200 w "my-store.myshopify.com:999") as [H _].
  { vm_compute. discriminate. }
  rewrite H. reflexivity.
Defined.

Lemma cache_shared_between_instances_witness :
  let o := Response 200 (inr (WaitlistCountResponse.mk "123" 7)) in
  let w1 := (fetchCount_resume Storefront.config Storefront.countOptions 1200 o
               Storefront.countWorld).2 in
  let w2 := (fetchCount Storefront.config Storefront.countOptions
               (fun _ => Rejected JsOther) 2000 2100
               (mkWorld (mkHook 0 false (Some "Failed to fetch count"))
                  (countCache w1) (requests w1))).2 in
  hookCount (hook w2) = 7 /\ error (hook w2) = Some "Failed to fetch count".
Proof.
  intros o w1 w2.
  destruct (cache_shared_between_instances Storefront.config Storefront.countOptions
              (fun _ => Rejected JsOther) 1000 1200 2000 2100 7 o
              Storefront.countWorld (mkHook 0 false (Some "Failed to fetch count"))
              eq_refl eq_refl) as (Hc & He & _).
  split; [exact Hc | exact He].
Defined.

Lemma failed_refetch_drops_entry_witness :
  let w := mkWorld (mkHook 7 false None)
             (<[cacheKey Storefront.config Storefront.countOptions := mkEntry 7 900]> ∅)
             [] in
  cacheHit Storefront.config Storefront.countOptions 1000 (countCache w) = Some 7
  /\ countCache (refetch Storefront.config Storefront.countOptions
                   (fun _ => Response 500 (inl JsOther)) 1000 1200 w).2
       !! cacheKey Storefront.config Storefront.countOptions = None.
Proof.
  intros w.
  destruct (failed_refetch_drops_entry Storefront.config Storefront.countOptions
              (fun _ => Response 500 (inl JsOther)) 1000 1200 w eq_refl)
    as (H & _).
  split; [reflexivity | exact H].
Defined.

Lemma cacheKey_injective_witness :
  cacheKey Storefront.config Storefront.countOptions
    = cacheKey Storefront.config (mkOptions "123" None None)
  /\ extractNumericId "gid://shopify/ProductVariant/123" = extractNumericId "123".
Proof.
  assert (E : cacheKey Storefront.config Storefront.countOptions
              = cacheKey Storefront.config (mkOptions "123" None None))
    by reflexivity.
  destruct (cacheKey_injective Storefront.config Storefront.config
              Storefront.countOptions (mkOptions "123" None None)
              eq_refl eq_refl E) as [_ H].
  split; [exact E | exact H].
Defined.

End WaitlistCountMore.

(* ===================================================================== *)
(** * The availability classifier: how its answers hang together *)
(* ===================================================================== *)

Module VariantAvailabilityMore.
Import VariantAvailability.

(** X21.  The answers of the classifier are consistent with each other,
    with or without a variant: [isAvailable] is the negation of
    [isOutOfStock]; low stock implies the status [available], so a variant
    is never both low in stock and on pre-order or out of stock;
    [showNotifyMe] implies the status [out_of_stock]; the status is
    [preorder] exactly when the variant is available with a quantity of 0;
    raising the threshold never takes low stock away, and a threshold of 0
    or less means no low stock at all. *)
Theorem availability_consistent (variant : option VariantInfo.t)
    (threshold : option Z) :
  let r := useVariantAvailability (mkOptions variant threshold) in
  isAvailable r = negb (isOutOfStock r)
  /\ (isLowStock r = true ->
       status r = available /\ isAvailable r = true /\ showNotifyMe r = false)
  /\ (showNotifyMe r = true ->
       status r = out_of_stock /\ isAvailable r = false /\ isLowStock r = false)
  /\ (status r = out_of_stock <-> isOutOfStock r = true)
  /\ (status r = preorder <->
       isAvailable r = true /\ quantityAvailable r = Some 0)
  /\ (forall t, default 5 threshold <= t ->
       isLowStock r = true ->
       isLowStock (useVariantAvailability (mkOptions variant (Some t))) = true)
  /\ (default 5 threshold <= 0 -> isLowStock r = false).
Proof.
  destruct variant as [[i p t vt sale qty pr im]|]; simpl;
    [destruct sale;
     [destruct qty as [q|]; [destruct (Z.eqb_spec q 0) as [->|Hq]|]|]|];
    simpl; repeat apply conj; intros;
    repeat match goal with
           | H : _ /\ _ |- _ => destruct H
           | H : (_ && _) = true |- _ => apply andb_true_iff in H
           | |- _ <-> _ => split; intros
           | |- _ /\ _ => split
           | |- (_ && _) = true => apply andb_true_iff
           end;
    try reflexivity; try discriminate; try congruence; try lia; auto.
Qed.

End VariantAvailabilityMore.

(* ===================================================================== *)
(** * The requests and the components built on the hooks *)
(* ===================================================================== *)

Module ComponentFacts.
Import Js JsString Validation Constants.

(** X22.  The requests of [join], [leave] and [fetchCount] carry the same
    [Authorization] header: ["Bearer "] followed by the API key when the
    configuration has a non-empty key, and no header at all when the key is
    missing or is the empty string. *)
Theorem authorization_header (config : RestockBridgeConfig.t)
    (options : Waitlist.UseWaitlistOptions)
    (countOptions : WaitlistCount.UseWaitlistCountOptions)
    (joinEmail leaveEmail : string) :
  let header := authorization (Waitlist.joinRequest config options joinEmail) in
  authorization (Waitlist.leaveRequest config options leaveEmail) = header
  /\ authorization (WaitlistCount.countRequest config countOptions) = header
  /\ (header = None <->
       RestockBridgeConfig.apiKey config = None
       \/ RestockBridgeConfig.apiKey config = Some "")
  /\ (forall k, RestockBridgeConfig.apiKey config = Some k -> k <> "" ->
       header = Some ("Bearer " +:+ k)).
Proof.
  simpl. unfold authorizationHeader.
  destruct (RestockBridgeConfig.apiKey config) as [k|];
    [case_bool_decide as E|];
    repeat apply conj; intros;
    repeat match goal with
           | |- _ <-> _ => split; intros
           | H : _ \/ _ |- _ => destruct H
           end;
    try reflexivity; try discriminate; try congruence; auto.
  right. now subst k.
Qed.

Section CountComponent.
Import WaitlistCount WaitlistCountLog WaitlistCountComponent.

Variable Node : Type.

(** X23.  Without a render function of its own, the [WaitlistCount]
    component renders nothing exactly when its hook is loading or the count
    is below [minCount] (1 when none is given), and otherwise a [span] whose
    text and label are the formatted count.  So, for a [minCount] of 1 or
    more, it renders nothing while a request is in flight and nothing after
    a fetch that fails, which leaves the count at 0.  With a render function
    it hands the count and the loading flag over in every state. *)
Theorem waitlistCount_visibility
    (config : RestockBridgeConfig.t) (props : @WaitlistCountProps Node)
    (h : HookState) :
  (forall render, children props = Some render ->
     WaitlistCount props h = Fragment (render (hookCount h) (isLoading h)))
  /\ (children props = None ->
       (WaitlistCount props h = Null <->
          isLoading h = true \/ hookCount h < default 1 (minCount props))
       /\ (isLoading h = false -> default 1 (minCount props) <= hookCount h ->
            exists text,
              WaitlistCount props h = Span (className props) text text
              /\ (forall format, formatText props = Some format ->
                    text = format (hookCount h))
              /\ (formatText props = None -> text = defaultFormat (hookCount h)))
       /\ (1 <= default 1 (minCount props) ->
            forall now o w,
              (cacheWrite o = None ->
               WaitlistCount props
                 (hook (fetchCount_resume config (hookOptions props) now o w).2)
               = Null)
              /\ (cacheHit config (hookOptions props) now (countCache w) = None ->
                  WaitlistCount props
                    (hook (fetchCount_begin config (hookOptions props) now w).2)
                  = Null))).
Proof.
  split; [intros render H; unfold WaitlistCount; now rewrite H|].
  intros Hc. unfold WaitlistCount. rewrite Hc. split; [|split].
  - destruct (isLoading h); simpl; [split; auto|].
    destruct (Z.ltb_spec (hookCount h) (default 1 (minCount props))).
    + split; auto.
    + split; [discriminate | intros [[=]|?]; lia].
  - intros -> Hle. simpl.
    destruct (Z.ltb_spec (hookCount h) (default 1 (minCount props))); [lia|].
    eexists. split; [reflexivity|].
    split; [now intros format -> | now intros ->].
  - intros Hmin now o w.
    pose proof (WaitlistCountMore.fetchCount_resume_effect config
                  (hookOptions props) now o w) as E.
    split.
    + intros Hw. rewrite E, Hw. simpl.
      destruct (Z.ltb_spec 0 (default 1 (minCount props))); [reflexivity | lia].
    + intros Hmiss.
      now rewrite (WaitlistCountFacts.fetchCount_begin_miss _ _ _ _ Hmiss).
Qed.

End CountComponent.

Section NotifyMe.
Import Waitlist NotifyMeButton.

Variable config : RestockBridgeConfig.t.
Variable props : NotifyMeButtonProps.

(** X24.  The [NotifyMeButton] component, from its first render: a click
    shows the form; typing fills the input; a submit with a valid email
    that the backend accepts shows the success state, with the
    [successMessage] prop when given and else the message of the response
    or the default one; and [handleReset] then brings the component back to
    what it first rendered, with the cells of the hook at their initial
    values.  The whole exchange sends one request. *)
Theorem notifyMe_round_trip
    (net : HttpRequest -> FetchOutcome JoinWaitlistResponse.t)
    (typed : string) (status : Z) (result : JoinWaitlistResponse.t) :
  isValidEmail (cleaned typed) = true ->
  net (joinRequest config (hookOptions props) (cleaned typed))
    = Response status (inr result) ->
  ok status = true ->
  JoinWaitlistResponse.success result = true ->
  let st0 := NotifyMeButton.initialState props in
  let st1 := handleClick st0 in
  let st2 := handleChange typed st1 in
  let st3 := handleSubmit config props net st2 in
  let st4 := handleReset props st3 in
  render props st0 =
    (if default false (inline props)
     then FormView "" (default "Enter your email" (placeholder props)) false
            (default "Notify Me" (submitText props)) None
     else ButtonView (renderButton props) (default "Notify Me" (buttonText props)))
  /\ render props st2 =
      FormView typed (default "Enter your email" (placeholder props)) false
        (default "Notify Me" (submitText props)) None
  /\ render props st3 =
      SuccessView (renderSuccess props)
        (default
           (default DEFAULT_SUCCESS_MESSAGES.joined
              (JoinWaitlistResponse.message result))
           (successMessage props))
  /\ state (waitlist st4) = Waitlist.initialState
  /\ isExpanded st4 = isExpanded st0
  /\ render props st4 = render props st0
  /\ requestCount (effects (waitlist st4)) = 1%nat.
Proof.
  intros Hv Hnet Hok Hs st0 st1 st2 st3 st4.
  pose proof (WaitlistFacts.join_valid config (hookOptions props) net typed
                (mkWorld (WaitlistState.set_email typed Waitlist.initialState) [])
                Hv) as E.
  rewrite Hnet in E.
  match type of E with
  | _ = join_resume _ _ ?w1 =>
      destruct (thrownBy (onJoinSuccess (hookOptions props)) (effects w1) result)
        as [e|] eqn:Hcb;
      [rewrite (WaitlistFacts.join_resume_success_thrown _ _ _ _ _ Hok Hs Hcb) in E
      |rewrite (WaitlistFacts.join_resume_success _ _ _ _ Hok Hs Hcb) in E]
  end;
    subst st4 st3 st2 st1 st0;
    unfold handleReset, handleSubmit, handleChange, handleClick,
      NotifyMeButton.initialState, render;
    (destruct (inline props) as [[]|]; simpl; rewrite E; simpl;
     (repeat apply conj; try reflexivity);
     unfold invoked; destruct (onSuccess props), (onError props); reflexivity).
Qed.

(** X25.  After a submit that fails while no other request of [join] is in
    flight and the form is on screen, the form is still on screen, enabled,
    and shows the error as an alert -- except when the message is the empty
    string, which happens only when the body of the response carries
    [error: ""]: then [error] is set but nothing is shown. *)
Theorem failed_submit_shows_alert
    (net : HttpRequest -> FetchOutcome JoinWaitlistResponse.t) (st : State) :
  let typed := WaitlistState.email (state (waitlist st)) in
  let st' := handleSubmit config props net st in
  isExpanded st = true ->
  WaitlistState.isJoined (state (waitlist st)) = false ->
  WaitlistState.isJoining (state (waitlist st)) = false ->
  isValidEmail (cleaned typed)
    && joinSucceeded (net (joinRequest config (hookOptions props) (cleaned typed)))
    = false ->
  exists msg,
    WaitlistState.error (state (waitlist st')) = Some msg
    /\ render props st' =
        FormView typed (default "Enter your email" (placeholder props)) false
          (default "Notify Me" (submitText props))
          (if bool_decide (msg = "") then None else Some msg)
    /\ (msg = "" ->
         exists status result,
           net (joinRequest config (hookOptions props) (cleaned typed))
             = Response status (inr result)
           /\ JoinWaitlistResponse.error result = Some "").
Proof.
  intros typed st' Hx Hj Hg Hfail. subst st'. unfold handleSubmit, render.
  fold typed. destruct st as [x [s l]]. simpl in *. subst x.
  destruct (isValidEmail (cleaned typed)) eqn:Hv; simpl in Hfail.
  - rewrite (WaitlistFacts.join_valid config (hookOptions props) net typed _ Hv).
    match goal with
    | |- context [join_resume _ ?o ?w1] =>
        destruct (WaitlistFacts.join_resume_cases (hookOptions props) o w1)
          as [(_ & _ & E)|[(_ & _ & _ & E)|[(_ & _ & _ & E)
             |[(Hs & _)|(Hs & _)]]]];
        try congruence; rewrite E
    end; eexists; simpl; rewrite Hj;
      (split; [reflexivity | split; [reflexivity|]]); try discriminate.
    apply WaitlistMore.joinFailureMessage_empty.
  - rewrite (WaitlistFacts.join_invalid config (hookOptions props) net typed _ Hv).
    exists DEFAULT_ERROR_MESSAGES.invalidEmail. simpl.
    rewrite Hj, Hg. repeat split. discriminate.
Qed.

End NotifyMe.

(** ** The theorems at the example storefront *)

Lemma notifyMe_round_trip_witness :
  let props :=
    NotifyMeButton.mkProps Storefront.variant None None None None None None
      (Some Waitlist.returns) (Some Waitlist.returns) false false in
  let st3 :=
    NotifyMeButton.handleSubmit Storefront.config props Storefront.joinOk
      (NotifyMeButton.handleChange "user@example.com"
         (NotifyMeButton.handleClick (NotifyMeButton.initialState props))) in
  NotifyMeButton.render props st3 = NotifyMeButton.SuccessView false "ok"
  /\ NotifyMeButton.render props (NotifyMeButton.handleReset props st3)
     = NotifyMeButton.ButtonView false "Notify Me".
Proof.
  intros props st3.
  destruct (notifyMe_round_trip Storefront.config props Storefront.joinOk
              "user@example.com" 200
              (JoinWaitlistResponse.mk true None (Some "ok") None)
              eq_refl eq_refl eq_refl eq_refl)
    as (H0 & _ & H3 & _ & _ & H4 & _).
  split; [exact H3 | subst st3; rewrite H4; exact H0].
Defined.

Lemma failed_submit_shows_alert_witness :
  let props :=
    NotifyMeButton.mkProps Storefront.variant None None None None None None
      (Some Waitlist.returns) (Some Waitlist.returns) false false in
  let st :=
    NotifyMeButton.handleChange "user@example.com"
      (NotifyMeButton.handleClick (NotifyMeButton.initialState props)) in
  exists msg,
    WaitlistState.error
      (Waitlist.state
         (NotifyMeButton.waitlist
            (NotifyMeButton.handleSubmit Storefront.config props
               (fun _ => Response 400
                           (inr (JoinWaitlistResponse.mk false None None (Some ""))))
               st))) = Some msg
    /\ NotifyMeButton.render props
         (NotifyMeButton.handleSubmit Storefront.config props
            (fun _ => Response 400
                        (inr (JoinWaitlistResponse.mk false None None (Some ""))))
            st)
       = NotifyMeButton.FormView "user@example.com" "Enter your email" false
           "Notify Me" (if bool_decide (msg = "") then None else Some msg).
Proof.
  intros props st.
  destruct (failed_submit_shows_alert Storefront.config props
              (fun _ => Response 400
                          (inr (JoinWaitlistResponse.mk false None None (Some ""))))
              st eq_refl eq_refl eq_refl eq_refl) as (msg & He & Hr & _).
  exists msg. split; [exact He | exact Hr].
Defined.

End ComponentFacts.
